(** * ShambaLuvAirdrop: a shallow embedding of the airdrop contract

    The contract [ShambaLuvAirdrop] keeps, per token, an airdrop
    configuration and, per (token, address), a claimed flag.  Every
    external function of the contract is embedded below as a function in
    a state-and-error monad over the [World]: the contract's storage, the
    balances and allowances kept by the ERC20 tokens it talks to, and the
    event log.

    A revert is [Err]: the caller keeps the world it started from, which
    is how the EVM rolls a failed call back. *)

From Stdlib Require Import NArith Lia List.
From stdpp Require Import gmap list fin_maps.

#[local] Open Scope N_scope.

(** ** Data *)

(** [address] is a 160-bit and [uint256] a 256-bit unsigned integer; both
    are embedded in [N].  [address(0)] is [0]. *)
Abbreviation address := N (only parsing).

Definition MAX_UINT256 : N := 2 ^ 256 - 1.

(** The reasons a call can revert with.  The first group are the
    [require] strings of the contract, the second group come from the
    inherited OpenZeppelin contracts and from the compiler. *)
Inductive Error : Type :=
| InvalidDefaultToken   (* "Invalid default token address" *)
| InvalidTokenAddress   (* "Invalid token address" *)
| AlreadyClaimed        (* "Already claimed for this token" *)
| NotActive             (* "Airdrop not active for this token" *)
| AmountUnset           (* "Airdrop amount not set" *)
| InsufficientFunds     (* "Insufficient tokens in contract" *)
| TransferFailed        (* "Transfer failed" *)
| InvalidRecipient      (* "Invalid recipient address" *)
| AmountZero            (* "Amount must be greater than 0" *)
| InsufficientBalance   (* "Insufficient balance" *)
| Unauthorized          (* Ownable: the caller is not the owner *)
| InvalidOwner          (* Ownable: the new owner is the zero address *)
| ReentrantCall         (* ReentrancyGuard: reentrant call *)
| Overflow              (* Panic(0x11): checked arithmetic overflowed *)
| ExternalRevert.       (* the call into the token reverted *)

#[global] Instance Error_eq_dec : EqDecision Error.
Proof. solve_decision. Defined.

Inductive Result (A : Type) : Type :=
| Ok (a : A)
| Err (e : Error).
Arguments Ok {A} a.
Arguments Err {A} e.

(** [struct AirdropConfig] *)
Record AirdropConfig : Type := mkConfig {
  amount : N;
  isActive : bool;
  totalClaimed : N;
  totalRecipients : N
}.

(** What a Solidity mapping returns for a key never written. *)
Definition zeroConfig : AirdropConfig := mkConfig 0 false 0 0.

Inductive Event : Type :=
| AirdropClaimed (token recipient : address) (amt : N)
| AirdropConfigUpdated (token : address) (oldAmount newAmount : N) (active : bool)
| TokensDeposited (token from : address) (amt : N)
| TokensWithdrawn (token to : address) (amt : N)
| TokensRescued (token to : address) (amt : N)
| EmergencyWithdraw (token to : address) (amt : N)
| OwnershipTransferred (previousOwner newOwner : address).

(** The storage of the contract: [_owner] of Ownable, the immutable
    [defaultToken], the two mappings, and the flag of ReentrancyGuard
    ([entered = true] is [_status == ENTERED]). *)
Record Storage : Type := mkStorage {
  owner : address;
  defaultToken : address;
  tokenConfigs : gmap address AirdropConfig;
  hasClaimed : gmap (address * address) bool;
  entered : bool
}.

(** The world a call runs in.  [balances] and [allowances] are the state
    of the ERC20 tokens, keyed by (token, holder) and by (token, holder,
    spender); the contract stores no balance of its own and reads this
    through [balanceOf]. *)
Record World : Type := mkWorld {
  ledger : Storage;
  balances : gmap (address * address) N;
  allowances : gmap (address * address * address) N;
  events : list Event
}.

(** Reads of the two mappings, with Solidity's default for absent keys. *)
Definition config_of (s : Storage) (token : address) : AirdropConfig :=
  default zeroConfig (tokenConfigs s !! token).

Definition claimed_by (s : Storage) (token user : address) : bool :=
  default false (hasClaimed s !! (token, user)).

Definition balance_of (w : World) (token holder : address) : N :=
  default 0 (balances w !! (token, holder)).

Definition allowance_of (w : World) (token holder spender : address) : N :=
  default 0 (allowances w !! (token, holder, spender)).

(** Writes. *)
Definition set_owner (o : address) (s : Storage) : Storage :=
  mkStorage o (defaultToken s) (tokenConfigs s) (hasClaimed s) (entered s).

Definition set_entered (b : bool) (s : Storage) : Storage :=
  mkStorage (owner s) (defaultToken s) (tokenConfigs s) (hasClaimed s) b.

Definition set_claimed (token user : address) (s : Storage) : Storage :=
  mkStorage (owner s) (defaultToken s) (tokenConfigs s)
            (<[(token, user) := true]> (hasClaimed s)) (entered s).

Definition set_config (token : address) (c : AirdropConfig) (s : Storage) : Storage :=
  mkStorage (owner s) (defaultToken s) (<[token := c]> (tokenConfigs s))
            (hasClaimed s) (entered s).

Definition with_amount (a : N) (c : AirdropConfig) : AirdropConfig :=
  mkConfig a (isActive c) (totalClaimed c) (totalRecipients c).

Definition with_isActive (b : bool) (c : AirdropConfig) : AirdropConfig :=
  mkConfig (amount c) b (totalClaimed c) (totalRecipients c).

Definition with_totalClaimed (n : N) (c : AirdropConfig) : AirdropConfig :=
  mkConfig (amount c) (isActive c) n (totalRecipients c).

Definition with_totalRecipients (n : N) (c : AirdropConfig) : AirdropConfig :=
  mkConfig (amount c) (isActive c) (totalClaimed c) n.

Definition on_ledger (f : Storage → Storage) (w : World) : World :=
  mkWorld (f (ledger w)) (balances w) (allowances w) (events w).

(** ** The monad of contract code *)

Definition M (A : Type) : Type := World → Result (A * World).

#[global] Instance M_ret : MRet M := λ A a w, Ok (a, w).

#[global] Instance M_bind : MBind M := λ A B f m w,
  match m w with
  | Ok (a, w') => f a w'
  | Err e => Err e
  end.

(** [require(cond, reason)] *)
Definition require (cond : bool) (reason : Error) : M () :=
  λ w, if cond then Ok ((), w) else Err reason.

Definition sload {A : Type} (f : Storage → A) : M A :=
  λ w, Ok (f (ledger w), w).

Definition sstore (f : Storage → Storage) : M () :=
  λ w, Ok ((), on_ledger f w).

Definition log (e : Event) (w : World) : World :=
  mkWorld (ledger w) (balances w) (allowances w) (events w ++ [e]).

Definition emit (e : Event) : M () :=
  λ w, Ok ((), log e w).

(** [a + b] of Solidity 0.8: reverts instead of wrapping around. *)
Definition checked_add (a b : N) : M N :=
  λ w, if a + b <=? MAX_UINT256 then Ok (a + b, w) else Err Overflow.

(** The calls into a token are what the contract cannot see into.  A
    [TokenCall] is the behaviour of the three functions of [IERC20] the
    contract calls, each time as [msg.sender] of the token.

    [balanceOf_reverts token holder w] tells whether
    [IERC20(token).balanceOf(holder)] reverts in [w], and with what:
    there is no contract at the address, or the token refuses.  When it
    does not revert, the answer is the balance the token keeps.

    [token_transfer token from to amt] is [IERC20(token).transfer(to, amt)],
    [from] being the contract itself, and [token_transferFrom token from
    to amt] is [IERC20(token).transferFrom(from, to, amt)]: given the
    token, the account debited, the account credited and the amount, each
    either reverts or returns the token's boolean.  Applying a [TokenCall]
    as a function is its [transfer]. *)
Record TokenCall : Type := mkTokenCall {
  balanceOf_reverts : address → address → World → option Error;
  token_transfer :> address → address → address → N → M bool;
  token_transferFrom : address → address → address → N → M bool
}.

(** [transferFrom] when the contract pulls, [transfer] when it pays. *)
Definition token_op (T : TokenCall) (pull : bool)
  : address → address → address → N → M bool :=
  if pull then token_transferFrom T else token_transfer T.

(** ** The inherited modifiers

    The contract is declared [is Ownable, ReentrancyGuard], both imported
    from OpenZeppelin; their sources are not part of the repository.  The
    two modifiers and the two ownership functions below follow the
    library: [onlyOwner] compares the caller with the stored owner;
    [nonReentrant] reverts when the flag is already raised, raises it,
    runs the body and lowers it again. *)

Definition onlyOwner (sender : address) : M () :=
  o ← sload owner;
  require (sender =? o) Unauthorized.

Definition nonReentrant {A : Type} (body : M A) : M A :=
  e ← sload entered;
  require (negb e) ReentrantCall;;
  sstore (set_entered true);;
  r ← body;
  sstore (set_entered false);;
  mret r.

Definition transferOwnership (sender newOwner : address) : M () :=
  onlyOwner sender;;
  require (negb (newOwner =? 0)) InvalidOwner;;
  old ← sload owner;
  sstore (set_owner newOwner);;
  emit (OwnershipTransferred old newOwner).

Definition renounceOwnership (sender : address) : M () :=
  onlyOwner sender;;
  old ← sload owner;
  sstore (set_owner 0);;
  emit (OwnershipTransferred old 0).

(** ** The contract *)

(** [tokenConfigs[token].f = ...] through the storage pointer [config]. *)
Definition update_config (token : address) (f : AirdropConfig → AirdropConfig) : M () :=
  sstore (λ s, set_config token (f (config_of s token)) s).

(** The constructor, run by [deployer].  [Ownable(msg.sender)] stores the
    deployer as owner and logs it (its check that the initial owner is
    not zero cannot fire on [msg.sender]); a deployed contract starts
    with the guard flag lowered and both mappings empty. *)
Definition constructor (deployer _defaultToken : address) : M () :=
  sstore (λ _, mkStorage deployer 0 ∅ ∅ false);;
  emit (OwnershipTransferred 0 deployer);;
  require (negb (_defaultToken =? 0)) InvalidDefaultToken;;
  sstore (λ s, mkStorage (owner s) _defaultToken (tokenConfigs s) (hasClaimed s) (entered s));;
  sstore (set_config _defaultToken
            (mkConfig (1000000000000 * 10 ^ 18) true 0 0)).

Section Contract.

(** [address(this)] *)
Variable this : address.

(** The token behind the [balanceOf], [transfer] and [transferFrom]
    calls. *)
Variable token_call : TokenCall.

(** [IERC20(token).balanceOf(holder)], a view call. *)
Definition balanceOf (token holder : address) : M N :=
  λ w, match balanceOf_reverts token_call token holder w with
       | Some e => Err e
       | None => Ok (balance_of w token holder, w)
       end.

Definition claimAirdropForToken (sender token : address) : M () :=
  nonReentrant (
    require (negb (token =? 0)) InvalidTokenAddress;;
    claimed ← sload (λ s, claimed_by s token sender);
    require (negb claimed) AlreadyClaimed;;
    active ← sload (λ s, isActive (config_of s token));
    require active NotActive;;
    amt ← sload (λ s, amount (config_of s token));
    require (0 <? amt) AmountUnset;;
    contractBalance ← balanceOf token this;
    amt ← sload (λ s, amount (config_of s token));
    require (amt <=? contractBalance) InsufficientFunds;;
    sstore (set_claimed token sender);;
    (claimedSoFar ← sload (λ s, totalClaimed (config_of s token));
     amt ← sload (λ s, amount (config_of s token));
     sum ← checked_add claimedSoFar amt;
     update_config token (with_totalClaimed sum));;
    (recipients ← sload (λ s, totalRecipients (config_of s token));
     next ← checked_add recipients 1;
     update_config token (with_totalRecipients next));;
    amt ← sload (λ s, amount (config_of s token));
    ok ← token_transfer token_call token this sender amt;
    require ok TransferFailed;;
    amt ← sload (λ s, amount (config_of s token));
    emit (AirdropClaimed token sender amt)).

(** [claimAirdrop] carries [nonReentrant] itself and calls the public,
    also [nonReentrant], [claimAirdropForToken] internally. *)
Definition claimAirdrop (sender : address) : M () :=
  nonReentrant (
    d ← sload defaultToken;
    claimAirdropForToken sender d).

Definition setAirdropConfig (sender token : address) (amount_ : N) (isActive_ : bool) : M () :=
  onlyOwner sender;;
  require (negb (token =? 0)) InvalidTokenAddress;;
  oldAmount ← sload (λ s, amount (config_of s token));
  update_config token (with_amount amount_);;
  update_config token (with_isActive isActive_);;
  emit (AirdropConfigUpdated token oldAmount amount_ isActive_).

Definition setAirdropAmount (sender : address) (_newAmount : N) : M () :=
  onlyOwner sender;;
  d ← sload defaultToken;
  require (negb (d =? 0)) InvalidTokenAddress;;
  oldAmount ← sload (λ s, amount (config_of s d));
  update_config d (with_amount _newAmount);;
  update_config d (with_isActive true);;
  emit (AirdropConfigUpdated d oldAmount _newAmount true).

Definition depositTokens (sender token : address) (amount_ : N) : M () :=
  onlyOwner sender;;
  require (negb (token =? 0)) InvalidTokenAddress;;
  require (0 <? amount_) AmountZero;;
  ok ← token_transferFrom token_call token sender this amount_;
  require ok TransferFailed;;
  emit (TokensDeposited token sender amount_).

Definition depositTokens_default (sender : address) (amount_ : N) : M () :=
  onlyOwner sender;;
  d ← sload defaultToken;
  require (negb (d =? 0)) InvalidTokenAddress;;
  require (0 <? amount_) AmountZero;;
  ok ← token_transferFrom token_call d sender this amount_;
  require ok TransferFailed;;
  emit (TokensDeposited d sender amount_).

Definition withdrawTokens (sender token : address) (amount_ : N) : M () :=
  onlyOwner sender;;
  require (negb (token =? 0)) InvalidTokenAddress;;
  require (0 <? amount_) AmountZero;;
  contractBalance ← balanceOf token this;
  require (amount_ <=? contractBalance) InsufficientBalance;;
  ok ← token_transfer token_call token this sender amount_;
  require ok TransferFailed;;
  emit (TokensWithdrawn token sender amount_).

Definition withdrawTokens_default (sender : address) (amount_ : N) : M () :=
  onlyOwner sender;;
  d ← sload defaultToken;
  require (negb (d =? 0)) InvalidTokenAddress;;
  require (0 <? amount_) AmountZero;;
  contractBalance ← balanceOf d this;
  require (amount_ <=? contractBalance) InsufficientBalance;;
  ok ← token_transfer token_call d this sender amount_;
  require ok TransferFailed;;
  emit (TokensWithdrawn d sender amount_).

Definition emergencyWithdraw (sender token : address) : M () :=
  onlyOwner sender;;
  require (negb (token =? 0)) InvalidTokenAddress;;
  contractBalance ← balanceOf token this;
  if 0 <? contractBalance then
    ok ← token_transfer token_call token this sender contractBalance;
    require ok TransferFailed;;
    emit (EmergencyWithdraw token sender contractBalance)
  else mret ().

Definition emergencyWithdraw_default (sender : address) : M () :=
  onlyOwner sender;;
  d ← sload defaultToken;
  require (negb (d =? 0)) InvalidTokenAddress;;
  contractBalance ← balanceOf d this;
  if 0 <? contractBalance then
    ok ← token_transfer token_call d this sender contractBalance;
    require ok TransferFailed;;
    emit (EmergencyWithdraw d sender contractBalance)
  else mret ().

Definition rescueTokens (sender token to : address) (amount_ : N) : M () :=
  onlyOwner sender;;
  require (negb (token =? 0)) InvalidTokenAddress;;
  require (negb (to =? 0)) InvalidRecipient;;
  require (0 <? amount_) AmountZero;;
  contractBalance ← balanceOf token this;
  require (amount_ <=? contractBalance) InsufficientBalance;;
  ok ← token_transfer token_call token this to amount_;
  require ok TransferFailed;;
  emit (TokensRescued token to amount_).

Definition rescueAllTokens (sender token to : address) : M () :=
  onlyOwner sender;;
  require (negb (token =? 0)) InvalidTokenAddress;;
  require (negb (to =? 0)) InvalidRecipient;;
  contractBalance ← balanceOf token this;
  if 0 <? contractBalance then
    ok ← token_transfer token_call token this to contractBalance;
    require ok TransferFailed;;
    emit (TokensRescued token to contractBalance)
  else mret ().

End Contract.

(** The views.  Those that ask the token for a balance are given for a
    token that answers. *)
Definition hasUserClaimed (w : World) (token user : address) : bool :=
  claimed_by (ledger w) token user.


Definition getAirdropStats (this : address) (w : World) (token : address)
  : N * N * N * N * bool :=
  let config := config_of (ledger w) token in
  (amount config, totalClaimed config, totalRecipients config,
   balance_of w token this, isActive config).




Definition isAirdropActive (w : World) (token : address) : bool :=
  isActive (config_of (ledger w) token).


(** ** Calls, tokens and transactions *)

(** The external functions of the deployed contract: the ones it
    declares and the two it inherits from Ownable. *)
Inductive Call : Type :=
| CallClaimAirdrop
| CallClaimAirdropForToken (token : address)
| CallSetAirdropConfig (token : address) (amount_ : N) (isActive_ : bool)
| CallSetAirdropAmount (_newAmount : N)
| CallDepositTokens (token : address) (amount_ : N)
| CallDepositTokensDefault (amount_ : N)
| CallWithdrawTokens (token : address) (amount_ : N)
| CallWithdrawTokensDefault (amount_ : N)
| CallEmergencyWithdraw (token : address)
| CallEmergencyWithdrawDefault
| CallRescueTokens (token to : address) (amount_ : N)
| CallRescueAllTokens (token to : address)
| CallTransferOwnership (newOwner : address)
| CallRenounceOwnership.

Definition exec (this : address) (token_call : TokenCall)
    (sender : address) (c : Call) : M () :=
  match c with
  | CallClaimAirdrop => claimAirdrop this token_call sender
  | CallClaimAirdropForToken token => claimAirdropForToken this token_call sender token
  | CallSetAirdropConfig token a b => setAirdropConfig sender token a b
  | CallSetAirdropAmount a => setAirdropAmount sender a
  | CallDepositTokens token a => depositTokens this token_call sender token a
  | CallDepositTokensDefault a => depositTokens_default this token_call sender a
  | CallWithdrawTokens token a => withdrawTokens this token_call sender token a
  | CallWithdrawTokensDefault a => withdrawTokens_default this token_call sender a
  | CallEmergencyWithdraw token => emergencyWithdraw this token_call sender token
  | CallEmergencyWithdrawDefault => emergencyWithdraw_default this token_call sender
  | CallRescueTokens token to a => rescueTokens this token_call sender token to a
  | CallRescueAllTokens token to => rescueAllTokens this token_call sender token to
  | CallTransferOwnership newOwner => transferOwnership sender newOwner
  | CallRenounceOwnership => renounceOwnership sender
  end.

(** What a token does while it serves one [transfer] or [transferFrom]:
    answer, revert, spend the allowance, move the amount between the two
    balances, or call back into the airdrop contract (as [sender], the
    nested call's own token calls being served by [inner]) and go on.  A
    callback that reverts is caught by the token, which goes on from the
    state before it.  [Spend (Move (Return true))] is a plain ERC20. *)
Inductive Hook : Type :=
| Return (ok : bool)
| Revert
| Spend (k : Hook)
| Move (k : Hook)
| Reenter (sender : address) (c : Call) (inner : Hook) (k : Hook).

(** The token debits [from] and credits [to]; it reverts when [from]
    holds less than [amt]. *)
Definition move (token from to : address) (amt : N) : M () :=
  λ w,
    if amt <=? balance_of w token from then
      let b1 := <[(token, from) := balance_of w token from - amt]> (balances w) in
      let b2 := <[(token, to) := default 0 (b1 !! (token, to)) + amt]> b1 in
      Ok ((), mkWorld (ledger w) b2 (allowances w) (events w))
    else Err ExternalRevert.

(** In a [transferFrom] the token takes [amt] off what [from] has allowed
    [spender] to move, and reverts when that is less than [amt]; an
    allowance of [MAX_UINT256] is unlimited and stays.  A [transfer]
    spends no allowance. *)
Definition spend (pull : bool) (token from spender : address) (amt : N) : M () :=
  λ w,
    if negb pull then Ok ((), w)
    else
      let allowed := allowance_of w token from spender in
      if allowed =? MAX_UINT256 then Ok ((), w)
      else if amt <=? allowed then
        Ok ((), mkWorld (ledger w) (balances w)
                  (<[(token, from, spender) := allowed - amt]> (allowances w))
                  (events w))
      else Err ExternalRevert.

(** The script [h] serving a [transferFrom] ([pull]) or a [transfer] of
    the contract at [this]; a token that runs a script answers
    [balanceOf]. *)
Fixpoint run_script (this : address) (pull : bool) (h : Hook)
  : address → address → address → N → M bool :=
  λ token from to amt w,
    match h with
    | Return ok => Ok (ok, w)
    | Revert => Err ExternalRevert
    | Spend k =>
        match spend pull token from this amt w with
        | Ok (_, w1) => run_script this pull k token from to amt w1
        | Err e => Err e
        end
    | Move k =>
        match move token from to amt w with
        | Ok (_, w1) => run_script this pull k token from to amt w1
        | Err e => Err e
        end
    | Reenter sender c inner k =>
        let served_by_inner :=
          mkTokenCall (λ _ _ _, None)
                      (run_script this false inner) (run_script this true inner) in
        match exec this served_by_inner sender c w with
        | Ok (_, w1) => run_script this pull k token from to amt w1
        | Err _ => run_script this pull k token from to amt w
        end
    end.

Definition run_hook (this : address) (h : Hook) : TokenCall :=
  mkTokenCall (λ _ _ _, None) (run_script this false h) (run_script this true h).

(** Every call the script of a token makes into the contract. *)
Fixpoint hook_calls (h : Hook) : list Call :=
  match h with
  | Return _ | Revert => []
  | Spend k | Move k => hook_calls k
  | Reenter _ c inner k => c :: hook_calls inner ++ hook_calls k
  end.

(** A transaction: the caller, the call, and the behaviour of the token
    the call reaches.  A transaction that reverts leaves the world as it
    was. *)
Record Tx : Type := mkTx {
  tx_sender : address;
  tx_call : Call;
  tx_hook : Hook
}.

Definition commit (w : World) (r : Result (() * World)) : World :=
  match r with
  | Ok (_, w') => w'
  | Err _ => w
  end.

Definition apply_tx (this : address) (w : World) (tx : Tx) : World :=
  commit w (exec this (run_hook this (tx_hook tx)) (tx_sender tx) (tx_call tx) w).

(** Between the transactions of the contract the tokens live their own
    life: holders move balances, and approve and revoke allowances,
    without the contract taking part. *)
Inductive Step : Type :=
| Transact (tx : Tx)
| TokenActivity (bals : gmap (address * address) N)
| Approvals (allow : gmap (address * address * address) N).

Definition apply_step (this : address) (w : World) (st : Step) : World :=
  match st with
  | Transact tx => apply_tx this w tx
  | TokenActivity bals => mkWorld (ledger w) bals (allowances w) (events w)
  | Approvals allow => mkWorld (ledger w) (balances w) allow (events w)
  end.

Definition run (this : address) (steps : list Step) (w : World) : World :=
  foldl (apply_step this) w steps.

(** Deployment by [deployer] on a chain whose tokens hold [bals]; nobody
    has approved the new contract yet. *)
Definition deploy (deployer _defaultToken : address)
    (bals : gmap (address * address) N) : Result (() * World) :=
  constructor deployer _defaultToken
    (mkWorld (mkStorage 0 0 ∅ ∅ false) bals ∅ []).

(** The states of a deployed contract between transactions. *)
Inductive reachable (this : address) : World → Prop :=
| reachable_deploy deployer _defaultToken bals w :
    deploy deployer _defaultToken bals = Ok ((), w) →
    reachable this w
| reachable_step w st :
    reachable this w →
    reachable this (apply_step this w st).

Definition tx_succeeds (this : address) (w : World) (tx : Tx) : bool :=
  match exec this (run_hook this (tx_hook tx)) (tx_sender tx) (tx_call tx) w with
  | Ok _ => true
  | Err _ => false
  end.

(** How many addresses have claimed [token]. *)
Definition claimants (s : Storage) (token : address) : gmap (address * address) bool :=
  filter (λ kv, kv.1.1 = token ∧ kv.2 = true) (hasClaimed s).

Definition claimed_count (s : Storage) (token : address) : N :=
  N.of_nat (size (claimants s token)).

(** ** Notions used to state the properties *)

(** The world once [nonReentrant] has raised the guard: a claim asks the
    token for the custody in this world. *)
Definition guarded (w : World) : World := on_ledger (set_entered true) w.

(** The storage at the moment [claimAirdropForToken] calls the token:
    guard raised, claim recorded, both totals advanced. *)
Definition claim_mid (sender token : address) (w : World) : World :=
  let c := config_of (ledger w) token in
  let c' := mkConfig (amount c) (isActive c)
                     (totalClaimed c + amount c) (totalRecipients c + 1) in
  mkWorld (set_config token c' (set_claimed token sender (set_entered true (ledger w))))
          (balances w) (allowances w) (events w).

(** What is left to do once the token has answered [true] in [w2]. *)
Definition claim_done (sender token : address) (w2 : World) : World :=
  on_ledger (set_entered false)
    (log (AirdropClaimed token sender (amount (config_of (ledger w2) token))) w2).


(** A configuration with amount and flag replaced, totals kept. *)
Definition new_config (a : N) (b : bool) (c : AirdropConfig) : AirdropConfig :=
  mkConfig a b (totalClaimed c) (totalRecipients c).

(** Whenever the token answers a [transfer] or a [transferFrom], the
    worlds before and after are in [R]. *)
Definition preserved_by (R : relation World) (T : TokenCall) : Prop :=
  ∀ pull token from to amt w b w',
    token_op T pull token from to amt w = Ok (b, w') → R w w'.

(** [totalRecipients] agrees with the claimed flags, for every token. *)
Definition recipients_counted (w : World) : Prop :=
  ∀ token, totalRecipients (config_of (ledger w) token) = claimed_count (ledger w) token.

(** What holds between the world before and after any successful call. *)
Record evolves (w w' : World) : Prop := mkEvolves {
  ev_entered : entered (ledger w') = entered (ledger w);
  ev_default : defaultToken (ledger w') = defaultToken (ledger w);
  ev_claimed : ∀ token user,
    claimed_by (ledger w) token user = true →
    claimed_by (ledger w') token user = true;
  ev_counted : recipients_counted w → recipients_counted w'
}.

(** The world right after deployment. *)
Definition initial_config : AirdropConfig :=
  mkConfig (1000000000000 * 10 ^ 18) true 0 0.

Definition initial_world (deployer _defaultToken : address)
    (bals : gmap (address * address) N) : World :=
  mkWorld (mkStorage deployer _defaultToken (<[_defaultToken := initial_config]> ∅) ∅ false)
          bals ∅ [OwnershipTransferred 0 deployer].


(** While the guard is raised it stays raised and [totalClaimed] of
    [token] stays put. *)
Definition guarded_frame (token : address) (w w' : World) : Prop :=
  entered (ledger w) = true →
  entered (ledger w') = true ∧
  totalClaimed (config_of (ledger w') token) = totalClaimed (config_of (ledger w) token).

(** The deposit, withdraw and rescue functions. *)
Definition is_funds_call (c : Call) : bool :=
  match c with
  | CallDepositTokens _ _ | CallDepositTokensDefault _
  | CallWithdrawTokens _ _ | CallWithdrawTokensDefault _
  | CallEmergencyWithdraw _ | CallEmergencyWithdrawDefault
  | CallRescueTokens _ _ _ | CallRescueAllTokens _ _ => true
  | _ => false
  end.

(** The token call one of those functions makes in [w] once its
    requirements are met: token, account debited, account credited,
    amount.  The deposits call [transferFrom], the others [transfer]. *)
Definition funds_pull (c : Call) : bool :=
  match c with
  | CallDepositTokens _ _ | CallDepositTokensDefault _ => true
  | _ => false
  end.

Definition funds_transfer (this sender : address) (c : Call) (w : World)
  : option (address * address * address * N) :=
  let d := defaultToken (ledger w) in
  match c with
  | CallDepositTokens token a => Some (token, sender, this, a)
  | CallDepositTokensDefault a => Some (d, sender, this, a)
  | CallWithdrawTokens token a => Some (token, this, sender, a)
  | CallWithdrawTokensDefault a => Some (d, this, sender, a)
  | CallEmergencyWithdraw token =>
      if 0 <? balance_of w token this
      then Some (token, this, sender, balance_of w token this) else None
  | CallEmergencyWithdrawDefault =>
      if 0 <? balance_of w d this
      then Some (d, this, sender, balance_of w d this) else None
  | CallRescueTokens token to a => Some (token, this, to, a)
  | CallRescueAllTokens token to =>
      if 0 <? balance_of w token this
      then Some (token, this, to, balance_of w token this) else None
  | _ => None
  end.

(** A deployed instance to compute with: the contract lives at address
    100, was deployed by 7 with default token 9, and holds 2.5 of the
    initial allotments of it.  [plain_erc20] is a token that, in a
    [transferFrom], spends the allowance, and then moves the amount and
    answers [true]. *)
Definition ex_this : address := 100.
Definition ex_owner : address := 7.
Definition ex_token : address := 9.

Definition ex_world : World :=
  initial_world ex_owner ex_token (<[(ex_token, ex_this) := 25 * 10 ^ 29]> ∅).

Definition plain_erc20 : Hook := Spend (Move (Return true)).

(** The instance after address 1 has claimed the default token, and
    after the owner has handed the contract over to address 8. *)
Definition ex_claimed : World :=
  apply_tx ex_this ex_world (mkTx 1 (CallClaimAirdropForToken ex_token) plain_erc20).


(** The scenario of the specification: amount 100, custody 250; A
    claims, A claims again, B claims, C finds the custody too low. *)
Definition scenario_world : World :=
  apply_tx ex_this
    (initial_world ex_owner ex_token (<[(ex_token, ex_this) := 250]> ∅))
    (mkTx ex_owner (CallSetAirdropConfig ex_token 100 true) plain_erc20).

(** Every call into the contract a step makes: the transaction's own
    and those of the token's callbacks. *)
Definition step_calls (st : Step) : list Call :=
  match st with
  | Transact tx => tx_call tx :: hook_calls (tx_hook tx)
  | TokenActivity _ | Approvals _ => []
  end.


(** The state in which a claim gets as far as calling the token, once
    the token has answered the balance query. *)
Definition claim_ready (this sender token : address) (w : World) : Prop :=
  let c := config_of (ledger w) token in
  entered (ledger w) = false ∧ token ≠ 0 ∧
  claimed_by (ledger w) token sender = false ∧
  isActive c = true ∧ 0 < amount c ∧ amount c <= balance_of w token this ∧
  totalClaimed c + amount c <= MAX_UINT256 ∧
  totalRecipients c + 1 <= MAX_UINT256.


(** A token that, while serving a transfer, lets [claimant] claim
    [token'] and passes a revert of that claim on to its own caller. *)
Definition claiming_token (this claimant token' : address) : TokenCall :=
  let serve (pull : bool) : address → address → address → N → M bool :=
    λ token from to amt w,
      match claimAirdropForToken this (run_hook this Revert) claimant token' w with
      | Err e => Err e
      | Ok (_, w1) => token_op (run_hook this plain_erc20) pull token from to amt w1
      end in
  mkTokenCall (λ _ _ _, None) (serve false) (serve true).

(** An address with no contract behind it: every call into it reverts. *)
Definition no_contract : TokenCall :=
  mkTokenCall (λ _ _ _, Some ExternalRevert)
              (λ _ _ _ _ _, Err ExternalRevert) (λ _ _ _ _ _, Err ExternalRevert).

(** The four requirements of a claim before the balance query, and the
    guard before them. *)
Definition claim_checks_pass (sender token : address) (w : World) : Prop :=
  let c := config_of (ledger w) token in
  entered (ledger w) = false ∧ token ≠ 0 ∧
  claimed_by (ledger w) token sender = false ∧
  isActive c = true ∧ 0 < amount c.

(** The states in which the contract can be called once it is in [w]:
    [w] itself and, from there on, the state after the tokens have
    changed balances or allowances, the state after any call that went
    through (made by a transaction or by a token from inside a call),
    the state in which a claim that has passed its first four
    requirements asks the token for the custody, and the state in which
    a claim that has passed them all calls the token's transfer.  The
    other functions that call the token do so in the state they were
    called in. *)
Inductive later (this : address) : World → World → Prop :=
| later_now w : later this w w
| later_tokens w bals allow w'' :
    later this (mkWorld (ledger w) bals allow (events w)) w'' →
    later this w w''
| later_call w sender c h w1 w'' :
    exec this (run_hook this h) sender c w = Ok ((), w1) →
    later this w1 w'' →
    later this w w''
| later_asking w sender token w'' :
    claim_checks_pass sender token w →
    later this (guarded w) w'' →
    later this w w''
| later_serving w sender token w'' :
    claim_ready this sender token w →
    later this (claim_mid sender token w) w'' →
    later this w w''.

(** The worlds in which the script of a token, serving a call made in
    [w], calls back into the contract. *)
Fixpoint callback_worlds (this : address) (pull : bool) (h : Hook)
  : address → address → address → N → World → list World :=
  λ token from to amt w,
    match h with
    | Return _ | Revert => []
    | Spend k =>
        match spend pull token from this amt w with
        | Ok (_, w1) => callback_worlds this pull k token from to amt w1
        | Err _ => []
        end
    | Move k =>
        match move token from to amt w with
        | Ok (_, w1) => callback_worlds this pull k token from to amt w1
        | Err _ => []
        end
    | Reenter sender c inner k =>
        w :: match exec this (run_hook this inner) sender c w with
             | Ok (_, w1) => callback_worlds this pull k token from to amt w1
             | Err _ => callback_worlds this pull k token from to amt w
             end
    end.

(** [T] with a balance query that always answers. *)
Definition answering (T : TokenCall) : TokenCall :=
  mkTokenCall (λ _ _ _, None) (token_transfer T) (token_transferFrom T).

(** The claim fails with [e] because the token does: the balance query
    reverts with [e], or the transfer does once everything else has
    passed. *)
Definition token_fails_claim (this : address) (T : TokenCall)
    (sender token : address) (w : World) (e : Error) : Prop :=
  let c := config_of (ledger w) token in
  claim_checks_pass sender token w ∧
  (balanceOf_reverts T token this (guarded w) = Some e ∨
   (balanceOf_reverts T token this (guarded w) = None ∧
    amount c <= balance_of w token this ∧
    totalClaimed c + amount c <= MAX_UINT256 ∧
    totalRecipients c + 1 <= MAX_UINT256 ∧
    T token this sender (amount c) (claim_mid sender token w) = Err e)).

(** The deployed instance with a second airdrop, of 100 of token 5, an
    address with nothing behind it. *)
Definition ex_second_airdrop : World :=
  apply_tx ex_this ex_world (mkTx ex_owner (CallSetAirdropConfig 5 100 true) plain_erc20).

(** The deployed instance after the owner has withdrawn everything. *)
Definition ex_drained : World :=
  apply_tx ex_this ex_world (mkTx ex_owner (CallEmergencyWithdraw ex_token) plain_erc20).

(** What [claimAirdropForToken] answers when called by a transaction. *)
Definition claim_result (this : address) (h : Hook) (sender token : address)
    (w : World) : Result (() * World) :=
  claimAirdropForToken this (run_hook this h) sender token w.

(** The sum of a list of amounts. *)
Definition sum_N (l : list N) : N := foldr N.add 0 l.

(** The amounts a successful call made in [w] pays out of [token]: a
    claim of [token] pays the amount configured in [w] (nothing can be
    claimed from inside it, the guard being raised); a funds function
    pays what the token it calls lets callers claim meanwhile, listed by
    [nested]; any other call pays nothing. *)
Definition call_amounts (this token : address)
    (nested : bool → address → address → address → N → World → list N)
    (sender : address) (c : Call) (w : World) : list N :=
  match c with
  | CallClaimAirdropForToken t =>
      if t =? token then [amount (config_of (ledger w) token)] else []
  | _ =>
      match funds_transfer this sender c w with
      | Some (tk, fr, rc, am) => nested (funds_pull c) tk fr rc am w
      | None => []
      end
  end.

(** The amounts claimed by the callbacks of a token's script, followed
    as [run_script] runs it. *)
Fixpoint hook_amounts (this token : address) (h : Hook)
  : bool → address → address → address → N → World → list N :=
  λ pull tk fr rc am w,
    match h with
    | Return _ | Revert => []
    | Spend k =>
        match spend pull tk fr this am w with
        | Ok (_, w1) => hook_amounts this token k pull tk fr rc am w1
        | Err _ => []
        end
    | Move k =>
        match move tk fr rc am w with
        | Ok (_, w1) => hook_amounts this token k pull tk fr rc am w1
        | Err _ => []
        end
    | Reenter sender c inner k =>
        match exec this (run_hook this inner) sender c w with
        | Ok (_, w1) =>
            call_amounts this token (hook_amounts this token inner) sender c w
            ++ hook_amounts this token k pull tk fr rc am w1
        | Err _ => hook_amounts this token k pull tk fr rc am w
        end
    end.

(** The amounts claimed within a transaction: none when it reverts. *)
Definition tx_amounts (this token : address) (w : World) (tx : Tx) : list N :=
  if tx_succeeds this w tx
  then call_amounts this token (hook_amounts this token (tx_hook tx))
         (tx_sender tx) (tx_call tx) w
  else [].

(** Token activity outside the contract claims nothing. *)
Definition step_amounts (this token : address) (w : World) (st : Step) : list N :=
  match st with
  | Transact tx => tx_amounts this token w tx
  | TokenActivity _ | Approvals _ => []
  end.

(** The amounts configured for [token] at the moment of each successful
    claim of [token] in a sequence of steps, oldest first. *)
Fixpoint claimed_amounts (this token : address) (steps : list Step) (w : World)
  : list N :=
  match steps with
  | [] => []
  | st :: rest =>
      step_amounts this token w st
      ++ claimed_amounts this token rest (apply_step this w st)
  end.

(** Two claims with a change of amount in between, a third that a token
    lets address 3 make while it serves a withdrawal, and a fourth that
    fails after the custody has been moved away. *)
Definition ex_steps : list Step :=
  [Transact (mkTx 1 (CallClaimAirdropForToken ex_token) plain_erc20);
   Transact (mkTx ex_owner (CallSetAirdropConfig ex_token 100 true) plain_erc20);
   Transact (mkTx 2 (CallClaimAirdropForToken ex_token) plain_erc20);
   Transact (mkTx ex_owner (CallWithdrawTokens ex_token 1)
               (Reenter 3 (CallClaimAirdropForToken ex_token) plain_erc20 plain_erc20));
   TokenActivity (<[(ex_token, ex_this) := 50]> ∅);
   Transact (mkTx 4 (CallClaimAirdropForToken ex_token) plain_erc20)].

(** ** Further notions: the administration and the funds functions *)

(** Every state-changing external function but the two claims carries
    [onlyOwner]. *)
Definition is_admin_call (c : Call) : bool :=
  match c with
  | CallClaimAirdrop | CallClaimAirdropForToken _ => false
  | _ => true
  end.

(** The world after a token has moved [amt] from [from] to [to]. *)
Definition moved (token from to : address) (amt : N) (w : World) : World :=
  let b1 := <[(token, from) := balance_of w token from - amt]> (balances w) in
  let b2 := <[(token, to) := default 0 (b1 !! (token, to)) + amt]> b1 in
  mkWorld (ledger w) b2 (allowances w) (events w).

(** The world after a token has taken [amt] off what [from] allows
    [spender]. *)
Definition spent (token from spender : address) (amt : N) (w : World) : World :=
  mkWorld (ledger w) (balances w)
          (<[(token, from, spender) := allowance_of w token from spender - amt]>
             (allowances w))
          (events w).

(** The deployed instance after the owner has withdrawn 5 of the default
    token, so that the owner holds something to deposit. *)
Definition ex_handed_back : World :=
  apply_tx ex_this ex_world (mkTx ex_owner (CallWithdrawTokens ex_token 5) plain_erc20).

(** The same after the owner has allowed the contract to pull 4 of it. *)
Definition ex_approved : World :=
  apply_step ex_this ex_handed_back
    (Approvals (<[(ex_token, ex_owner, ex_this) := 4]> ∅)).

(** The [AirdropClaimed] events of [token] in a log. *)
Definition is_claim_event (token : address) (e : Event) : bool :=
  match e with
  | AirdropClaimed t _ _ => t =? token
  | _ => false
  end.

Definition claim_events (token : address) (w : World) : N :=
  N.of_nat (length (filter (λ e, is_claim_event token e = true) (events w))).

(** [c] may write the amount or the active flag of [token] when the
    default token is [d]. *)
Definition may_configure (d token : address) (c : Call) : bool :=
  match c with
  | CallSetAirdropConfig t _ _ => t =? token
  | CallSetAirdropAmount _ => d =? token
  | _ => false
  end.

(** Nobody configures [token] in [st]. *)
Definition no_configuring (d token : address) (st : Step) : Prop :=
  Forall (λ c, may_configure d token c = false) (step_calls st).

(** Relations between the world before and after a call: storage and log
    are the same; the log has only grown; no total has shrunk; the
    counter of recipients and the claim events of [token] have advanced
    together; with default token [d], the default token, the amount and
    the flag of [token] are the same. *)
Definition same_storage (w w' : World) : Prop :=
  ledger w' = ledger w ∧ events w' = events w.

Definition log_grows (w w' : World) : Prop :=
  events w `prefix_of` events w'.

Definition totals_grow (w w' : World) : Prop :=
  ∀ token,
    totalClaimed (config_of (ledger w) token) <= totalClaimed (config_of (ledger w') token) ∧
    totalRecipients (config_of (ledger w) token)
      <= totalRecipients (config_of (ledger w') token).

Definition counted_in_log (token : address) (w w' : World) : Prop :=
  totalRecipients (config_of (ledger w') token) + claim_events token w =
  totalRecipients (config_of (ledger w) token) + claim_events token w'.

Definition same_terms (d token : address) (w w' : World) : Prop :=
  defaultToken (ledger w) = d →
  defaultToken (ledger w') = d ∧
  amount (config_of (ledger w') token) = amount (config_of (ledger w) token) ∧
  isActive (config_of (ledger w') token) = isActive (config_of (ledger w) token).

(** The event a funds function logs once its token call has succeeded. *)
Definition funds_event (this sender : address) (c : Call) (w : World) : option Event :=
  let d := defaultToken (ledger w) in
  match c with
  | CallDepositTokens token a => Some (TokensDeposited token sender a)
  | CallDepositTokensDefault a => Some (TokensDeposited d sender a)
  | CallWithdrawTokens token a => Some (TokensWithdrawn token sender a)
  | CallWithdrawTokensDefault a => Some (TokensWithdrawn d sender a)
  | CallEmergencyWithdraw token =>
      Some (EmergencyWithdraw token sender (balance_of w token this))
  | CallEmergencyWithdrawDefault =>
      Some (EmergencyWithdraw d sender (balance_of w d this))
  | CallRescueTokens token to a => Some (TokensRescued token to a)
  | CallRescueAllTokens token to =>
      Some (TokensRescued token to (balance_of w token this))
  | _ => None
  end.

(** The owner reconfigures [token] from inside the token's transfer,
    before the token moves the amount. *)
Definition reconfiguring_token (owner_ token : address) (a : N) : Hook :=
  Reenter owner_ (CallSetAirdropConfig token a true) (Return true) plain_erc20.

(** ** The user interface (AirdropUI.tsx)

    The component reads the contract through three queries, each
    [None] until it has answered, and decides from them what to show and
    whether to send a claim.  Strings are lists of UTF-16 code units. *)

Module UI.

(** [airdropStats], the answer of [getAirdropStats(LUV_TOKEN_ADDRESS)]. *)
Definition Stats : Type := (N * N * N * N * bool)%type.

Record RealAirdropStats : Type := mkRealAirdropStats {
  airdropAmount : N;
  totalClaimed : N;
  totalRecipients : N;
  contractBalance : N;
  isActive : bool
}.

(** [airdropBalance?.value || BigInt(0)] *)
Definition balance_or_zero (airdropBalance : option N) : N :=
  default 0 airdropBalance.

Definition realAirdropStats (airdropStats : option Stats) (airdropBalance : option N)
  : RealAirdropStats :=
  match airdropStats with
  | Some (a, c, r, b, act) => mkRealAirdropStats a c r b act
  | None => mkRealAirdropStats 0 0 0 (balance_or_zero airdropBalance) false
  end.

(** The two reasons [getAirdropStatus] gives. *)
Inductive Reason : Type :=
| NoTokensRemaining     (* "Airdrop has ended - No tokens remaining" *)
| InsufficientTokens.   (* "Airdrop has ended - Insufficient tokens" *)

Record AirdropStatus : Type := mkAirdropStatus {
  status_isActive : bool;
  hasEnded : bool;
  reason : option Reason;
  remainingTokens : N
}.

Definition getAirdropStatus (airdropStats : option Stats) (airdropBalance : option N)
  : AirdropStatus :=
  let contractBalance := balance_or_zero airdropBalance in
  let airdropAmount := airdropAmount (realAirdropStats airdropStats airdropBalance) in
  if contractBalance <? airdropAmount then
    mkAirdropStatus false true
      (Some (if contractBalance =? 0 then NoTokensRemaining else InsufficientTokens))
      contractBalance
  else
    mkAirdropStatus (isActive (realAirdropStats airdropStats airdropBalance)) false
      None contractBalance.

(** What [handleClaim] does: show a message, or send
    [claimAirdropForToken(LUV_TOKEN_ADDRESS)]. *)
Inductive ClaimAction : Type :=
| PleaseConnect          (* "Please connect your wallet first" *)
| AlreadyClaimedMessage  (* "You have already claimed your airdrop" *)
| EndedMessage (r : option Reason)  (* the reason, or "Airdrop has ended" *)
| PausedMessage          (* "Airdrop is currently paused" *)
| SendClaim.

Definition handleClaim (isConnected : bool) (userClaimed : option bool)
    (airdropStatus : AirdropStatus) : ClaimAction :=
  let userHasClaimed := default false userClaimed in
  if negb isConnected then PleaseConnect
  else if userHasClaimed then AlreadyClaimedMessage
  else if hasEnded airdropStatus then EndedMessage (reason airdropStatus)
  else if negb (status_isActive airdropStatus) then PausedMessage
  else SendClaim.

(** [setTransactionLogs(prev => [newLog, ...prev.slice(0, 9)])] *)
Definition addTransactionLog {A : Type} (newLog : A) (prev : list A) : list A :=
  newLog :: take 9 prev.

(** The decimal digits of [n], least significant first; [fuel] bounds
    their number. *)
Fixpoint digits_of (fuel : nat) (n : N) : list N :=
  match fuel with
  | O => []
  | S fuel' =>
      if n <? 10 then [n] else n mod 10 :: digits_of fuel' (n / 10)
  end.

(** [num.toString()] of a non-negative bigint: its decimal digits, most
    significant first, as the characters '0' (48) to '9'. *)
Definition toString (n : N) : list N :=
  (λ d, 48 + d) <$> reverse (digits_of (S (N.to_nat (N.log2 n))) n).

(** [s.slice(0, -k)] *)
Definition slice_off_end {A : Type} (k : nat) (s : list A) : list A :=
  take (length s - k) s.

Definition formatLargeNumber (num : option N) : list N :=
  match num with
  | None => [48]
  | Some n =>
      if n =? 0 then [48]
      else
        let numStr := toString n in
        let decimals := 18%nat in
        if (length numStr <=? decimals)%nat then [48]
        else
          let integerPart := slice_off_end decimals numStr in
          let len := length integerPart in
          if (15 <? len)%nat then slice_off_end 15 integerPart ++ [81]       (* Q *)
          else if (12 <? len)%nat then slice_off_end 12 integerPart ++ [84]  (* T *)
          else if (9 <? len)%nat then slice_off_end 9 integerPart ++ [66]    (* B *)
          else if (6 <? len)%nat then slice_off_end 6 integerPart ++ [77]    (* M *)
          else if (3 <? len)%nat then slice_off_end 3 integerPart ++ [75]    (* K *)
          else integerPart
  end.

(** What the interface knows when each query has just answered for
    [token] and [user] in the world [w]. *)
Definition fresh_stats (this : address) (w : World) (token : address) : option Stats :=
  Some (getAirdropStats this w token).

Definition fresh_status (this : address) (w : World) (token : address) : AirdropStatus :=
  getAirdropStatus (fresh_stats this w token) (Some (balance_of w token this)).

End UI.

(** ** The funding script: reading [.env]

    [loadEnv] of the funding script.  Strings are lists of UTF-16 code
    units, as for the interface; the object [env] is the finite map of
    its own properties. *)

Module Env.

Definition str := list N.

(** White space and line terminators, the characters [trim] strips. *)
Definition is_white_space (c : N) : bool :=
  (c =? 9) || (c =? 10) || (c =? 11) || (c =? 12) || (c =? 13) || (c =? 32)
  || (c =? 160) || (c =? 5760) || ((8192 <=? c) && (c <=? 8202))
  || (c =? 8232) || (c =? 8233) || (c =? 8239) || (c =? 8287)
  || (c =? 12288) || (c =? 65279).

Fixpoint trimStart (s : str) : str :=
  match s with
  | c :: s' => if is_white_space c then trimStart s' else s
  | [] => []
  end.

(** [s.trim()] *)
Definition trim (s : str) : str :=
  reverse (trimStart (reverse (trimStart s))).

(** [s.split(sep)] for a separator of one character: the pieces between
    the separators, of which there is always at least one. *)
Fixpoint split (sep : N) (s : str) : list str :=
  match s with
  | [] => [[]]
  | c :: s' =>
      if c =? sep then [] :: split sep s'
      else match split sep s' with
           | p :: ps => (c :: p) :: ps
           | [] => [[c]]
           end
  end.

(** [lines.join(sep)], the way back from [split]. *)
Fixpoint join (sep : N) (ls : list str) : str :=
  match ls with
  | [] => []
  | l :: ls' =>
      match ls' with
      | [] => l
      | _ :: _ => l ++ sep :: join sep ls'
      end
  end.

Definition newline : N := 10.
Definition equals_sign : N := 61.

(** The property name ["__proto__"]: on an object literal, assigning a
    string to it reaches the setter of [Object.prototype], which ignores
    everything but objects and [null], so no property is stored. *)
Definition proto : str := [95; 95; 112; 114; 111; 116; 111; 95; 95].

(** [env[key] = value] *)
Definition assign (env : gmap str str) (key value : str) : gmap str str :=
  if decide (key = proto) then env else <[key := value]> env.

(** The body of the [forEach]: [const [key, value] = line.split('=')]
    takes the first two pieces, [value] being [undefined] when there is
    one piece only; the empty string and [undefined] are falsy. *)
Definition loadEnv_line (env : gmap str str) (line : str) : gmap str str :=
  match split equals_sign line with
  | key :: value :: _ =>
      if bool_decide (key ≠ []) && bool_decide (value ≠ [])
      then assign env (trim key) (trim value)
      else env
  | _ => env
  end.

(** [loadEnv]: [file] is the content of [.env], [None] when reading it
    throws, in which case [process.env] is returned. *)
Definition loadEnv (file : option str) (process_env : gmap str str) : gmap str str :=
  match file with
  | Some envContent => foldl loadEnv_line ∅ (split newline envContent)
  | None => process_env
  end.

(** The first piece of a line, the one [loadEnv_line] takes for the key. *)
Definition key_field (line : str) : str :=
  default [] (head (split equals_sign line)).

(** A string that neither starts nor ends with white space. *)
Definition trimmed (s : str) : Prop :=
  ∀ c, head s = Some c ∨ last s = Some c → is_white_space c = false.

(** What a key or a value of the loaded environment looks like. *)
Definition stored_field (s : str) : Prop :=
  (equals_sign ∉ s) ∧ (newline ∉ s) ∧ trimmed s.

(** A line [key=value=more=...] and a file of lines. *)
Definition line_of (key value : str) (more : list str) : str :=
  join equals_sign (key :: value :: more).

Definition file_of (lines : list str) : str := join newline lines.

End Env.

(** * Properties *)

(** ** Reading the mappings after a write *)

Lemma config_of_set_config s token token' c :
  config_of (set_config token c s) token' =
    if decide (token = token') then c else config_of s token'.
Proof.
  unfold config_of, set_config; simpl.
  rewrite lookup_insert. by case_decide.
Qed.

Lemma config_of_set_config_eq s token c :
  config_of (set_config token c s) token = c.
Proof. rewrite config_of_set_config. by case_decide. Qed.

Lemma config_of_set_entered b s token :
  config_of (set_entered b s) token = config_of s token.
Proof. reflexivity. Qed.

Lemma config_of_set_claimed t u s token :
  config_of (set_claimed t u s) token = config_of s token.
Proof. reflexivity. Qed.

Lemma config_of_set_owner o s token :
  config_of (set_owner o s) token = config_of s token.
Proof. reflexivity. Qed.

Lemma claimed_by_set_entered b s token user :
  claimed_by (set_entered b s) token user = claimed_by s token user.
Proof. reflexivity. Qed.

Lemma ledger_on_ledger f w : ledger (on_ledger f w) = f (ledger w).
Proof. reflexivity. Qed.

Lemma ledger_log e w : ledger (log e w) = ledger w.
Proof. reflexivity. Qed.

Lemma balance_of_on_ledger f w token holder :
  balance_of (on_ledger f w) token holder = balance_of w token holder.
Proof. reflexivity. Qed.

Lemma balance_of_log e w token holder :
  balance_of (log e w) token holder = balance_of w token holder.
Proof. reflexivity. Qed.

(** ** The claim, step by step *)

Ltac bool_to_prop :=
  repeat match goal with
  | H : negb _ = false |- _ => apply negb_false_iff in H
  | H : negb _ = true |- _ => apply negb_true_iff in H
  | H : (_ =? _) = true |- _ => apply N.eqb_eq in H
  | H : (_ =? _) = false |- _ => apply N.eqb_neq in H
  | H : (_ <=? _) = true |- _ => apply N.leb_le in H
  | H : (_ <=? _) = false |- _ => apply N.leb_gt in H
  | H : (_ <? _) = true |- _ => apply N.ltb_lt in H
  | H : (_ <? _) = false |- _ => apply N.ltb_ge in H
  end.

Ltac unfold_monad :=
  unfold nonReentrant, onlyOwner, update_config, mbind, M_bind, mret, M_ret,
    require, sload, sstore, emit, checked_add, balanceOf in *.

Lemma set_config_twice token c1 c2 s :
  set_config token c2 (set_config token c1 s) = set_config token c2 s.
Proof. unfold set_config; cbn. by rewrite insert_insert_eq. Qed.

Ltac norm_storage :=
  repeat progress
    (cbn [negb ledger balances allowances events amount isActive totalClaimed totalRecipients
          with_amount with_isActive with_totalClaimed with_totalRecipients];
     rewrite ?config_of_set_config_eq, ?config_of_set_claimed,
       ?config_of_set_entered, ?claimed_by_set_entered, ?set_config_twice,
       ?ledger_on_ledger, ?ledger_log, ?balance_of_on_ledger, ?balance_of_log).

Lemma config_of_claim_mid sender token w token' :
  config_of (ledger (claim_mid sender token w)) token' =
    if decide (token = token') then
      let c := config_of (ledger w) token in
      mkConfig (amount c) (isActive c) (totalClaimed c + amount c) (totalRecipients c + 1)
    else config_of (ledger w) token'.
Proof.
  unfold claim_mid; cbn [ledger]. cbv zeta. rewrite config_of_set_config.
  by case_decide.
Qed.

Lemma claimed_by_claim_mid sender token w token' user' :
  claimed_by (ledger (claim_mid sender token w)) token' user' =
    if decide ((token, sender) = (token', user')) then true
    else claimed_by (ledger w) token' user'.
Proof.
  unfold claim_mid, claimed_by, set_config, set_claimed; cbn [ledger hasClaimed].
  rewrite lookup_insert. by case_decide.
Qed.

Lemma hasClaimed_claim_mid sender token w :
  hasClaimed (ledger (claim_mid sender token w)) =
    <[(token, sender) := true]> (hasClaimed (ledger w)).
Proof. reflexivity. Qed.

Lemma claim_mid_frame sender token w :
  owner (ledger (claim_mid sender token w)) = owner (ledger w) ∧
  defaultToken (ledger (claim_mid sender token w)) = defaultToken (ledger w) ∧
  entered (ledger (claim_mid sender token w)) = true ∧
  balances (claim_mid sender token w) = balances w ∧
  events (claim_mid sender token w) = events w.
Proof. done. Qed.

(** [claimAirdropForToken] as a decision list: the guard, the five
    requirements in source order with the balance query before the
    fifth, the two checked additions, and then the token's answer on
    [claim_mid]. *)
Lemma claimAirdropForToken_unfold this T sender token w :
  claimAirdropForToken this T sender token w =
    let c := config_of (ledger w) token in
    if entered (ledger w) then Err ReentrantCall
    else if token =? 0 then Err InvalidTokenAddress
    else if claimed_by (ledger w) token sender then Err AlreadyClaimed
    else if negb (isActive c) then Err NotActive
    else if negb (0 <? amount c) then Err AmountUnset
    else match balanceOf_reverts T token this (guarded w) with
    | Some e => Err e
    | None =>
    if negb (amount c <=? balance_of w token this) then Err InsufficientFunds
    else if negb (totalClaimed c + amount c <=? MAX_UINT256) then Err Overflow
    else if negb (totalRecipients c + 1 <=? MAX_UINT256) then Err Overflow
    else match T token this sender (amount c) (claim_mid sender token w) with
         | Ok (true, w2) => Ok ((), claim_done sender token w2)
         | Ok (false, _) => Err TransferFailed
         | Err e => Err e
         end
    end.
Proof.
  unfold claimAirdropForToken. unfold_monad. cbv zeta. norm_storage.
  destruct (entered (ledger w)) eqn:He; [done|]. norm_storage.
  destruct (token =? 0) eqn:Ht; [done|]. norm_storage.
  destruct (claimed_by (ledger w) token sender) eqn:Hc; [done|]. norm_storage.
  destruct (isActive (config_of (ledger w) token)) eqn:Ha; [|done]. norm_storage.
  destruct (0 <? amount (config_of (ledger w) token)) eqn:Hp; [|done]. norm_storage.
  change (on_ledger (set_entered true) w) with (guarded w).
  destruct (balanceOf_reverts T token this (guarded w)) as [e|] eqn:Hq; [done|].
  unfold guarded. norm_storage.
  destruct (amount (config_of (ledger w) token) <=? balance_of w token this) eqn:Hb;
    [|done]. norm_storage.
  destruct (totalClaimed (config_of (ledger w) token)
            + amount (config_of (ledger w) token) <=? MAX_UINT256) eqn:Ho1;
    [|done]. norm_storage.
  destruct (totalRecipients (config_of (ledger w) token) + 1 <=? MAX_UINT256) eqn:Ho2;
    [|done]. norm_storage.
  match goal with
  | |- context [token_transfer T token this sender _ (on_ledger ?f ?x)] =>
      replace (on_ledger f x) with (claim_mid sender token w)
        by (unfold claim_mid, on_ledger; cbn [ledger balances allowances events];
            by rewrite config_of_set_config_eq, set_config_twice)
  end.
  destruct (T token this sender (amount (config_of (ledger w) token))
              (claim_mid sender token w)) as [[[] w2]|e]; done.
Qed.

(** [claimAirdrop] raises the guard and then enters
    [claimAirdropForToken], whose own guard finds it raised. *)
Lemma claimAirdrop_reverts this T sender w :
  claimAirdrop this T sender w = Err ReentrantCall.
Proof.
  unfold claimAirdrop. unfold_monad. norm_storage.
  destruct (entered (ledger w)); [done|]. norm_storage.
  by rewrite claimAirdropForToken_unfold.
Qed.

(** ** What a successful call has done *)

Ltac split_ifs H :=
  repeat match type of H with
  | context [if ?b then _ else _] => destruct b eqn:?; try discriminate
  | context [match balanceOf_reverts ?T ?a ?b ?w with _ => _ end] =>
      destruct (balanceOf_reverts T a b w) eqn:?; try discriminate
  | context [match token_transfer ?T ?a ?b ?c ?d ?w with _ => _ end] =>
      destruct (token_transfer T a b c d w) as [[[] ?]|?] eqn:?; try discriminate
  | context [match token_transferFrom ?T ?a ?b ?c ?d ?w with _ => _ end] =>
      destruct (token_transferFrom T a b c d w) as [[[] ?]|?] eqn:?; try discriminate
  end.

Ltac token_answered :=
  right; first [ exists false; by repeat eexists | exists true; by repeat eexists ].

Lemma exec_Ok_inv this T sender c w w' :
  exec this T sender c w = Ok ((), w') →
  match c with
  | CallClaimAirdrop => False
  | CallClaimAirdropForToken token =>
      let cfg := config_of (ledger w) token in
      entered (ledger w) = false ∧ token ≠ 0 ∧
      claimed_by (ledger w) token sender = false ∧
      isActive cfg = true ∧ 0 < amount cfg ∧ amount cfg <= balance_of w token this ∧
      totalClaimed cfg + amount cfg <= MAX_UINT256 ∧
      totalRecipients cfg + 1 <= MAX_UINT256 ∧
      ∃ w2, T token this sender (amount cfg) (claim_mid sender token w) = Ok (true, w2) ∧
            w' = claim_done sender token w2
  | CallSetAirdropConfig token a b =>
      sender = owner (ledger w) ∧ token ≠ 0 ∧
      w' = log (AirdropConfigUpdated token (amount (config_of (ledger w) token)) a b)
             (on_ledger (set_config token (new_config a b (config_of (ledger w) token))) w)
  | CallSetAirdropAmount a =>
      let d := defaultToken (ledger w) in
      sender = owner (ledger w) ∧ d ≠ 0 ∧
      w' = log (AirdropConfigUpdated d (amount (config_of (ledger w) d)) a true)
             (on_ledger (set_config d (new_config a true (config_of (ledger w) d))) w)
  | CallTransferOwnership newOwner =>
      sender = owner (ledger w) ∧ newOwner ≠ 0 ∧
      w' = log (OwnershipTransferred (owner (ledger w)) newOwner)
             (on_ledger (set_owner newOwner) w)
  | CallRenounceOwnership =>
      sender = owner (ledger w) ∧
      w' = log (OwnershipTransferred (owner (ledger w)) 0) (on_ledger (set_owner 0) w)
  | _ =>
      sender = owner (ledger w) ∧
      (w' = w ∨
       ∃ pull token from to amt w2 e,
         token_op T pull token from to amt w = Ok (true, w2) ∧ w' = log e w2)
  end.
Proof.
  destruct c; cbn [exec]; intros H.
  - by rewrite claimAirdrop_reverts in H.
  - rewrite claimAirdropForToken_unfold in H. cbv zeta in *.
    repeat match type of H with
    | (if ?b then _ else _) = _ => destruct b eqn:?; try discriminate
    | match balanceOf_reverts ?T ?a ?b ?w with _ => _ end = _ =>
        destruct (balanceOf_reverts T a b w) eqn:?; try discriminate
    | match ?t with _ => _ end = _ => destruct t as [[[] ?]|?] eqn:?; try discriminate
    end.
    bool_to_prop. injection H as <-. repeat split; try done. by eexists.
  - revert H. unfold setAirdropConfig. unfold_monad. norm_storage. intros H.
    split_ifs H. bool_to_prop. injection H as <-. repeat split; try done.
    unfold log, on_ledger; cbn [ledger balances events]. by norm_storage.
  - revert H. unfold setAirdropAmount. unfold_monad. norm_storage. intros H.
    split_ifs H. bool_to_prop. injection H as <-. repeat split; try done.
    unfold log, on_ledger; cbn [ledger balances events]. by norm_storage.
  - revert H. unfold depositTokens. unfold_monad. norm_storage. intros H.
    split_ifs H. bool_to_prop. injection H as <-. split; [done|].
    token_answered.
  - revert H. unfold depositTokens_default. unfold_monad. norm_storage. intros H.
    split_ifs H. bool_to_prop. injection H as <-. split; [done|].
    token_answered.
  - revert H. unfold withdrawTokens. unfold_monad. norm_storage. intros H.
    split_ifs H. bool_to_prop. injection H as <-. split; [done|].
    token_answered.
  - revert H. unfold withdrawTokens_default. unfold_monad. norm_storage. intros H.
    split_ifs H. bool_to_prop. injection H as <-. split; [done|].
    token_answered.
  - revert H. unfold emergencyWithdraw. unfold_monad. norm_storage. intros H.
    split_ifs H; bool_to_prop; injection H as <-; (split; [done|]);
      [token_answered | by left].
  - revert H. unfold emergencyWithdraw_default. unfold_monad. norm_storage. intros H.
    split_ifs H; bool_to_prop; injection H as <-; (split; [done|]);
      [token_answered | by left].
  - revert H. unfold rescueTokens. unfold_monad. norm_storage. intros H.
    split_ifs H. bool_to_prop. injection H as <-. split; [done|].
    token_answered.
  - revert H. unfold rescueAllTokens. unfold_monad. norm_storage. intros H.
    split_ifs H; bool_to_prop; injection H as <-; (split; [done|]);
      [token_answered | by left].
  - revert H. unfold transferOwnership. unfold_monad. norm_storage. intros H.
    split_ifs H. bool_to_prop. by injection H as <-.
  - revert H. unfold renounceOwnership. unfold_monad. norm_storage. intros H.
    split_ifs H. bool_to_prop. by injection H as <-.
Qed.

(** ** Counting claimants *)

Lemma claimants_lookup_unclaimed s token user :
  claimed_by s token user = false →
  claimants s token !! (token, user) = None.
Proof.
  unfold claimed_by, claimants. intros H.
  apply map_lookup_filter_None.
  destruct (hasClaimed s !! (token, user)) as [[]|] eqn:E; cbn in H;
    [done| |by left].
  right. intros x Hx [_ Hv]. cbn in Hv. congruence.
Qed.

Lemma claimed_count_claim_mid sender token w token' :
  claimed_by (ledger w) token sender = false →
  claimed_count (ledger (claim_mid sender token w)) token' =
    if decide (token = token') then claimed_count (ledger w) token + 1
    else claimed_count (ledger w) token'.
Proof.
  intros Hc. unfold claimed_count, claimants.
  rewrite hasClaimed_claim_mid. case_decide as Ht.
  - subst token'. rewrite map_filter_insert_True by done.
    rewrite map_size_insert_None by by apply claimants_lookup_unclaimed.
    lia.
  - rewrite map_filter_insert_False by (cbn; intros [? _]; done).
    rewrite map_filter_delete, delete_id; [done|].
    apply map_lookup_filter_None. right. intros x _ [? _]. done.
Qed.

Lemma claimed_count_empty s token :
  hasClaimed s = ∅ → claimed_count s token = 0.
Proof.
  unfold claimed_count, claimants. intros ->.
  by rewrite map_filter_empty, map_size_empty.
Qed.

(** ** Relations every token call and every contract call respect *)

(** A script run as a token: its two functions, and what a callback
    does. *)
Lemma token_op_run_hook this h pull :
  token_op (run_hook this h) pull = run_script this pull h.
Proof. by destruct pull. Qed.

Lemma run_script_Reenter this pull sender c inner k token from to amt w :
  run_script this pull (Reenter sender c inner k) token from to amt w =
    match exec this (run_hook this inner) sender c w with
    | Ok (_, w1) => run_script this pull k token from to amt w1
    | Err _ => run_script this pull k token from to amt w
    end.
Proof. reflexivity. Qed.

Lemma move_ledger token from to amt w w' :
  move token from to amt w = Ok ((), w') →
  ledger w' = ledger w ∧ events w' = events w.
Proof.
  unfold move. destruct (amt <=? balance_of w token from); [|done].
  by intros [= <-].
Qed.

Lemma spend_ledger pull token from spender amt w w' :
  spend pull token from spender amt w = Ok ((), w') →
  ledger w' = ledger w ∧ events w' = events w ∧ balances w' = balances w.
Proof.
  unfold spend. destruct pull; cbn [negb]; [|by intros [= <-]]. cbv zeta.
  destruct (_ =? MAX_UINT256); [by intros [= <-]|].
  destruct (amt <=? _); [|done]. by intros [= <-].
Qed.

(** Induction over the script of a token: a relation kept by whatever
    the token does to its own state and by every allowed call of the
    contract (whatever token serves that call, as long as it keeps the
    relation too) is kept by the whole script. *)
Lemma run_script_preserves (R : relation World) (allowed : Call → Prop) this :
  Reflexive R → Transitive R →
  (∀ w w', ledger w' = ledger w → events w' = events w → R w w') →
  (∀ T, preserved_by R T →
        ∀ sender c w w', allowed c → exec this T sender c w = Ok ((), w') → R w w') →
  ∀ h, Forall allowed (hook_calls h) →
  ∀ pull token from to amt w b w',
    run_script this pull h token from to amt w = Ok (b, w') → R w w'.
Proof.
  intros Hrefl Htrans Htoken Hexec.
  induction h as [ok| |k IHk|k IHk|sender c inner IHinner k IHk];
    cbn [hook_calls]; intros Hall pull token from to amt w b w' Hrun.
  - injection Hrun as <- <-. reflexivity.
  - discriminate.
  - cbn [run_script] in Hrun.
    destruct (spend pull token from this amt w) as [[[] w1]|e] eqn:Hs; [|discriminate].
    apply spend_ledger in Hs as (? & ? & _).
    transitivity w1; [by apply Htoken | by eapply IHk].
  - cbn [run_script] in Hrun.
    destruct (move token from to amt w) as [[[] w1]|e] eqn:Hm; [|discriminate].
    apply move_ledger in Hm as (? & ?).
    transitivity w1; [by apply Htoken | by eapply IHk].
  - apply Forall_cons in Hall as [Hc Hall].
    apply Forall_app in Hall as [Hinner Hk].
    rewrite run_script_Reenter in Hrun.
    destruct (exec this (run_hook this inner) sender c w) as [[[] w1]|e] eqn:He.
    + transitivity w1; [|by eapply IHk].
      eapply Hexec; [|done|done].
      intros pull' ? ? ? ? ? ? ?. rewrite token_op_run_hook. by apply IHinner.
    + by eapply IHk.
Qed.

Lemma run_hook_preserves (R : relation World) (allowed : Call → Prop) this :
  Reflexive R → Transitive R →
  (∀ w w', ledger w' = ledger w → events w' = events w → R w w') →
  (∀ T, preserved_by R T →
        ∀ sender c w w', allowed c → exec this T sender c w = Ok ((), w') → R w w') →
  ∀ h, Forall allowed (hook_calls h) → preserved_by R (run_hook this h).
Proof.
  intros ? ? ? ? h Hall pull token from to amt w b w'.
  rewrite token_op_run_hook. by eapply run_script_preserves.
Qed.

(** A token's script never fails with one of the contract's own
    reasons. *)
Lemma run_script_Err this pull h token from to amt w e :
  run_script this pull h token from to amt w = Err e → e = ExternalRevert.
Proof.
  revert w. induction h as [ok| |k IHk|k IHk|sender c inner IHinner k IHk];
    intros w Hrun.
  - discriminate.
  - cbn in Hrun. congruence.
  - cbn [run_script] in Hrun. unfold spend in Hrun.
    destruct pull; cbn [negb] in Hrun; [|by eapply IHk]. cbv zeta in Hrun.
    destruct (_ =? MAX_UINT256); [by eapply IHk|].
    destruct (amt <=? _); [by eapply IHk|congruence].
  - cbn [run_script] in Hrun. unfold move in Hrun.
    destruct (amt <=? balance_of w token from); [by eapply IHk|congruence].
  - rewrite run_script_Reenter in Hrun.
    destruct (exec this (run_hook this inner) sender c w) as [[[] w1]|e'];
      by eapply IHk.
Qed.

Lemma run_hook_Err this h token from to amt w e :
  run_hook this h token from to amt w = Err e → e = ExternalRevert.
Proof. apply run_script_Err. Qed.

#[local] Instance evolves_refl : Reflexive evolves.
Proof. by intros w; split. Qed.

#[local] Instance evolves_trans : Transitive evolves.
Proof.
  intros w1 w2 w3 [] []. split; [congruence|congruence|auto|auto].
Qed.

Lemma evolves_same_ledger w w' :
  ledger w' = ledger w → evolves w w'.
Proof.
  intros E. split; unfold recipients_counted; rewrite ?E; auto.
Qed.

Lemma recipients_counted_set_config token a b w :
  recipients_counted w →
  recipients_counted
    (on_ledger (set_config token (new_config a b (config_of (ledger w) token))) w).
Proof.
  intros Hw t. rewrite ledger_on_ledger, config_of_set_config.
  case_decide as Ht; [subst t; cbn [new_config totalRecipients]|]; apply Hw.
Qed.

Lemma exec_evolves this T sender c w w' :
  preserved_by evolves T →
  exec this T sender c w = Ok ((), w') → evolves w w'.
Proof.
  intros HT H. apply exec_Ok_inv in H.
  destruct c; try done;
    try (destruct H as [_ [->|(pl & tk & fr & rc & am & w2 & ev & H2 & ->)]];
         [reflexivity|];
         transitivity w2; [by eapply HT | by apply evolves_same_ledger]).
  - (* claimAirdropForToken *)
    cbv zeta in H.
    destruct H as (He & _ & Hc & _ & _ & _ & _ & _ & w2 & H2 & ->).
    apply (HT false) in H2 as [E2 D2 C2 K2].
    destruct (claim_mid_frame sender token w) as (_ & Hd & Hent & _ & _).
    split.
    + unfold claim_done. by rewrite ledger_on_ledger.
    + unfold claim_done. rewrite ledger_on_ledger, ledger_log.
      cbn [set_entered defaultToken]. congruence.
    + intros t u Htu. unfold claim_done.
      rewrite ledger_on_ledger, ledger_log, claimed_by_set_entered.
      apply C2. rewrite claimed_by_claim_mid. by case_decide.
    + intros Hw t. unfold claim_done.
      rewrite ledger_on_ledger, ledger_log.
      change (totalRecipients (config_of (ledger w2) t) = claimed_count (ledger w2) t).
      apply K2. clear t. intros t.
      rewrite config_of_claim_mid, claimed_count_claim_mid by done.
      case_decide; [cbn; by rewrite Hw|apply Hw].
  - (* setAirdropConfig *)
    destruct H as (_ & _ & ->).
    split; try done. intros Hw t. rewrite ledger_log.
    by apply recipients_counted_set_config.
  - (* setAirdropAmount *)
    cbv zeta in H. destruct H as (_ & _ & ->).
    split; try done. intros Hw t. rewrite ledger_log.
    by apply recipients_counted_set_config.
  - (* transferOwnership *)
    destruct H as (_ & _ & ->). by split.
  - (* renounceOwnership *)
    destruct H as (_ & ->). by split.
Qed.

Lemma run_hook_evolves this h : preserved_by evolves (run_hook this h).
Proof.
  apply (run_hook_preserves evolves (λ _, True)); try apply _.
  - intros w w' E _. by apply evolves_same_ledger.
  - intros T HT sender c w w' _. by apply exec_evolves.
  - by apply Forall_forall.
Qed.

Lemma apply_tx_evolves this w tx : evolves w (apply_tx this w tx).
Proof.
  unfold apply_tx, commit.
  destruct (exec _ _ _ _ w) as [[[] w']|e] eqn:H; [|reflexivity].
  eapply exec_evolves; [apply run_hook_evolves|done].
Qed.

Lemma apply_step_evolves this w st : evolves w (apply_step this w st).
Proof.
  destruct st as [tx|bals|allow]; [apply apply_tx_evolves|..];
    by apply evolves_same_ledger.
Qed.

Lemma run_cons this st steps w :
  run this (st :: steps) w = run this steps (apply_step this w st).
Proof. reflexivity. Qed.

Lemma run_evolves this steps w : evolves w (run this steps w).
Proof.
  revert w. induction steps as [|st steps IH]; intros w; [reflexivity|].
  rewrite run_cons.
  transitivity (apply_step this w st); [apply apply_step_evolves|apply IH].
Qed.

(** ** Deployment and the reachable states *)

Lemma deploy_unfold deployer d bals :
  deploy deployer d bals =
    if d =? 0 then Err InvalidDefaultToken
    else Ok ((), initial_world deployer d bals).
Proof.
  unfold deploy, constructor. unfold_monad.
  cbn [ledger balances events on_ledger log].
  by destruct (d =? 0).
Qed.

Lemma deploy_Ok_inv deployer d bals w :
  deploy deployer d bals = Ok ((), w) →
  d ≠ 0 ∧ w = initial_world deployer d bals.
Proof.
  rewrite deploy_unfold. destruct (d =? 0) eqn:E; [done|].
  bool_to_prop. by intros [= <-].
Qed.

Lemma recipients_counted_initial deployer d bals :
  recipients_counted (initial_world deployer d bals).
Proof.
  intros t. rewrite claimed_count_empty by done.
  unfold config_of, initial_world; cbn [ledger tokenConfigs].
  rewrite lookup_insert. case_decide; [done|]. by rewrite lookup_empty.
Qed.

Lemma reachable_invariants this w :
  reachable this w →
  entered (ledger w) = false ∧ defaultToken (ledger w) ≠ 0 ∧ recipients_counted w.
Proof.
  induction 1 as [deployer d bals w Hd|w st _ (He & Hd & Hc)].
  - apply deploy_Ok_inv in Hd as [Hd ->].
    repeat split; [done|apply recipients_counted_initial].
  - destruct (apply_step_evolves this w st) as [E D _ K].
    repeat split; [congruence|congruence|auto].
Qed.

Lemma reachable_run this steps w :
  reachable this w → reachable this (run this steps w).
Proof.
  revert w. induction steps as [|st steps IH]; intros w Hw; [done|].
  cbn. apply IH. by constructor.
Qed.

(** ** The owner *)



(** ** The totals of a token *)

Lemma totalClaimed_new_config token t a b s :
  totalClaimed (config_of (set_config t (new_config a b (config_of s t)) s) token) =
  totalClaimed (config_of s token).
Proof. rewrite config_of_set_config. case_decide; [by subst|done]. Qed.

Lemma sum_N_app l1 l2 : sum_N (l1 ++ l2) = sum_N l1 + sum_N l2.
Proof.
  unfold sum_N. induction l1 as [|x l1 IH]; cbn [app foldr]; lia.
Qed.

(** What a funds function has done when it succeeds: the token call of
    [funds_transfer], answered [true], and one event; or nothing at all. *)
Lemma exec_funds_inv this T sender c w w' :
  is_funds_call c = true →
  exec this T sender c w = Ok ((), w') →
  match funds_transfer this sender c w with
  | Some (tk, fr, rc, am) =>
      ∃ w2 e, token_op T (funds_pull c) tk fr rc am w = Ok (true, w2) ∧ w' = log e w2
  | None => w' = w
  end.
Proof.
  intros Hc. destruct c; try discriminate Hc;
    cbn [exec funds_transfer funds_pull token_op]; intros H.
  - revert H. unfold depositTokens. unfold_monad. norm_storage. intros H.
    split_ifs H. injection H as <-. by repeat eexists.
  - revert H. unfold depositTokens_default. unfold_monad. norm_storage. intros H.
    split_ifs H. injection H as <-. by repeat eexists.
  - revert H. unfold withdrawTokens. unfold_monad. norm_storage. intros H.
    split_ifs H. injection H as <-. by repeat eexists.
  - revert H. unfold withdrawTokens_default. unfold_monad. norm_storage. intros H.
    split_ifs H. injection H as <-. by repeat eexists.
  - revert H. unfold emergencyWithdraw. unfold_monad. norm_storage. intros H.
    split_ifs H; injection H as <-; [by repeat eexists|done].
  - revert H. unfold emergencyWithdraw_default. unfold_monad. norm_storage. intros H.
    split_ifs H; injection H as <-; [by repeat eexists|done].
  - revert H. unfold rescueTokens. unfold_monad. norm_storage. intros H.
    split_ifs H. injection H as <-. by repeat eexists.
  - revert H. unfold rescueAllTokens. unfold_monad. norm_storage. intros H.
    split_ifs H; injection H as <-; [by repeat eexists|done].
Qed.

#[local] Instance guarded_frame_refl token : Reflexive (guarded_frame token).
Proof. by intros w. Qed.

#[local] Instance guarded_frame_trans token : Transitive (guarded_frame token).
Proof.
  intros w1 w2 w3 H12 H23 He. destruct (H12 He) as [He2 E12].
  destruct (H23 He2) as [He3 E23]. split; [done|congruence].
Qed.

(** No call changes [totalClaimed] while the guard is raised: a claim
    cannot start, and nothing else writes it. *)
Lemma exec_guarded_frame this T token sender c w w' :
  preserved_by (guarded_frame token) T →
  exec this T sender c w = Ok ((), w') → guarded_frame token w w'.
Proof.
  intros HT H. apply exec_Ok_inv in H. intros He.
  destruct c; try done;
    try (destruct H as [_ [->|(pl & tk & fr & rc & am & w2 & ev & H2 & ->)]];
         [done|]; apply HT in H2; by apply H2).
  - cbv zeta in H. destruct H as (He' & _). congruence.
  - destruct H as (_ & _ & ->).
    by rewrite ledger_log, ledger_on_ledger, totalClaimed_new_config.
  - cbv zeta in H. destruct H as (_ & _ & ->).
    by rewrite ledger_log, ledger_on_ledger, totalClaimed_new_config.
  - by destruct H as (_ & _ & ->).
  - by destruct H as (_ & ->).
Qed.

Lemma run_hook_guarded_frame this token h :
  preserved_by (guarded_frame token) (run_hook this h).
Proof.
  apply (run_hook_preserves (guarded_frame token) (λ _, True)); try apply _.
  - intros w w' E _. unfold guarded_frame. by rewrite E.
  - intros T HT sender c w w' _. by apply exec_guarded_frame.
  - by apply Forall_forall.
Qed.

(** A successful call made outside the guard adds to [totalClaimed] of
    [token] exactly the amounts of [call_amounts], provided the token
    that serves it does so too. *)
Lemma exec_totalClaimed this T nested tok sender c w w' :
  (∀ pull tk fr rc am b w2,
     token_op T pull tk fr rc am w = Ok (b, w2) →
     totalClaimed (config_of (ledger w2) tok) =
       totalClaimed (config_of (ledger w) tok) + sum_N (nested pull tk fr rc am w)) →
  preserved_by (guarded_frame tok) T →
  exec this T sender c w = Ok ((), w') →
  totalClaimed (config_of (ledger w') tok) =
    totalClaimed (config_of (ledger w) tok)
    + sum_N (call_amounts this tok nested sender c w).
Proof.
  intros Hnested HT H.
  destruct (is_funds_call c) eqn:Hc.
  - apply exec_funds_inv in H; [|done].
    replace (call_amounts this tok nested sender c w)
      with (match funds_transfer this sender c w with
            | Some (tk, fr, rc, am) => nested (funds_pull c) tk fr rc am w
            | None => []
            end) by by destruct c.
    destruct (funds_transfer this sender c w) as [[[[tk fr] rc] am]|].
    + destruct H as (w2 & e & H2 & ->). rewrite ledger_log. by eapply Hnested.
    + subst w'. cbv zeta; cbn [totalClaimed sum_N foldr]; lia.
  - apply exec_Ok_inv in H.
    destruct c; try done; try discriminate Hc; cbn [call_amounts funds_transfer].
    + cbv zeta in H.
      destruct H as (_ & _ & _ & _ & _ & _ & _ & _ & w2 & H2 & ->).
      destruct (HT false _ _ _ _ _ _ _ H2 eq_refl) as [_ E2].
      unfold claim_done.
      rewrite ledger_on_ledger, ledger_log, config_of_set_entered, E2.
      rewrite config_of_claim_mid.
      destruct (token =? tok) eqn:E; bool_to_prop.
      * subst. rewrite decide_True by done. cbv zeta; cbn [totalClaimed sum_N foldr]; lia.
      * rewrite decide_False by done. cbv zeta; cbn [totalClaimed sum_N foldr]; lia.
    + destruct H as (_ & _ & ->).
      rewrite ledger_log, ledger_on_ledger, totalClaimed_new_config. cbv zeta; cbn [totalClaimed sum_N foldr]; lia.
    + cbv zeta in H. destruct H as (_ & _ & ->).
      rewrite ledger_log, ledger_on_ledger, totalClaimed_new_config. cbv zeta; cbn [totalClaimed sum_N foldr]; lia.
    + destruct H as (_ & _ & ->).
      rewrite ledger_log, ledger_on_ledger, config_of_set_owner.
      cbn [sum_N foldr]. lia.
    + destruct H as (_ & ->).
      rewrite ledger_log, ledger_on_ledger, config_of_set_owner.
      cbn [sum_N foldr]. lia.
Qed.

Lemma run_script_totalClaimed this token h :
  ∀ pull tk fr rc am w b w',
    entered (ledger w) = false →
    run_script this pull h tk fr rc am w = Ok (b, w') →
    totalClaimed (config_of (ledger w') token) =
      totalClaimed (config_of (ledger w) token)
      + sum_N (hook_amounts this token h pull tk fr rc am w).
Proof.
  induction h as [ok| |k IHk|k IHk|sender c inner IHinner k IHk];
    intros pull tk fr rc am w b w' He Hrun; cbn [hook_amounts].
  - injection Hrun as _ <-. cbn [sum_N foldr]. lia.
  - discriminate.
  - cbn [run_script] in Hrun.
    destruct (spend pull tk fr this am w) as [[[] w1]|e] eqn:Hs; [|discriminate].
    apply spend_ledger in Hs as (E & _).
    rewrite (IHk _ _ _ _ _ w1 b w') by (by rewrite ?E). by rewrite E.
  - cbn [run_script] in Hrun.
    destruct (move tk fr rc am w) as [[[] w1]|e] eqn:Hm; [|discriminate].
    apply move_ledger in Hm as [E _].
    rewrite (IHk _ _ _ _ _ w1 b w') by (by rewrite ?E). by rewrite E.
  - rewrite run_script_Reenter in Hrun.
    destruct (exec this (run_hook this inner) sender c w) as [[[] w1]|e] eqn:Hc.
    + assert (He1 : entered (ledger w1) = false).
      { eapply exec_evolves in Hc as [E _ _ _]; [congruence|apply run_hook_evolves]. }
      rewrite sum_N_app, (IHk _ _ _ _ _ w1 b w') by done.
      apply (exec_totalClaimed this _ (hook_amounts this token inner) token) in Hc;
        [rewrite Hc; lia| |apply run_hook_guarded_frame].
      intros pull' tk' fr' rc' am' b' w2. rewrite token_op_run_hook. by apply IHinner.
    + by eapply IHk.
Qed.

Lemma run_hook_totalClaimed this token h :
  ∀ pull tk fr rc am w b w',
    entered (ledger w) = false →
    token_op (run_hook this h) pull tk fr rc am w = Ok (b, w') →
    totalClaimed (config_of (ledger w') token) =
      totalClaimed (config_of (ledger w) token)
      + sum_N (hook_amounts this token h pull tk fr rc am w).
Proof.
  intros pull tk fr rc am w b w'. rewrite token_op_run_hook.
  apply run_script_totalClaimed.
Qed.

(** ** The deployed instance *)

Lemma ex_world_reachable : reachable ex_this ex_world.
Proof.
  apply (reachable_deploy ex_this ex_owner ex_token
           (<[(ex_token, ex_this) := 25 * 10 ^ 29]> ∅)).
  reflexivity.
Defined.

Example scenario_claims :
  let claim a := mkTx a (CallClaimAirdropForToken ex_token) plain_erc20 in
  let w1 := apply_tx ex_this scenario_world (claim 1) in
  let w2 := apply_tx ex_this w1 (claim 2) in
  getAirdropStats ex_this w1 ex_token = (100, 100, 1, 150, true) ∧
  claimAirdropForToken ex_this (run_hook ex_this plain_erc20) 1 ex_token w1
    = Err AlreadyClaimed ∧
  getAirdropStats ex_this w2 ex_token = (100, 200, 2, 50, true) ∧
  claimAirdropForToken ex_this (run_hook ex_this plain_erc20) 3 ex_token w2
    = Err InsufficientFunds.
Proof. vm_compute. done. Qed.

(** * The claims *)

(** C1. [claimAirdrop()] is meant to be [claimAirdropForToken(defaultToken)].
    In the code it is not: both functions carry [nonReentrant], so the
    inner call always finds the guard raised and [claimAirdrop()] reverts
    for every caller in every state, also where the direct claim of the
    default token succeeds. *)
Theorem claimAirdrop_reverts_where_direct_claim_succeeds :
  (∀ this T sender w, claimAirdrop this T sender w = Err ReentrantCall) ∧
  exec ex_this (run_hook ex_this plain_erc20) 1 CallClaimAirdrop ex_world
    = Err ReentrantCall ∧
  ∃ w', exec ex_this (run_hook ex_this plain_erc20) 1
          (CallClaimAirdropForToken (defaultToken (ledger ex_world))) ex_world
        = Ok ((), w') ∧
        hasUserClaimed w' ex_token 1 = true ∧
        balance_of w' ex_token 1 = 10 ^ 30.
Proof.
  split; [apply claimAirdrop_reverts|].
  split; [apply claimAirdrop_reverts|].
  eexists. split; [vm_compute; reflexivity|]. by vm_compute.
Qed.







Lemma claim_ready_unfold this T sender token w :
  claim_ready this sender token w →
  balanceOf_reverts T token this (guarded w) = None →
  claimAirdropForToken this T sender token w =
    match T token this sender (amount (config_of (ledger w) token))
            (claim_mid sender token w) with
    | Ok (true, w2) => Ok ((), claim_done sender token w2)
    | Ok (false, _) => Err TransferFailed
    | Err e => Err e
    end.
Proof.
  intros (He & Ht & Hc & Ha & Hp & Hb & Ho1 & Ho2) Hq. cbv zeta in *.
  rewrite claimAirdropForToken_unfold. cbv zeta.
  apply N.eqb_neq in Ht. apply N.ltb_lt in Hp.
  apply N.leb_le in Hb, Ho1, Ho2.
  by rewrite He, Ht, Hc, Ha, Hp, Hq, Hb, Ho1, Ho2.
Qed.

(** A claim any token callback makes while a claim is being served is
    rejected by the guard and leaves no trace: the token might as well
    not have made it. *)
Lemma reentrant_claim_is_ignored this sender token w caller token' inner k :
  claim_ready this sender token w →
  claimAirdropForToken this
    (run_hook this (Reenter caller (CallClaimAirdropForToken token') inner k))
    sender token w =
  claimAirdropForToken this (run_hook this k) sender token w.
Proof.
  intros Hready. rewrite !(claim_ready_unfold this) by done.
  change (run_hook this ?h ?a ?b ?c ?d ?x) with (run_script this false h a b c d x).
  rewrite run_script_Reenter. cbn [exec].
  rewrite claimAirdropForToken_unfold. cbv zeta.
  by destruct (claim_mid_frame sender token w) as (_ & _ & -> & _).
Qed.




Lemma claim_success_state this h sender token w w' :
  exec this (run_hook this h) sender (CallClaimAirdropForToken token) w = Ok ((), w') →
  token ≠ 0 ∧ entered (ledger w') = false ∧ claimed_by (ledger w') token sender = true.
Proof.
  intros H. apply exec_Ok_inv in H. cbv zeta in H.
  destruct H as (_ & Ht & _ & _ & _ & _ & _ & _ & w2 & H2 & ->).
  apply (run_hook_evolves this h false) in H2 as [_ _ C2 _].
  repeat split; [done|]. unfold claim_done.
  rewrite ledger_on_ledger, ledger_log, claimed_by_set_entered.
  apply C2. rewrite claimed_by_claim_mid. by rewrite decide_True.
Qed.

(** Every state between transactions is a later state. *)
Lemma later_trans this w1 w2 w3 :
  later this w1 w2 → later this w2 w3 → later this w1 w3.
Proof.
  induction 1 as [w|w bals allow w'' _ IH|w sender c h w1 w'' Hc _ IH
                 |w sender token w'' Hp _ IH|w sender token w'' Hr _ IH]; intros H3.
  - done.
  - eapply later_tokens. by apply IH.
  - eapply later_call; [exact Hc|]. by apply IH.
  - eapply later_asking; [exact Hp|]. by apply IH.
  - eapply later_serving; [exact Hr|]. by apply IH.
Qed.

Lemma later_step this w st : later this w (apply_step this w st).
Proof.
  destruct st as [tx|bals|allow]; cbn [apply_step].
  - unfold apply_tx, commit.
    destruct (exec _ _ _ _ w) as [[[] w']|e] eqn:H; [|apply later_now].
    eapply later_call; [exact H|apply later_now].
  - eapply later_tokens. apply later_now.
  - eapply later_tokens. apply later_now.
Qed.

Lemma later_run this steps w : later this w (run this steps w).
Proof.
  revert w. induction steps as [|st steps IH]; intros w; [apply later_now|].
  rewrite run_cons. eapply later_trans; [apply later_step|apply IH].
Qed.

(** A claimed flag stays set in every later state. *)
Lemma later_claimed this w w'' token user :
  later this w w'' →
  claimed_by (ledger w) token user = true →
  claimed_by (ledger w'') token user = true.
Proof.
  induction 1 as [w|w bals allow w'' _ IH|w sender c h w1 w'' Hc _ IH
                 |w sender tk w'' Hp _ IH|w sender tk w'' Hr _ IH]; intros Hw.
  - done.
  - by apply IH.
  - apply IH. eapply exec_evolves in Hc as [_ _ C _]; [|apply run_hook_evolves].
    by apply C.
  - by apply IH.
  - apply IH. rewrite claimed_by_claim_mid. by case_decide.
Qed.

(** The callbacks of a token happen in later states: those of the token
    that serves a claim after the claim has reached it, those of a token
    that serves another function after that function was called. *)
Lemma callback_worlds_later this pull h token from to amt w w'' :
  w'' ∈ callback_worlds this pull h token from to amt w → later this w w''.
Proof.
  revert w. induction h as [ok| |k IHk|k IHk|sender c inner _ k IHk];
    intros w; cbn [callback_worlds].
  - by intros ?%elem_of_nil.
  - by intros ?%elem_of_nil.
  - destruct (spend pull token from this amt w) as [[[] w1]|e] eqn:Hs;
      [|by intros ?%elem_of_nil].
    intros Hin. apply spend_ledger in Hs as (El & Ee & _).
    apply (later_tokens this w (balances w1) (allowances w1)).
    rewrite <- El, <- Ee. destruct w1. by apply IHk.
  - destruct (move token from to amt w) as [[[] w1]|e] eqn:Hm;
      [|by intros ?%elem_of_nil].
    intros Hin. apply move_ledger in Hm as (El & Ee).
    apply (later_tokens this w (balances w1) (allowances w1)).
    rewrite <- El, <- Ee. destruct w1. by apply IHk.
  - intros [->|Hin]%elem_of_cons; [apply later_now|].
    destruct (exec this (run_hook this inner) sender c w) as [[[] w1]|e] eqn:Hc.
    + eapply later_call; [exact Hc|]. by apply IHk.
    + by apply IHk.
Qed.

Lemma claim_callbacks_later this h sender token w w'' :
  claim_ready this sender token w →
  w'' ∈ callback_worlds this false h token this sender
          (amount (config_of (ledger w) token)) (claim_mid sender token w) →
  later this w w''.
Proof.
  intros Hr Hin. eapply later_serving; [exact Hr|].
  by eapply callback_worlds_later.
Qed.

(** C4, as stated, fails in its second part: a later claim by the same
    address for the same token made while another claim is being served
    does revert, but with the guard's reason and not with "Already
    claimed".  Address 1 has claimed the default token; address 2 then
    claims it from a token that lets address 1 claim again. *)
Lemma later_claim_from_a_callback_hits_the_guard :
  exec ex_this (run_hook ex_this plain_erc20) 1 (CallClaimAirdropForToken ex_token)
    ex_world = Ok ((), ex_claimed) ∧
  claimAirdropForToken ex_this (claiming_token ex_this 1 ex_token) 2 ex_token ex_claimed
    = Err ReentrantCall ∧
  claimAirdropForToken ex_this (run_hook ex_this plain_erc20) 1 ex_token
    (claim_mid 2 ex_token ex_claimed) ≠ Err AlreadyClaimed.
Proof. split; [by vm_compute|]. split; by vm_compute. Qed.

(** C4, amended.  Once [sender] has claimed [token], in every later
    state in which the contract can be called, between transactions or
    from inside a token callback, [hasUserClaimed] answers [true] for the
    pair, and every further claim of [token] by [sender] reverts whatever
    the token would do (it is not called), leaving the world unchanged:
    with "Already claimed", or, when made while a claim is being served,
    with the reason of the guard, which is checked first.  Between
    transactions the reason is always "Already claimed". *)
Theorem claimed_once_claimed_forever this sender token h w w' w'' :
  exec this (run_hook this h) sender (CallClaimAirdropForToken token) w = Ok ((), w') →
  later this w' w'' →
  hasUserClaimed w'' token sender = true ∧
  (∀ T, claimAirdropForToken this T sender token w'' =
        Err (if entered (ledger w'') then ReentrantCall else AlreadyClaimed)) ∧
  (∀ T, commit w'' (claimAirdropForToken this T sender token w'') = w'') ∧
  (∀ steps,
     let between := run this steps w' in
     later this w' between ∧
     hasUserClaimed between token sender = true ∧
     (∀ T, claimAirdropForToken this T sender token between = Err AlreadyClaimed) ∧
     (∀ h', apply_tx this between (mkTx sender (CallClaimAirdropForToken token) h')
            = between)).
Proof.
  intros H Hlater. apply claim_success_state in H as (Ht & He & Hc).
  assert (Hclaim : ∀ w3 T, later this w' w3 →
            claimAirdropForToken this T sender token w3 =
              Err (if entered (ledger w3) then ReentrantCall else AlreadyClaimed)).
  { intros w3 T H3. rewrite claimAirdropForToken_unfold. cbv zeta.
    destruct (entered (ledger w3)); [done|].
    apply N.eqb_neq in Ht. rewrite Ht.
    by rewrite (later_claimed this w' w3 token sender H3 Hc). }
  split; [by eapply later_claimed|].
  split; [intros T; by apply Hclaim|].
  split; [intros T; by rewrite Hclaim|].
  intros steps. cbv zeta.
  pose proof (later_run this steps w') as Hrun.
  destruct (run_evolves this steps w') as [E _ _ _].
  split; [exact Hrun|]. split; [by eapply later_claimed|].
  assert (Hbetween : ∀ T, claimAirdropForToken this T sender token (run this steps w')
                          = Err AlreadyClaimed).
  { intros T. rewrite Hclaim by done. by rewrite E, He. }
  split; [exact Hbetween|].
  intros h'. unfold apply_tx. cbn [tx_hook tx_sender tx_call exec].
  by rewrite Hbetween.
Qed.

Lemma claimed_once_claimed_forever_witness :
  exec ex_this (run_hook ex_this plain_erc20) 1 (CallClaimAirdropForToken ex_token)
    ex_world = Ok ((), ex_claimed) ∧
  later ex_this ex_claimed (claim_mid 2 ex_token ex_claimed) ∧
  hasUserClaimed (claim_mid 2 ex_token ex_claimed) ex_token 1 = true ∧
  claimAirdropForToken ex_this (run_hook ex_this plain_erc20) 1 ex_token
    (claim_mid 2 ex_token ex_claimed) = Err ReentrantCall ∧
  claimAirdropForToken ex_this (run_hook ex_this plain_erc20) 1 ex_token
    (run ex_this ex_steps ex_claimed) = Err AlreadyClaimed.
Proof.
  assert (H : exec ex_this (run_hook ex_this plain_erc20) 1
                (CallClaimAirdropForToken ex_token) ex_world = Ok ((), ex_claimed))
    by (vm_compute; reflexivity).
  assert (Hready : claim_ready ex_this 2 ex_token ex_claimed).
  { unfold claim_ready. cbv zeta. vm_compute. repeat split; congruence. }
  assert (Hlater : later ex_this ex_claimed (claim_mid 2 ex_token ex_claimed)).
  { eapply later_serving; [exact Hready|apply later_now]. }
  split; [exact H|]. split; [exact Hlater|].
  destruct (claimed_once_claimed_forever ex_this 1 ex_token plain_erc20 ex_world
              ex_claimed (claim_mid 2 ex_token ex_claimed) H Hlater)
    as (K1 & K2 & _ & K4).
  split; [exact K1|]. split; [exact (K2 _)|].
  destruct (K4 ex_steps) as (_ & _ & K5 & _). exact (K5 _).
Defined.

(** A claim ends with the reason of the first check that fails, with the
    token's own failure, or with what the token answers to the
    transfer. *)
Lemma claim_outcome this T sender token w :
  let r := claimAirdropForToken this T sender token w in
  let c := config_of (ledger w) token in
  let claimed := claimed_by (ledger w) token sender in
  (entered (ledger w) = true ∧ r = Err ReentrantCall) ∨
  (entered (ledger w) = false ∧ token = 0 ∧ r = Err InvalidTokenAddress) ∨
  (entered (ledger w) = false ∧ token ≠ 0 ∧ claimed = true ∧ r = Err AlreadyClaimed) ∨
  (entered (ledger w) = false ∧ token ≠ 0 ∧ claimed = false ∧ isActive c = false ∧
   r = Err NotActive) ∨
  (entered (ledger w) = false ∧ token ≠ 0 ∧ claimed = false ∧ isActive c = true ∧
   amount c = 0 ∧ r = Err AmountUnset) ∨
  (claim_checks_pass sender token w ∧
   balanceOf_reverts T token this (guarded w) = None ∧
   balance_of w token this < amount c ∧ r = Err InsufficientFunds) ∨
  (∃ e, token_fails_claim this T sender token w e ∧ r = Err e) ∨
  (claim_checks_pass sender token w ∧
   balanceOf_reverts T token this (guarded w) = None ∧
   amount c <= balance_of w token this ∧
   let answer := T token this sender (amount c) (claim_mid sender token w) in
   (((MAX_UINT256 < totalClaimed c + amount c ∨ MAX_UINT256 < totalRecipients c + 1) ∧
     r = Err Overflow) ∨
    (∃ w2, answer = Ok (false, w2) ∧ r = Err TransferFailed) ∨
    (∃ w2, answer = Ok (true, w2) ∧ r = Ok ((), claim_done sender token w2)))).
Proof.
  cbv zeta. unfold token_fails_claim, claim_checks_pass. cbv zeta.
  rewrite claimAirdropForToken_unfold. cbv zeta.
  destruct (entered (ledger w)) eqn:He; [by left|]. right.
  destruct (token =? 0) eqn:Ht; bool_to_prop; [by left|]. right.
  destruct (claimed_by (ledger w) token sender) eqn:Hc; [by left|]. right.
  destruct (isActive (config_of (ledger w) token)) eqn:Ha; cbn [negb]; [|by left].
  right.
  destruct (0 <? amount (config_of (ledger w) token)) eqn:Hp; cbn [negb]; bool_to_prop.
  2: { left. repeat split; try done. lia. }
  right.
  destruct (balanceOf_reverts T token this (guarded w)) as [e|] eqn:Hq.
  { right. left. exists e. split; [|done]. split; [done|]. by left. }
  destruct (amount (config_of (ledger w) token) <=? balance_of w token this) eqn:Hb;
    cbn [negb]; bool_to_prop; [|by left].
  right.
  destruct (totalClaimed (config_of (ledger w) token)
            + amount (config_of (ledger w) token) <=? MAX_UINT256) eqn:Ho1;
    cbn [negb]; bool_to_prop;
    [|right; split_and!; try done; left; split; [by left|done]].
  destruct (totalRecipients (config_of (ledger w) token) + 1 <=? MAX_UINT256) eqn:Ho2;
    cbn [negb]; bool_to_prop;
    [|right; split_and!; try done; left; split; [by right|done]].
  destruct (token_transfer T _ _ _ _ _) as [[[] w2]|e'] eqn:Hr.
  - right. split_and!; try done. right; right. by eexists.
  - right. split_and!; try done. right; left. by eexists.
  - left. exists e'. split; [|done]. split; [done|]. right. by split_and!.
Qed.

(** C5, as stated, fails: the guard is checked before the five
    requirements, and the balance query between the fourth and the fifth
    can revert.  A claim of the null token made while a claim is being
    served is rejected with the reason of the guard, not with "Invalid
    token address"; and a claim of an active airdrop of 100 of token 5,
    an address with no contract behind it, reverts as the balance query
    does, not with "Insufficient tokens in contract". *)
Lemma claim_checks_follow_the_guard_and_the_balance_query :
  claimAirdropForToken ex_this (claiming_token ex_this 2 0) 1 ex_token ex_world
    = Err ReentrantCall ∧
  claimAirdropForToken ex_this (run_hook ex_this plain_erc20) 2 0
    (claim_mid 1 ex_token ex_world) ≠ Err InvalidTokenAddress ∧
  claim_checks_pass 1 5 ex_second_airdrop ∧
  balance_of ex_second_airdrop 5 ex_this < amount (config_of (ledger ex_second_airdrop) 5) ∧
  claimAirdropForToken ex_this no_contract 1 5 ex_second_airdrop ≠ Err InsufficientFunds.
Proof.
  split; [by vm_compute|]. split; [by vm_compute|].
  split; [unfold claim_checks_pass; cbv zeta; vm_compute; repeat split; congruence|].
  split; by vm_compute.
Qed.

(** C5, amended.  In every state and for every token, a claim first
    meets the guard, then the requirements in the order: token not null,
    not yet claimed, airdrop active, amount set; then it asks the token
    for the custody and requires it to cover the amount.  Each reason is
    reported exactly when its check is the first to fail, or when the
    token itself fails with it (in the balance query or in the transfer);
    a token that runs a script never does, it fails with its own
    [ExternalRevert] only.  A claim that reverts changes nothing. *)
Theorem claim_requirements_in_order this T sender token w :
  let r := claimAirdropForToken this T sender token w in
  let c := config_of (ledger w) token in
  let claimed := claimed_by (ledger w) token sender in
  let outside := entered (ledger w) = false in
  let by_token := token_fails_claim this T sender token w in
  (r = Err ReentrantCall ↔ entered (ledger w) = true ∨ by_token ReentrantCall) ∧
  (r = Err InvalidTokenAddress ↔
     outside ∧ token = 0 ∨ by_token InvalidTokenAddress) ∧
  (r = Err AlreadyClaimed ↔
     outside ∧ token ≠ 0 ∧ claimed = true ∨ by_token AlreadyClaimed) ∧
  (r = Err NotActive ↔
     outside ∧ token ≠ 0 ∧ claimed = false ∧ isActive c = false ∨ by_token NotActive) ∧
  (r = Err AmountUnset ↔
     outside ∧ token ≠ 0 ∧ claimed = false ∧ isActive c = true ∧ amount c = 0
     ∨ by_token AmountUnset) ∧
  (r = Err InsufficientFunds ↔
     claim_checks_pass sender token w ∧
     balanceOf_reverts T token this (guarded w) = None ∧
     balance_of w token this < amount c
     ∨ by_token InsufficientFunds) ∧
  (∀ e, balanceOf_reverts T token this (guarded w) = Some e →
        claim_checks_pass sender token w → r = Err e) ∧
  (∀ e, r = Err e → commit w r = w) ∧
  (∀ h e, token_fails_claim this (run_hook this h) sender token w e →
          e = ExternalRevert).
Proof.
  cbv zeta.
  pose proof (claim_outcome this T sender token w) as Hout. cbv zeta in Hout.
  split_and!.
  7: { intros e Hq (He & Ht & Hc & Ha & Hp). rewrite claimAirdropForToken_unfold.
       cbv zeta. apply N.eqb_neq in Ht. apply N.ltb_lt in Hp.
       by rewrite He, Ht, Hc, Ha, Hp, Hq. }
  7: { by intros e ->. }
  7: { intros h e (_ & [Hq|(_ & _ & _ & _ & Hr)]); [done|].
       by apply run_hook_Err in Hr. }
  all: unfold token_fails_claim, claim_checks_pass in *; cbv zeta in *; split.
  all: try (intros Hx; rewrite Hx in Hout;
            destruct Hout
              as [(?&Hr)|[(?&?&Hr)|[(?&?&?&Hr)|[(?&?&?&?&Hr)|[(?&?&?&?&?&Hr)|
                 [(Hp&?&?&Hr)|[(e&Hf&Hr)|(Hp&?&?&[(?&Hr)|[(?&?&Hr)|(?&?&Hr)]])]]]]]]];
            try discriminate Hr;
            first [ injection Hr as <-; by right
                  | left; destruct_and?; split_and?; done ]).
  all: intros Hcase;
       destruct Hout
         as [(?&Hr)|[(?&?&Hr)|[(?&?&?&Hr)|[(?&?&?&?&Hr)|[(?&?&?&?&?&Hr)|
            [(Hp&?&?&Hr)|[(e&Hf&Hr)|(Hp&?&?&[(?&Hr)|[(?&?&Hr)|(?&?&Hr)]])]]]]]]];
       rewrite Hr;
       try (destruct Hf as (Hchk' & [Hq'|(Hq' & ? & ? & ? & Hans')]));
       destruct Hcase as [Hcase|(Hchk & [Hq|(Hq & ? & ? & ? & Hans)])];
       destruct_and?; try done; try congruence; try lia.
Qed.

(** ** The sum of the amounts claimed *)

Lemma apply_tx_totalClaimed this token w tx :
  entered (ledger w) = false →
  totalClaimed (config_of (ledger (apply_tx this w tx)) token) =
    totalClaimed (config_of (ledger w) token) + sum_N (tx_amounts this token w tx).
Proof.
  intros He. unfold apply_tx, commit, tx_amounts, tx_succeeds.
  destruct (exec _ _ _ _ w) as [[[] w']|e] eqn:H; [|cbn [sum_N foldr]; lia].
  eapply exec_totalClaimed; [|apply run_hook_guarded_frame|exact H].
  intros pull tk fr rc am b w2. by apply run_hook_totalClaimed.
Qed.

Lemma apply_step_totalClaimed this token w st :
  entered (ledger w) = false →
  totalClaimed (config_of (ledger (apply_step this w st)) token) =
    totalClaimed (config_of (ledger w) token) + sum_N (step_amounts this token w st).
Proof.
  destruct st as [tx|bals|allow]; [apply apply_tx_totalClaimed|..];
    intros _; cbn [apply_step step_amounts ledger sum_N foldr]; lia.
Qed.

Lemma run_totalClaimed this token steps w :
  entered (ledger w) = false →
  totalClaimed (config_of (ledger (run this steps w)) token) =
    totalClaimed (config_of (ledger w) token)
    + sum_N (claimed_amounts this token steps w).
Proof.
  revert w. induction steps as [|st steps IH]; intros w He.
  - cbn [run foldl claimed_amounts sum_N foldr]. lia.
  - rewrite run_cons, IH.
    + rewrite (apply_step_totalClaimed this token w st He).
      cbn [claimed_amounts]. rewrite sum_N_app. lia.
    + destruct (apply_step_evolves this w st) as [E _ _ _]. congruence.
Qed.

(** C6. From deployment on, through every sequence of transactions and
    token activity, [totalClaimed] of a token is the sum, over the
    successful claims of that token, of the amount that was configured
    when each claim ran (claims made from inside a token callback
    included). *)
Theorem totalClaimed_is_sum_of_amounts_in_effect
    this deployer d bals w0 token steps :
  deploy deployer d bals = Ok ((), w0) →
  totalClaimed (config_of (ledger (run this steps w0)) token) =
    sum_N (claimed_amounts this token steps w0).
Proof.
  intros Hd. apply deploy_Ok_inv in Hd as [_ ->].
  rewrite run_totalClaimed by done.
  assert (totalClaimed (config_of (ledger (initial_world deployer d bals)) token) = 0)
    as ->; [|lia].
  unfold config_of, initial_world; cbn [ledger tokenConfigs].
  rewrite lookup_insert. case_decide; [done|]. by rewrite lookup_empty.
Qed.

Lemma totalClaimed_is_sum_of_amounts_in_effect_witness :
  deploy ex_owner ex_token (balances ex_world) = Ok ((), ex_world) ∧
  claimed_amounts ex_this ex_token ex_steps ex_world = [10 ^ 30; 100; 100] ∧
  totalClaimed (config_of (ledger (run ex_this ex_steps ex_world)) ex_token)
    = sum_N [10 ^ 30; 100; 100] ∧
  amount (config_of (ledger (run ex_this ex_steps ex_world)) ex_token) = 100.
Proof.
  assert (Hd : deploy ex_owner ex_token (balances ex_world) = Ok ((), ex_world))
    by reflexivity.
  assert (Ha : claimed_amounts ex_this ex_token ex_steps ex_world = [10 ^ 30; 100; 100])
    by (vm_compute; reflexivity).
  split; [exact Hd|]. split; [exact Ha|].
  split; [|by vm_compute].
  rewrite <- Ha.
  exact (totalClaimed_is_sum_of_amounts_in_effect ex_this ex_owner ex_token
           (balances ex_world) ex_world ex_token ex_steps Hd).
Defined.

(** ** Recipients *)

(** [claimants s token] holds exactly the pairs of [token] whose flag is
    set, one per address. *)
Lemma claimants_spec s token t user :
  is_Some (claimants s token !! (t, user)) ↔
  t = token ∧ claimed_by s token user = true.
Proof.
  unfold claimants, claimed_by. split.
  - intros [v Hv]. apply map_lookup_filter_Some in Hv as [Hv [Ht Hb]].
    cbn in Ht, Hb. subst. by rewrite Hv.
  - intros [-> Hc].
    destruct (hasClaimed s !! (token, user)) as [[]|] eqn:E; try done.
    exists true. by apply map_lookup_filter_Some.
Qed.

(** C7. In every state a deployed contract can be in, [totalRecipients]
    of each token is the number of addresses whose claimed flag for that
    token is set, and whatever step comes next keeps it so. *)
Theorem totalRecipients_counts_claimants this w :
  reachable this w →
  (∀ token,
     totalRecipients (config_of (ledger w) token) =
     N.of_nat (size (claimants (ledger w) token))) ∧
  (∀ st token,
     totalRecipients (config_of (ledger (apply_step this w st)) token) =
     N.of_nat (size (claimants (ledger (apply_step this w st)) token))).
Proof.
  intros Hw. split.
  - by apply reachable_invariants in Hw as (_ & _ & Hc).
  - intros st.
    assert (Hw' : reachable this (apply_step this w st)) by by constructor.
    by apply reachable_invariants in Hw' as (_ & _ & Hc).
Qed.

Lemma totalRecipients_counts_claimants_witness :
  reachable ex_this (run ex_this ex_steps ex_world) ∧
  totalRecipients (config_of (ledger (run ex_this ex_steps ex_world)) ex_token) =
  N.of_nat (size (claimants (ledger (run ex_this ex_steps ex_world)) ex_token)).
Proof.
  assert (Hw : reachable ex_this (run ex_this ex_steps ex_world))
    by (apply reachable_run, ex_world_reachable).
  split; [exact Hw|].
  destruct (totalRecipients_counts_claimants ex_this _ Hw) as [H _].
  exact (H ex_token).
Defined.

(** ** Administration *)

Lemma setAirdropConfig_unfold sender token a b w :
  setAirdropConfig sender token a b w =
    if negb (sender =? owner (ledger w)) then Err Unauthorized
    else if token =? 0 then Err InvalidTokenAddress
    else Ok ((), log (AirdropConfigUpdated token (amount (config_of (ledger w) token)) a b)
                   (on_ledger (set_config token
                                 (new_config a b (config_of (ledger w) token))) w)).
Proof.
  unfold setAirdropConfig. unfold_monad. norm_storage.
  destruct (sender =? owner (ledger w)); [|done].
  destruct (token =? 0); [done|]. cbn [negb]. norm_storage.
  unfold log, on_ledger; cbn [ledger balances events]. by norm_storage.
Qed.

Lemma setAirdropAmount_unfold sender a w :
  setAirdropAmount sender a w =
    let d := defaultToken (ledger w) in
    if negb (sender =? owner (ledger w)) then Err Unauthorized
    else if d =? 0 then Err InvalidTokenAddress
    else Ok ((), log (AirdropConfigUpdated d (amount (config_of (ledger w) d)) a true)
                   (on_ledger (set_config d (new_config a true (config_of (ledger w) d))) w)).
Proof.
  unfold setAirdropAmount. unfold_monad. norm_storage. cbv zeta.
  destruct (sender =? owner (ledger w)); [|done]. cbn [negb]. norm_storage.
  destruct (defaultToken (ledger w) =? 0); [done|]. cbn [negb]. norm_storage.
  unfold log, on_ledger; cbn [ledger balances events]. by norm_storage.
Qed.

Lemma emergencyWithdraw_unfold this T sender token w :
  emergencyWithdraw this T sender token w =
    if negb (sender =? owner (ledger w)) then Err Unauthorized
    else if token =? 0 then Err InvalidTokenAddress
    else match balanceOf_reverts T token this w with
    | Some e => Err e
    | None =>
    if 0 <? balance_of w token this then
      match T token this sender (balance_of w token this) w with
      | Ok (true, w2) =>
          Ok ((), log (EmergencyWithdraw token sender (balance_of w token this)) w2)
      | Ok (false, _) => Err TransferFailed
      | Err e => Err e
      end
    else Ok ((), w)
    end.
Proof.
  unfold emergencyWithdraw. unfold_monad. norm_storage.
  destruct (sender =? owner (ledger w)); [|done]. cbn [negb].
  destruct (token =? 0); [done|]. cbn [negb]. norm_storage.
  destruct (balanceOf_reverts T token this w); [done|].
  destruct (0 <? balance_of w token this); [|done].
  by destruct (token_transfer T token this sender (balance_of w token this) w)
    as [[[] w2]|e].
Qed.

(** C8. Called by the owner for a non-null token, [setAirdropConfig]
    succeeds for every amount and flag, zero and [true] with zero
    included; it stores the two values, keeps [totalClaimed] and
    [totalRecipients] of the token, and leaves the configuration of every
    other token, all claimed flags, the owner, the default token and the
    balances as they were; it logs one event. *)
Theorem setAirdropConfig_overwrites_and_frames sender token a b w :
  sender = owner (ledger w) → token ≠ 0 →
  ∃ w',
    setAirdropConfig sender token a b w = Ok ((), w') ∧
    config_of (ledger w') token =
      mkConfig a b (totalClaimed (config_of (ledger w) token))
                   (totalRecipients (config_of (ledger w) token)) ∧
    (∀ t, t ≠ token → tokenConfigs (ledger w') !! t = tokenConfigs (ledger w) !! t) ∧
    hasClaimed (ledger w') = hasClaimed (ledger w) ∧
    owner (ledger w') = owner (ledger w) ∧
    defaultToken (ledger w') = defaultToken (ledger w) ∧
    entered (ledger w') = entered (ledger w) ∧
    balances w' = balances w ∧
    events w' = events w ++
      [AirdropConfigUpdated token (amount (config_of (ledger w) token)) a b].
Proof.
  intros Hs Ht. eexists. split.
  - rewrite setAirdropConfig_unfold.
    apply N.eqb_eq in Hs. apply N.eqb_neq in Ht. by rewrite Hs, Ht.
  - rewrite ledger_log, ledger_on_ledger, config_of_set_config_eq.
    split_and!; try done.
    intros t Hne. cbn. by rewrite lookup_insert_ne.
Qed.

Lemma setAirdropConfig_overwrites_and_frames_witness :
  ex_owner = owner (ledger ex_world) ∧ ex_token ≠ 0 ∧
  ∃ w', setAirdropConfig ex_owner ex_token 0 true ex_world = Ok ((), w') ∧
        config_of (ledger w') ex_token = mkConfig 0 true 0 0.
Proof.
  split; [reflexivity|]. split; [done|].
  destruct (setAirdropConfig_overwrites_and_frames ex_owner ex_token 0 true ex_world)
    as (w' & H1 & H2 & _); [reflexivity|done|].
  exists w'. split; [exact H1|]. rewrite H2. reflexivity.
Defined.

(** C9. Called by the owner for a non-null token that answers the
    balance query with zero, [emergencyWithdraw] succeeds and returns the
    world it was given: no transfer is asked of the token whatever it
    would do with one, nothing is stored and nothing is logged.  (When
    the balance query reverts, there being no contract at the address or
    the token refusing, the call reverts with it.) *)
Theorem emergencyWithdraw_of_nothing this T sender token w :
  sender = owner (ledger w) → token ≠ 0 →
  (balanceOf_reverts T token this w = None → balance_of w token this = 0 →
   emergencyWithdraw this T sender token w = Ok ((), w)) ∧
  (∀ e, balanceOf_reverts T token this w = Some e →
        emergencyWithdraw this T sender token w = Err e).
Proof.
  intros Hs Ht. rewrite emergencyWithdraw_unfold.
  apply N.eqb_eq in Hs. apply N.eqb_neq in Ht. rewrite Hs, Ht. cbn [negb].
  split; [intros -> ->|intros e ->]; done.
Qed.

Lemma emergencyWithdraw_of_nothing_witness :
  ex_owner = owner (ledger ex_drained) ∧ ex_token ≠ 0 ∧
  balance_of ex_drained ex_token ex_this = 0 ∧
  emergencyWithdraw ex_this (run_hook ex_this plain_erc20) ex_owner ex_token ex_drained
    = Ok ((), ex_drained) ∧
  emergencyWithdraw ex_this no_contract ex_owner 5 ex_world = Err ExternalRevert.
Proof.
  split; [reflexivity|]. split; [done|]. split; [by vm_compute|].
  split.
  - destruct (emergencyWithdraw_of_nothing ex_this (run_hook ex_this plain_erc20)
                ex_owner ex_token ex_drained) as [H _]; [reflexivity|done|].
    apply H; [reflexivity|by vm_compute].
  - destruct (emergencyWithdraw_of_nothing ex_this no_contract ex_owner 5 ex_world)
      as [_ H]; [reflexivity|done|].
    by apply H.
Defined.

Lemma config_of_initial_world deployer d bals :
  config_of (ledger (initial_world deployer d bals)) d = initial_config.
Proof.
  unfold config_of, initial_world; cbn [ledger tokenConfigs].
  by rewrite lookup_insert_eq.
Qed.

Lemma claim_ready_initial this deployer d bals claimant :
  d ≠ 0 →
  amount initial_config <= balance_of (initial_world deployer d bals) d this →
  claim_ready this claimant d (initial_world deployer d bals).
Proof.
  intros Hd Hb. unfold claim_ready. cbv zeta.
  rewrite config_of_initial_world.
  split; [reflexivity|]. split; [exact Hd|]. split; [reflexivity|].
  split; [reflexivity|]. split; [reflexivity|]. split; [exact Hb|].
  split; apply N.leb_le; vm_compute; reflexivity.
Qed.

(** C10. Deployed with a non-null default token, the contract starts
    with that token configured at 1,000,000,000,000 * 10^18, active, both
    totals zero, so that a claim of it succeeds at once when the custody
    covers the amount.  Later on [setAirdropAmount], which reverts for
    everyone but the owner, stores the new amount for the default token
    and sets it active, for every amount, zero included. *)
Theorem default_airdrop_configured_at_deployment
    this deployer d bals steps newAmount :
  d ≠ 0 →
  ∃ w0,
    deploy deployer d bals = Ok ((), w0) ∧
    defaultToken (ledger w0) = d ∧
    config_of (ledger w0) d = mkConfig (1000000000000 * 10 ^ 18) true 0 0 ∧
    (∀ claimant,
       1000000000000 * 10 ^ 18 <= balance_of w0 d this →
       ∃ w1, claimAirdropForToken this (run_hook this plain_erc20) claimant d w0
             = Ok ((), w1)) ∧
    let w := run this steps w0 in
    let c := config_of (ledger w) d in
    (∀ sender, sender ≠ owner (ledger w) →
               setAirdropAmount sender newAmount w = Err Unauthorized) ∧
    ∃ w', setAirdropAmount (owner (ledger w)) newAmount w = Ok ((), w') ∧
          config_of (ledger w') d =
            mkConfig newAmount true (totalClaimed c) (totalRecipients c).
Proof.
  intros Hd. exists (initial_world deployer d bals).
  split.
  { rewrite deploy_unfold. apply N.eqb_neq in Hd. by rewrite Hd. }
  split; [done|]. split; [apply config_of_initial_world|].
  split.
  { intros claimant Hb.
    rewrite (claim_ready_unfold this); [|by apply claim_ready_initial|done].
    rewrite config_of_initial_world.
    change (token_transfer (run_hook this plain_erc20))
      with (run_script this false plain_erc20).
    cbn [run_script plain_erc20 spend negb]. unfold move.
    change (balance_of (claim_mid claimant d (initial_world deployer d bals)) d this)
      with (balance_of (initial_world deployer d bals) d this).
    apply N.leb_le in Hb.
    change (amount initial_config) with (1000000000000 * 10 ^ 18).
    rewrite Hb. by eexists. }
  cbv zeta.
  destruct (run_evolves this steps (initial_world deployer d bals)) as [_ D _ _].
  cbn [initial_world ledger defaultToken] in D.
  split.
  - intros sender Hs. rewrite setAirdropAmount_unfold. cbv zeta.
    apply N.eqb_neq in Hs. by rewrite Hs.
  - eexists. split.
    + rewrite setAirdropAmount_unfold. cbv zeta.
      rewrite N.eqb_refl, D. apply N.eqb_neq in Hd. by rewrite Hd.
    + by rewrite ledger_log, ledger_on_ledger, config_of_set_config_eq.
Qed.

Lemma default_airdrop_configured_at_deployment_witness :
  ex_token ≠ 0 ∧
  ∃ w0, deploy ex_owner ex_token (balances ex_world) = Ok ((), w0) ∧
        config_of (ledger w0) ex_token = mkConfig (1000000000000 * 10 ^ 18) true 0 0.
Proof.
  split; [done|].
  destruct (default_airdrop_configured_at_deployment ex_this ex_owner ex_token
              (balances ex_world) ex_steps 0) as (w0 & H1 & _ & H2 & _); [done|].
  exists w0. by split.
Defined.

(** * Further properties of the contract *)

(** ** Only the owner administers *)

Lemma onlyOwner_rejects {A} sender (k : M A) w :
  sender ≠ owner (ledger w) →
  (onlyOwner sender;; k) w = Err Unauthorized.
Proof.
  intros Hs. unfold_monad. apply N.eqb_neq in Hs. by rewrite Hs.
Qed.

(** X1. Whoever is not the owner cannot run any state-changing function
    but the two claims: each of the others reverts with Ownable's reason
    before it reads its arguments, whatever the token, and the
    transaction leaves the world as it was. *)
Theorem admin_calls_need_the_owner this T sender c w :
  is_admin_call c = true →
  sender ≠ owner (ledger w) →
  exec this T sender c w = Err Unauthorized ∧
  ∀ h, apply_tx this w (mkTx sender c h) = w.
Proof.
  intros Hc Hs.
  assert (H : ∀ T', exec this T' sender c w = Err Unauthorized).
  { intros T'. destruct c; try discriminate Hc; cbn [exec];
      by apply onlyOwner_rejects. }
  split; [apply H|].
  intros h. unfold apply_tx. cbn [tx_hook tx_sender tx_call]. by rewrite H.
Qed.

Lemma admin_calls_need_the_owner_witness :
  is_admin_call (CallRescueAllTokens ex_token 1) = true ∧
  1 ≠ owner (ledger ex_world) ∧
  exec ex_this (run_hook ex_this plain_erc20) 1 (CallRescueAllTokens ex_token 1) ex_world
    = Err Unauthorized.
Proof.
  split; [reflexivity|]. split; [done|].
  destruct (admin_calls_need_the_owner ex_this (run_hook ex_this plain_erc20) 1
              (CallRescueAllTokens ex_token 1) ex_world) as [H _];
    [reflexivity|done|exact H].
Defined.

(** ** A plain ERC20 *)

Lemma move_unfold token from to amt w :
  move token from to amt w =
    if amt <=? balance_of w token from then Ok ((), moved token from to amt w)
    else Err ExternalRevert.
Proof. reflexivity. Qed.

Lemma plain_erc20_unfold this token from to amt w :
  run_hook this plain_erc20 token from to amt w =
    if amt <=? balance_of w token from then Ok (true, moved token from to amt w)
    else Err ExternalRevert.
Proof.
  change (token_transfer (run_hook this plain_erc20))
    with (run_script this false plain_erc20).
  cbn [run_script plain_erc20 spend negb]. rewrite move_unfold.
  by destruct (amt <=? balance_of w token from).
Qed.

(** The world after [from] has had [amt] taken off what it allows
    [spender]. *)
Lemma spend_unfold token from spender amt w :
  spend true token from spender amt w =
    let allowed := allowance_of w token from spender in
    if allowed =? MAX_UINT256 then Ok ((), w)
    else if amt <=? allowed then Ok ((), spent token from spender amt w)
    else Err ExternalRevert.
Proof. reflexivity. Qed.

Lemma plain_erc20_pull_unfold this token from to amt w :
  token_transferFrom (run_hook this plain_erc20) token from to amt w =
    match spend true token from this amt w with
    | Ok (_, w1) =>
        if amt <=? balance_of w1 token from then Ok (true, moved token from to amt w1)
        else Err ExternalRevert
    | Err e => Err e
    end.
Proof.
  change (token_transferFrom (run_hook this plain_erc20))
    with (run_script this true plain_erc20).
  cbn [run_script plain_erc20].
  destruct (spend true token from this amt w) as [[[] w1]|e]; [|done].
  rewrite move_unfold. by destruct (amt <=? balance_of w1 token from).
Qed.

(** Balances after a move: the payer is debited, the payee credited, in
    that order, and nobody else is touched. *)
Lemma balance_of_moved token from to amt w t h :
  amt <= balance_of w token from →
  balance_of (moved token from to amt w) t h =
    if decide (t = token) then
      (if decide (h = from) then balance_of w t h - amt else balance_of w t h)
      + (if decide (h = to) then amt else 0)
    else balance_of w t h.
Proof.
  intros Hle. unfold moved, balance_of at 1. cbn [balances].
  rewrite !lookup_insert.
  fold (balance_of w t h). fold (balance_of w token to).
  repeat case_decide; simplify_eq; cbn [default];
    cbn [id]; unfold balance_of in *; first [lia|congruence].
Qed.

Lemma ledger_moved token from to amt w : ledger (moved token from to amt w) = ledger w.
Proof. reflexivity. Qed.

Lemma events_moved token from to amt w : events (moved token from to amt w) = events w.
Proof. reflexivity. Qed.

(** ** The funds functions as decision lists *)

Lemma depositTokens_unfold this T sender token a w :
  depositTokens this T sender token a w =
    if negb (sender =? owner (ledger w)) then Err Unauthorized
    else if token =? 0 then Err InvalidTokenAddress
    else if negb (0 <? a) then Err AmountZero
    else match token_transferFrom T token sender this a w with
         | Ok (true, w2) => Ok ((), log (TokensDeposited token sender a) w2)
         | Ok (false, _) => Err TransferFailed
         | Err e => Err e
         end.
Proof.
  unfold depositTokens. unfold_monad. norm_storage.
  destruct (sender =? owner (ledger w)); [|done]. cbn [negb].
  destruct (token =? 0); [done|]. cbn [negb].
  destruct (0 <? a); [|done]. cbn [negb].
  by destruct (token_transferFrom T token sender this a w) as [[[] w2]|e].
Qed.

Lemma withdrawTokens_unfold this T sender token a w :
  withdrawTokens this T sender token a w =
    if negb (sender =? owner (ledger w)) then Err Unauthorized
    else if token =? 0 then Err InvalidTokenAddress
    else if negb (0 <? a) then Err AmountZero
    else match balanceOf_reverts T token this w with
    | Some e => Err e
    | None =>
    if negb (a <=? balance_of w token this) then Err InsufficientBalance
    else match T token this sender a w with
         | Ok (true, w2) => Ok ((), log (TokensWithdrawn token sender a) w2)
         | Ok (false, _) => Err TransferFailed
         | Err e => Err e
         end
    end.
Proof.
  unfold withdrawTokens. unfold_monad. norm_storage.
  destruct (sender =? owner (ledger w)); [|done]. cbn [negb].
  destruct (token =? 0); [done|]. cbn [negb].
  destruct (0 <? a); [|done]. cbn [negb]. norm_storage.
  destruct (balanceOf_reverts T token this w); [done|].
  destruct (a <=? balance_of w token this); [|done]. cbn [negb].
  by destruct (token_transfer T token this sender a w) as [[[] w2]|e].
Qed.

Lemma rescueTokens_unfold this T sender token to a w :
  rescueTokens this T sender token to a w =
    if negb (sender =? owner (ledger w)) then Err Unauthorized
    else if token =? 0 then Err InvalidTokenAddress
    else if to =? 0 then Err InvalidRecipient
    else if negb (0 <? a) then Err AmountZero
    else match balanceOf_reverts T token this w with
    | Some e => Err e
    | None =>
    if negb (a <=? balance_of w token this) then Err InsufficientBalance
    else match T token this to a w with
         | Ok (true, w2) => Ok ((), log (TokensRescued token to a) w2)
         | Ok (false, _) => Err TransferFailed
         | Err e => Err e
         end
    end.
Proof.
  unfold rescueTokens. unfold_monad. norm_storage.
  destruct (sender =? owner (ledger w)); [|done]. cbn [negb].
  destruct (token =? 0); [done|]. cbn [negb].
  destruct (to =? 0); [done|]. cbn [negb].
  destruct (0 <? a); [|done]. cbn [negb]. norm_storage.
  destruct (balanceOf_reverts T token this w); [done|].
  destruct (a <=? balance_of w token this); [|done]. cbn [negb].
  by destruct (token_transfer T token this to a w) as [[[] w2]|e].
Qed.

Lemma rescueAllTokens_unfold this T sender token to w :
  rescueAllTokens this T sender token to w =
    if negb (sender =? owner (ledger w)) then Err Unauthorized
    else if token =? 0 then Err InvalidTokenAddress
    else if to =? 0 then Err InvalidRecipient
    else match balanceOf_reverts T token this w with
    | Some e => Err e
    | None =>
    if 0 <? balance_of w token this then
      match T token this to (balance_of w token this) w with
      | Ok (true, w2) =>
          Ok ((), log (TokensRescued token to (balance_of w token this)) w2)
      | Ok (false, _) => Err TransferFailed
      | Err e => Err e
      end
    else Ok ((), w)
    end.
Proof.
  unfold rescueAllTokens. unfold_monad. norm_storage.
  destruct (sender =? owner (ledger w)); [|done]. cbn [negb].
  destruct (token =? 0); [done|]. cbn [negb].
  destruct (to =? 0); [done|]. cbn [negb]. norm_storage.
  destruct (balanceOf_reverts T token this w); [done|].
  destruct (0 <? balance_of w token this); [|done].
  by destruct (token_transfer T token this to (balance_of w token this) w)
    as [[[] w2]|e].
Qed.

(** ** Withdrawing, depositing, rescuing *)

(** X2. [withdrawTokens], called by the owner for a non-null token served
    by a plain ERC20: a zero amount is refused, then an amount above the
    custody; otherwise exactly the amount leaves the custody for the
    owner, nobody else's balance and nothing in storage changes, and one
    [TokensWithdrawn] event is logged. *)
Theorem withdrawTokens_pays_the_owner this sender token a w :
  sender = owner (ledger w) → token ≠ 0 →
  let r := withdrawTokens this (run_hook this plain_erc20) sender token a w in
  (a = 0 → r = Err AmountZero) ∧
  (0 < a → balance_of w token this < a → r = Err InsufficientBalance) ∧
  (0 < a → a <= balance_of w token this →
   ∃ w', r = Ok ((), w') ∧
     ledger w' = ledger w ∧
     events w' = events w ++ [TokensWithdrawn token sender a] ∧
     (sender ≠ this →
      balance_of w' token this = balance_of w token this - a ∧
      balance_of w' token sender = balance_of w token sender + a) ∧
     (∀ t h, (t, h) ≠ (token, this) → (t, h) ≠ (token, sender) →
             balance_of w' t h = balance_of w t h)).
Proof.
  intros Hs Ht. cbv zeta. rewrite withdrawTokens_unfold, plain_erc20_unfold.
  apply N.eqb_eq in Hs. apply N.eqb_neq in Ht. rewrite Hs, Ht. cbn [negb].
  split; [by intros ->|]. split.
  - intros Ha Hb. apply N.ltb_lt in Ha. apply N.leb_gt in Hb. by rewrite Ha, Hb.
  - intros Ha Hb. pose proof Hb as Hb'.
    apply N.ltb_lt in Ha. apply N.leb_le in Hb. rewrite Ha, Hb. cbn [negb].
    eexists. split; [done|]. rewrite ledger_log.
    split; [done|]. split; [done|]. split.
    + intros Hne. rewrite !balance_of_log, !balance_of_moved by done.
      split; repeat case_decide; simplify_eq; lia.
    + intros t h H1 H2. rewrite balance_of_log, balance_of_moved by done.
      repeat case_decide; simplify_eq; lia.
Qed.

Lemma withdrawTokens_pays_the_owner_witness :
  ex_owner = owner (ledger ex_world) ∧ ex_token ≠ 0 ∧
  ∃ w', withdrawTokens ex_this (run_hook ex_this plain_erc20) ex_owner ex_token 5 ex_world
        = Ok ((), w') ∧
        balance_of w' ex_token ex_owner = balance_of ex_world ex_token ex_owner + 5.
Proof.
  split; [reflexivity|]. split; [done|].
  destruct (withdrawTokens_pays_the_owner ex_this ex_owner ex_token 5 ex_world)
    as (_ & _ & H); [reflexivity|done|].
  destruct H as (w' & Hr & _ & _ & Hb & _); [reflexivity|by vm_compute|].
  exists w'. split; [exact Hr|]. apply Hb. done.
Defined.

Lemma withdraw_after_deposit this sender token a w :
  sender = owner (ledger w) → token ≠ 0 → 0 < a →
  a <= balance_of w token sender →
  let w1 := log (TokensDeposited token sender a) (moved token sender this a w) in
  ∃ w2,
    withdrawTokens this (run_hook this plain_erc20) sender token a w1 = Ok ((), w2) ∧
    (sender ≠ this → balance_of w1 token this = balance_of w token this + a) ∧
    (∀ t h, balance_of w2 t h = balance_of w t h) ∧
    allowances w2 = allowances w ∧
    ledger w2 = ledger w ∧
    events w2 = events w ++ [TokensDeposited token sender a; TokensWithdrawn token sender a].
Proof.
  intros Hs Ht Ha Hb. cbv zeta.
  assert (Hcustody : ∀ t h,
    balance_of (moved token sender this a w) t h =
      if decide (t = token) then
        (if decide (h = sender) then balance_of w t h - a else balance_of w t h)
        + (if decide (h = this) then a else 0)
      else balance_of w t h) by (intros; by apply balance_of_moved).
  assert (Hback : a <= balance_of (log (TokensDeposited token sender a)
                                      (moved token sender this a w)) token this).
  { rewrite balance_of_log, Hcustody. repeat case_decide; simplify_eq; lia. }
  eexists. split.
  { rewrite withdrawTokens_unfold, plain_erc20_unfold, ledger_log, ledger_moved.
    apply N.eqb_eq in Hs. apply N.eqb_neq in Ht. apply N.ltb_lt in Ha.
    rewrite Hs, Ht, Ha. cbn [negb]. apply N.leb_le in Hback.
    by rewrite Hback. }
  split.
  { intros Hne. rewrite balance_of_log, Hcustody.
    repeat case_decide; simplify_eq; lia. }
  split.
  { intros t h. rewrite balance_of_log, balance_of_moved by done.
    rewrite !balance_of_log, !Hcustody.
    repeat case_decide; simplify_eq; lia. }
  split; [done|]. split; [done|].
  cbn [events log moved]. by rewrite <- app_assoc.
Qed.

Lemma allowance_of_spent token from spender amt w t h s :
  allowance_of (spent token from spender amt w) t h s =
    if decide ((t, h, s) = (token, from, spender))
    then allowance_of w token from spender - amt
    else allowance_of w t h s.
Proof.
  unfold spent, allowance_of at 1. cbn [allowances].
  rewrite lookup_insert. by repeat case_decide; simplify_eq.
Qed.

(** X3. A deposit followed by a withdrawal of the same amount, both by
    the owner through a plain ERC20, the owner holding the amount.  When
    the owner has allowed the contract less than the amount, the deposit
    reverts.  When the owner has allowed it the amount or more, both
    calls succeed, every balance is back where it was, the allowance is
    spent by the amount (an unlimited one stays), storage is untouched,
    and the log has gained the two events. *)
Theorem deposit_then_withdraw_round_trip this sender token a w :
  sender = owner (ledger w) → token ≠ 0 → 0 < a →
  a <= balance_of w token sender →
  let allowed := allowance_of w token sender this in
  let deposit := depositTokens this (run_hook this plain_erc20) sender token a w in
  (allowed < a → a <= MAX_UINT256 → deposit = Err ExternalRevert) ∧
  (a <= allowed →
   ∃ w1 w2,
     deposit = Ok ((), w1) ∧
     withdrawTokens this (run_hook this plain_erc20) sender token a w1 = Ok ((), w2) ∧
     (sender ≠ this → balance_of w1 token this = balance_of w token this + a) ∧
     (∀ t h, balance_of w2 t h = balance_of w t h) ∧
     allowance_of w2 token sender this =
       (if allowed =? MAX_UINT256 then allowed else allowed - a) ∧
     (∀ t h s, (t, h, s) ≠ (token, sender, this) →
               allowance_of w2 t h s = allowance_of w t h s) ∧
     ledger w2 = ledger w ∧
     events w2 = events w ++
       [TokensDeposited token sender a; TokensWithdrawn token sender a]).
Proof.
  intros Hs Ht Ha Hb. cbv zeta.
  rewrite depositTokens_unfold, plain_erc20_pull_unfold, spend_unfold. cbv zeta.
  pose proof Hs as Hs'. pose proof Ht as Ht'. pose proof Ha as Ha'.
  apply N.eqb_eq in Hs'. apply N.eqb_neq in Ht'. apply N.ltb_lt in Ha'.
  rewrite Hs', Ht', Ha'. cbn [negb]. split.
  - intros Hlow Hmax.
    assert ((allowance_of w token sender this =? MAX_UINT256) = false) as ->
      by (apply N.eqb_neq; lia).
    assert ((a <=? allowance_of w token sender this) = false) as ->
      by (apply N.leb_gt; lia).
    done.
  - intros Hallowed.
    destruct (allowance_of w token sender this =? MAX_UINT256) eqn:Hmax.
    + destruct (withdraw_after_deposit this sender token a w Hs Ht Ha Hb)
        as (w2 & H1 & H2 & H3 & H4 & H5 & H6).
      apply N.leb_le in Hb. rewrite Hb.
      eexists _, w2. split; [done|]. split; [exact H1|]. split; [exact H2|].
      split; [exact H3|]. unfold allowance_of. rewrite H4.
      split; [done|]. split; [done|]. by split.
    + apply N.leb_le in Hallowed. rewrite Hallowed.
      destruct (withdraw_after_deposit this sender token a
                  (spent token sender this a w) Hs Ht Ha Hb)
        as (w2 & H1 & H2 & H3 & H4 & H5 & H6).
      change (balance_of (spent token sender this a w) token sender)
        with (balance_of w token sender).
      apply N.leb_le in Hb. rewrite Hb.
      eexists _, w2. split; [done|]. split; [exact H1|]. split; [exact H2|].
      split; [exact H3|].
      assert (Hallow : ∀ t h s, allowance_of w2 t h s =
                allowance_of (spent token sender this a w) t h s)
        by (intros; unfold allowance_of; by rewrite H4).
      split; [by rewrite Hallow, allowance_of_spent, decide_True|].
      split; [intros t h s Hne; by rewrite Hallow, allowance_of_spent, decide_False|].
      by split.
Qed.

Lemma deposit_then_withdraw_round_trip_witness :
  ex_owner = owner (ledger ex_approved) ∧ ex_token ≠ 0 ∧ 0 < 3 ∧
  3 <= balance_of ex_approved ex_token ex_owner ∧
  3 <= allowance_of ex_approved ex_token ex_owner ex_this ∧
  depositTokens ex_this (run_hook ex_this plain_erc20) ex_owner ex_token 3
    ex_handed_back = Err ExternalRevert ∧
  ∃ w1 w2,
    depositTokens ex_this (run_hook ex_this plain_erc20) ex_owner ex_token 3
      ex_approved = Ok ((), w1) ∧
    withdrawTokens ex_this (run_hook ex_this plain_erc20) ex_owner ex_token 3 w1
      = Ok ((), w2) ∧
    balance_of w2 ex_token ex_this = balance_of ex_approved ex_token ex_this ∧
    allowance_of w2 ex_token ex_owner ex_this = 1.
Proof.
  split; [reflexivity|]. split; [done|]. split; [done|].
  split; [by vm_compute|]. split; [by vm_compute|].
  split.
  - destruct (deposit_then_withdraw_round_trip ex_this ex_owner ex_token 3
                ex_handed_back) as (H & _);
      [reflexivity|done|done|by vm_compute|].
    apply H; by vm_compute.
  - destruct (deposit_then_withdraw_round_trip ex_this ex_owner ex_token 3 ex_approved)
      as (_ & H); [reflexivity|done|done|by vm_compute|].
    destruct H as (w1 & w2 & H1 & H2 & _ & H3 & H4 & _); [by vm_compute|].
    exists w1, w2. split; [exact H1|]. split; [exact H2|]. split; [apply H3|].
    rewrite H4. reflexivity.
Defined.

(** X4. [emergencyWithdraw] of a token the contract holds, by the owner
    through a plain ERC20: the whole custody goes to the owner, storage
    is untouched, one [EmergencyWithdraw] event carries the amount; and
    from then on a claim of that token which passes the first four
    requirements reverts for lack of funds. *)
Theorem emergencyWithdraw_drains_the_airdrop this sender token w :
  reachable this w →
  sender = owner (ledger w) → token ≠ 0 → sender ≠ this →
  0 < balance_of w token this →
  ∃ w',
    emergencyWithdraw this (run_hook this plain_erc20) sender token w = Ok ((), w') ∧
    balance_of w' token this = 0 ∧
    balance_of w' token sender = balance_of w token sender + balance_of w token this ∧
    ledger w' = ledger w ∧
    events w' = events w ++ [EmergencyWithdraw token sender (balance_of w token this)] ∧
    ∀ claimant h,
      claimed_by (ledger w) token claimant = false →
      isActive (config_of (ledger w) token) = true →
      0 < amount (config_of (ledger w) token) →
      claim_result this h claimant token w' = Err InsufficientFunds.
Proof.
  intros Hw Hs Ht Hne Hb.
  apply reachable_invariants in Hw as (He & _ & _).
  set (w' := log (EmergencyWithdraw token sender (balance_of w token this))
                 (moved token this sender (balance_of w token this) w)).
  assert (Hzero : balance_of w' token this = 0).
  { unfold w'. rewrite balance_of_log, balance_of_moved by lia.
    repeat case_decide; simplify_eq; lia. }
  exists w'. split.
  { rewrite emergencyWithdraw_unfold, plain_erc20_unfold.
    apply N.eqb_eq in Hs. apply N.eqb_neq in Ht. apply N.ltb_lt in Hb.
    by rewrite Hs, Ht, Hb, N.leb_refl. }
  split; [exact Hzero|]. split.
  { unfold w'. rewrite balance_of_log, balance_of_moved by lia.
    repeat case_decide; simplify_eq; lia. }
  split; [done|]. split; [done|].
  intros claimant h Hc Ha Hp. unfold claim_result.
  rewrite claimAirdropForToken_unfold. cbv zeta.
  change (ledger w') with (ledger w). rewrite He, Hc, Ha, Hzero.
  apply N.eqb_neq in Ht. rewrite Ht. cbn [negb].
  assert (Hle : (amount (config_of (ledger w) token) <=? 0) = false)
    by (apply N.leb_gt; lia).
  apply N.ltb_lt in Hp. by rewrite Hp, Hle.
Qed.

Lemma emergencyWithdraw_drains_the_airdrop_witness :
  reachable ex_this ex_world ∧ ex_owner = owner (ledger ex_world) ∧ ex_token ≠ 0 ∧
  ex_owner ≠ ex_this ∧ 0 < balance_of ex_world ex_token ex_this ∧
  ∃ w', emergencyWithdraw ex_this (run_hook ex_this plain_erc20) ex_owner ex_token
          ex_world = Ok ((), w') ∧
        claim_result ex_this plain_erc20 1 ex_token w' = Err InsufficientFunds.
Proof.
  split; [exact ex_world_reachable|]. split; [reflexivity|]. split; [done|].
  split; [done|]. split; [reflexivity|].
  destruct (emergencyWithdraw_drains_the_airdrop ex_this ex_owner ex_token ex_world)
    as (w' & Hr & _ & _ & _ & _ & Hclaim);
    [exact ex_world_reachable|reflexivity|done|done|reflexivity|].
  exists w'. split; [exact Hr|].
  apply Hclaim; reflexivity.
Defined.

(** X5. [rescueTokens], called by the owner for a non-null token served
    by a plain ERC20, checks in this order the recipient, the amount and
    the custody, and reports the first that fails; it succeeds exactly
    when all three pass, and then credits the recipient with the amount.
    No token is exempt: the token configured for the airdrop is rescued
    like any other. *)
Theorem rescueTokens_checks_then_pays this sender token to a w :
  sender = owner (ledger w) → token ≠ 0 →
  let r := rescueTokens this (run_hook this plain_erc20) sender token to a w in
  (r = Err InvalidRecipient ↔ to = 0) ∧
  (r = Err AmountZero ↔ to ≠ 0 ∧ a = 0) ∧
  (r = Err InsufficientBalance ↔ to ≠ 0 ∧ 0 < a ∧ balance_of w token this < a) ∧
  ((∃ w', r = Ok ((), w')) ↔ to ≠ 0 ∧ 0 < a ∧ a <= balance_of w token this) ∧
  (∀ w', r = Ok ((), w') →
     ledger w' = ledger w ∧
     events w' = events w ++ [TokensRescued token to a] ∧
     (to ≠ this →
      balance_of w' token to = balance_of w token to + a ∧
      balance_of w' token this = balance_of w token this - a)).
Proof.
  intros Hs Ht. cbv zeta. rewrite rescueTokens_unfold, plain_erc20_unfold.
  apply N.eqb_eq in Hs. apply N.eqb_neq in Ht. rewrite Hs, Ht. cbn [negb].
  assert (Hpaid : ∀ w',
    Ok ((), log (TokensRescued token to a) (moved token this to a w)) = Ok ((), w') →
    a <= balance_of w token this →
    ledger w' = ledger w ∧
    events w' = events w ++ [TokensRescued token to a] ∧
    (to ≠ this →
     balance_of w' token to = balance_of w token to + a ∧
     balance_of w' token this = balance_of w token this - a)).
  { intros w' [= <-] Hb. rewrite ledger_log. split; [done|]. split; [done|].
    intros Hne. rewrite !balance_of_log, !balance_of_moved by done.
    split; repeat case_decide; simplify_eq; lia. }
  destruct (to =? 0) eqn:Hto; destruct (0 <? a) eqn:Ha;
    destruct (a <=? balance_of w token this) eqn:Hb;
    cbn [negb]; bool_to_prop;
    (split_and!;
     [ split; intros; destruct_and?; first [done|congruence|lia]
     | split; intros; destruct_and?; first [done|congruence|lia]
     | split; intros; destruct_and?; first [done|congruence|lia]
     | split; [intros [w' ?]|intros; destruct_and?];
         first [done|congruence|lia|by eexists]
     | intros w' Hr; first [done|by apply Hpaid] ]).
Qed.

Lemma rescueTokens_checks_then_pays_witness :
  ex_owner = owner (ledger ex_world) ∧ ex_token ≠ 0 ∧
  rescueTokens ex_this (run_hook ex_this plain_erc20) ex_owner ex_token 0 5 ex_world
    = Err InvalidRecipient.
Proof.
  split; [reflexivity|]. split; [done|].
  destruct (rescueTokens_checks_then_pays ex_this ex_owner ex_token 0 5 ex_world)
    as (H & _); [reflexivity|done|].
  apply H. reflexivity.
Defined.

(** X6. [rescueAllTokens], called by the owner for a non-null token
    served by a plain ERC20: a null recipient is refused; with nothing
    in custody the call succeeds and does nothing; otherwise the whole
    custody goes to the recipient, storage is untouched and one
    [TokensRescued] event carries the amount. *)
Theorem rescueAllTokens_empties_the_custody this sender token to w :
  sender = owner (ledger w) → token ≠ 0 →
  let r := rescueAllTokens this (run_hook this plain_erc20) sender token to w in
  (to = 0 → r = Err InvalidRecipient) ∧
  (to ≠ 0 → balance_of w token this = 0 → r = Ok ((), w)) ∧
  (to ≠ 0 → to ≠ this → 0 < balance_of w token this →
   ∃ w', r = Ok ((), w') ∧
     balance_of w' token this = 0 ∧
     balance_of w' token to = balance_of w token to + balance_of w token this ∧
     ledger w' = ledger w ∧
     events w' = events w ++ [TokensRescued token to (balance_of w token this)]).
Proof.
  intros Hs Ht. cbv zeta. rewrite rescueAllTokens_unfold, plain_erc20_unfold.
  apply N.eqb_eq in Hs. apply N.eqb_neq in Ht. rewrite Hs, Ht. cbn [negb].
  split; [by intros ->|]. split.
  - intros Hto Hb. apply N.eqb_neq in Hto. by rewrite Hto, Hb.
  - intros Hto Hne Hb. apply N.eqb_neq in Hto. pose proof Hb as Hb'.
    apply N.ltb_lt in Hb. rewrite Hto, Hb, N.leb_refl.
    eexists. split; [done|].
    rewrite !balance_of_log, !balance_of_moved, ledger_log by lia.
    split_and!; try done; repeat case_decide; simplify_eq; lia.
Qed.

Lemma rescueAllTokens_empties_the_custody_witness :
  ex_owner = owner (ledger ex_world) ∧ ex_token ≠ 0 ∧
  ∃ w', rescueAllTokens ex_this (run_hook ex_this plain_erc20) ex_owner ex_token 5
          ex_world = Ok ((), w') ∧
        balance_of w' ex_token ex_this = 0.
Proof.
  split; [reflexivity|]. split; [done|].
  destruct (rescueAllTokens_empties_the_custody ex_this ex_owner ex_token 5 ex_world)
    as (_ & _ & H); [reflexivity|done|].
  destruct H as (w' & Hr & Hz & _); [done|done|reflexivity|].
  exists w'. by split.
Defined.

(** ** What the funds functions leave alone *)

Lemma run_hook_same_storage this h :
  hook_calls h = [] → preserved_by same_storage (run_hook this h).
Proof.
  intros Hh.
  apply (run_hook_preserves same_storage (λ _, False)); unfold same_storage.
  - by intros w.
  - intros w1 w2 w3 [] []. split; congruence.
  - by intros w w' -> ->.
  - by intros T _ sender c w w' [].
  - by rewrite Hh.
Qed.

(** X7. The deposit, withdraw and rescue functions never write the
    contract's storage: served by a token that does not call back, a
    successful one leaves owner, default token, configurations, totals
    and claimed flags exactly as they were, and logs at most its one
    event. *)
Theorem funds_functions_leave_storage_alone this h sender c w w' :
  is_funds_call c = true →
  hook_calls h = [] →
  exec this (run_hook this h) sender c w = Ok ((), w') →
  ledger w' = ledger w ∧
  (events w' = events w ∨ ∃ e, events w' = events w ++ [e]).
Proof.
  intros Hc Hh H. apply exec_funds_inv in H; [|done].
  destruct (funds_transfer this sender c w) as [[[[tk fr] rc] am]|].
  - destruct H as (w2 & e & H2 & ->).
    apply run_hook_same_storage in H2 as [E1 E2]; [|done].
    rewrite ledger_log. split; [done|]. right. exists e.
    cbn [events log]. by rewrite E2.
  - subst w'. split; [done|by left].
Qed.

Lemma funds_functions_leave_storage_alone_witness :
  is_funds_call (CallWithdrawTokens ex_token 5) = true ∧
  hook_calls plain_erc20 = [] ∧
  exec ex_this (run_hook ex_this plain_erc20) ex_owner (CallWithdrawTokens ex_token 5)
    ex_world = Ok ((), ex_handed_back) ∧
  ledger ex_handed_back = ledger ex_world.
Proof.
  assert (H : exec ex_this (run_hook ex_this plain_erc20) ex_owner
                (CallWithdrawTokens ex_token 5) ex_world = Ok ((), ex_handed_back))
    by (vm_compute; reflexivity).
  split; [reflexivity|]. split; [reflexivity|]. split; [exact H|].
  destruct (funds_functions_leave_storage_alone ex_this plain_erc20 ex_owner
              (CallWithdrawTokens ex_token 5) ex_world ex_handed_back)
    as [E _]; [reflexivity|reflexivity|exact H|exact E].
Defined.

Lemma depositTokens_default_eq this T sender a w :
  depositTokens_default this T sender a w =
  depositTokens this T sender (defaultToken (ledger w)) a w.
Proof.
  unfold depositTokens_default. unfold_monad.
  rewrite depositTokens_unfold.
  destruct (sender =? owner (ledger w)); [|done]. cbn [negb].
  destruct (defaultToken (ledger w) =? 0); [done|]. cbn [negb].
  destruct (0 <? a); [|done]. cbn [negb].
  by destruct (token_transferFrom T _ _ _ _ w) as [[[] w2]|e].
Qed.

Lemma withdrawTokens_default_eq this T sender a w :
  withdrawTokens_default this T sender a w =
  withdrawTokens this T sender (defaultToken (ledger w)) a w.
Proof.
  unfold withdrawTokens_default. unfold_monad.
  rewrite withdrawTokens_unfold.
  destruct (sender =? owner (ledger w)); [|done]. cbn [negb].
  destruct (defaultToken (ledger w) =? 0); [done|]. cbn [negb].
  destruct (0 <? a); [|done]. cbn [negb].
  destruct (balanceOf_reverts T _ _ w); [done|].
  destruct (a <=? balance_of w (defaultToken (ledger w)) this); [|done].
  cbn [negb].
  by destruct (token_transfer T _ _ _ _ w) as [[[] w2]|e].
Qed.

Lemma emergencyWithdraw_default_eq this T sender w :
  emergencyWithdraw_default this T sender w =
  emergencyWithdraw this T sender (defaultToken (ledger w)) w.
Proof.
  unfold emergencyWithdraw_default. unfold_monad.
  rewrite emergencyWithdraw_unfold.
  destruct (sender =? owner (ledger w)); [|done]. cbn [negb].
  destruct (defaultToken (ledger w) =? 0); [done|]. cbn [negb].
  destruct (balanceOf_reverts T _ _ w); [done|].
  destruct (0 <? balance_of w (defaultToken (ledger w)) this); [|done].
  by destruct (token_transfer T _ _ _ _ w) as [[[] w2]|e].
Qed.

(** A token that refuses the balance query makes the calls that ask it
    revert and changes nothing else: every call that goes through with
    [T] goes through alike when the query is answered. *)
Lemma refused_balance_query_only_reverts this T sender c w r :
  exec this T sender c w = Ok r → exec this (answering T) sender c w = Ok r.
Proof.
  destruct c; cbn [exec]; try done.
  - rewrite !claimAirdropForToken_unfold. cbv zeta.
    cbn [answering balanceOf_reverts token_transfer].
    by destruct (balanceOf_reverts T token this (guarded w));
      repeat match goal with |- context [if ?b then _ else _] => destruct b end.
  - rewrite !withdrawTokens_unfold. cbn [answering balanceOf_reverts token_transfer].
    by destruct (balanceOf_reverts T token this w);
      repeat match goal with |- context [if ?b then _ else _] => destruct b end.
  - rewrite !withdrawTokens_default_eq, !withdrawTokens_unfold.
    cbn [answering balanceOf_reverts token_transfer].
    by destruct (balanceOf_reverts T (defaultToken (ledger w)) this w);
      repeat match goal with |- context [if ?b then _ else _] => destruct b end.
  - rewrite !emergencyWithdraw_unfold.
    cbn [answering balanceOf_reverts token_transfer].
    by destruct (balanceOf_reverts T token this w);
      repeat match goal with |- context [if ?b then _ else _] => destruct b end.
  - rewrite !emergencyWithdraw_default_eq, !emergencyWithdraw_unfold.
    cbn [answering balanceOf_reverts token_transfer].
    by destruct (balanceOf_reverts T (defaultToken (ledger w)) this w);
      repeat match goal with |- context [if ?b then _ else _] => destruct b end.
  - rewrite !rescueTokens_unfold. cbn [answering balanceOf_reverts token_transfer].
    by destruct (balanceOf_reverts T token this w);
      repeat match goal with |- context [if ?b then _ else _] => destruct b end.
  - rewrite !rescueAllTokens_unfold. cbn [answering balanceOf_reverts token_transfer].
    by destruct (balanceOf_reverts T token this w);
      repeat match goal with |- context [if ?b then _ else _] => destruct b end.
Qed.


(** ** Relations kept by every step *)

(** A relation kept by whatever the tokens do to their own state, inside
    a call or outside, and by every allowed call is kept by every run
    whose calls are allowed. *)
Lemma run_preserves (R : relation World) (allowed : Call → Prop) this :
  Reflexive R → Transitive R →
  (∀ w w', ledger w' = ledger w → events w' = events w → R w w') →
  (∀ T, preserved_by R T →
        ∀ sender c w w', allowed c → exec this T sender c w = Ok ((), w') → R w w') →
  ∀ steps w, Forall (λ st, Forall allowed (step_calls st)) steps →
             R w (run this steps w).
Proof.
  intros Hrefl Htrans Htoken Hexec steps w Hsteps. revert w.
  induction Hsteps as [|st steps Hst _ IH]; intros w; [reflexivity|].
  rewrite run_cons. transitivity (apply_step this w st); [|apply IH].
  destruct st as [tx|bals|allow]; cbn [apply_step step_calls] in *;
    [|by apply Htoken..].
  apply Forall_cons in Hst as [Hc Hh]. unfold apply_tx, commit.
  destruct (exec _ _ _ _ w) as [[[] w']|e] eqn:H; [|reflexivity].
  eapply Hexec; [|exact Hc|exact H].
  by apply (run_hook_preserves R allowed).
Qed.

Lemma Forall_all_calls (steps : list Step) :
  Forall (λ st, Forall (λ _ : Call, True) (step_calls st)) steps.
Proof. apply Forall_forall. intros st _. by apply Forall_forall. Qed.

(** *** The log *)

#[local] Instance log_grows_refl : Reflexive log_grows.
Proof. intros w. unfold log_grows. reflexivity. Qed.

#[local] Instance log_grows_trans : Transitive log_grows.
Proof. intros w1 w2 w3. unfold log_grows. by etrans. Qed.

Lemma log_grows_log e w w2 : log_grows w w2 → log_grows w (log e w2).
Proof.
  unfold log_grows. intros H. etrans; [exact H|]. by apply prefix_app_r.
Qed.

Lemma log_grows_on_ledger f w : log_grows w (on_ledger f w).
Proof. unfold log_grows. reflexivity. Qed.

Lemma exec_log_grows this T sender c w w' :
  preserved_by log_grows T →
  exec this T sender c w = Ok ((), w') → log_grows w w'.
Proof.
  intros HT H. apply exec_Ok_inv in H.
  destruct c; try done;
    try (destruct H as [_ [->|(pl & tk & fr & rc & am & w2 & ev & H2 & ->)]];
         [reflexivity|]; apply log_grows_log; by apply HT in H2).
  - cbv zeta in H.
    destruct H as (_ & _ & _ & _ & _ & _ & _ & _ & w2 & H2 & ->).
    apply (HT false) in H2. unfold claim_done, log_grows in *.
    cbn [events on_ledger log]. etrans; [exact H2|]. by apply prefix_app_r.
  - destruct H as (_ & _ & ->). apply log_grows_log. by apply log_grows_on_ledger.
  - cbv zeta in H. destruct H as (_ & _ & ->).
    apply log_grows_log. by apply log_grows_on_ledger.
  - destruct H as (_ & _ & ->). apply log_grows_log. by apply log_grows_on_ledger.
  - destruct H as (_ & ->). apply log_grows_log. by apply log_grows_on_ledger.
Qed.

(** X9. The event log is append-only: whatever transactions and token
    activity follow, callbacks included, the log of before is a prefix of
    the log of after (a reverted transaction adds nothing). *)
Theorem log_only_grows this steps w :
  events w `prefix_of` events (run this steps w).
Proof.
  apply (run_preserves log_grows (λ _, True) this); try apply _.
  - intros w1 w2 _ E. unfold log_grows. by rewrite E.
  - intros T HT sender c w1 w2 _. by apply exec_log_grows.
  - apply Forall_all_calls.
Qed.

(** *** The totals *)

#[local] Instance totals_grow_refl : Reflexive totals_grow.
Proof. intros w token. lia. Qed.

#[local] Instance totals_grow_trans : Transitive totals_grow.
Proof.
  intros w1 w2 w3 H12 H23 token.
  destruct (H12 token), (H23 token). lia.
Qed.

Lemma totals_grow_same_ledger w w' : ledger w' = ledger w → totals_grow w w'.
Proof. intros E token. rewrite E. lia. Qed.

Lemma totals_grow_set_config t a b w :
  totals_grow w (on_ledger (set_config t (new_config a b (config_of (ledger w) t))) w).
Proof.
  intros token. rewrite ledger_on_ledger, config_of_set_config.
  case_decide; [subst; cbn [new_config totalClaimed totalRecipients]|]; lia.
Qed.

Lemma exec_totals_grow this T sender c w w' :
  preserved_by totals_grow T →
  exec this T sender c w = Ok ((), w') → totals_grow w w'.
Proof.
  intros HT H. apply exec_Ok_inv in H.
  destruct c; try done;
    try (destruct H as [_ [->|(pl & tk & fr & rc & am & w2 & ev & H2 & ->)]];
         [reflexivity|]; by apply HT in H2).
  - cbv zeta in H.
    destruct H as (_ & _ & _ & _ & _ & _ & _ & _ & w2 & H2 & ->).
    apply (HT false) in H2. intros t. destruct (H2 t) as [H3 H4].
    unfold claim_done. rewrite ledger_on_ledger, ledger_log, config_of_set_entered.
    rewrite config_of_claim_mid in H3, H4.
    case_decide; subst; cbn [totalClaimed totalRecipients] in *; lia.
  - destruct H as (_ & _ & ->). intros t. rewrite ledger_log.
    apply totals_grow_set_config.
  - cbv zeta in H. destruct H as (_ & _ & ->). intros t. rewrite ledger_log.
    apply totals_grow_set_config.
  - destruct H as (_ & _ & ->). intros t.
    rewrite ledger_log, ledger_on_ledger, config_of_set_owner. lia.
  - destruct H as (_ & ->). intros t.
    rewrite ledger_log, ledger_on_ledger, config_of_set_owner. lia.
Qed.

(** X10. [totalClaimed] and [totalRecipients] of every token never
    decrease, whatever transactions and token activity follow: only a
    claim writes them, by checked additions, and reconfiguring a token
    keeps them. *)
Theorem totals_never_decrease this steps w token :
  totalClaimed (config_of (ledger w) token)
    <= totalClaimed (config_of (ledger (run this steps w)) token) ∧
  totalRecipients (config_of (ledger w) token)
    <= totalRecipients (config_of (ledger (run this steps w)) token).
Proof.
  revert token.
  apply (run_preserves totals_grow (λ _, True) this); try apply _.
  - intros w1 w2 E _. by apply totals_grow_same_ledger.
  - intros T HT sender c w1 w2 _. by apply exec_totals_grow.
  - apply Forall_all_calls.
Qed.

(** *** The log against the counter of recipients *)

Lemma claim_events_log token e w :
  claim_events token (log e w) =
  claim_events token w + (if is_claim_event token e then 1 else 0).
Proof.
  unfold claim_events. cbn [events log].
  rewrite filter_app, length_app.
  destruct (is_claim_event token e) eqn:E.
  - rewrite (filter_cons_True _ e []) by done. cbn. lia.
  - rewrite (filter_cons_False _ e []) by (by rewrite E). cbn. lia.
Qed.

Lemma claim_events_on_ledger token f w :
  claim_events token (on_ledger f w) = claim_events token w.
Proof. reflexivity. Qed.

#[local] Instance counted_in_log_refl token : Reflexive (counted_in_log token).
Proof. intros w. unfold counted_in_log. lia. Qed.

#[local] Instance counted_in_log_trans token : Transitive (counted_in_log token).
Proof. intros w1 w2 w3. unfold counted_in_log. lia. Qed.

(** A funds function that succeeds after calling the token has logged
    the event of [funds_event], which is no claim event. *)
Lemma exec_funds_logged this T sender c w w' tk fr rc am :
  exec this T sender c w = Ok ((), w') →
  funds_transfer this sender c w = Some (tk, fr, rc, am) →
  ∃ w2 e, funds_event this sender c w = Some e ∧
          token_op T (funds_pull c) tk fr rc am w = Ok (true, w2) ∧ w' = log e w2.
Proof.
  intros H Hf.
  destruct c; try discriminate Hf;
    cbn [exec funds_transfer funds_event funds_pull token_op] in *;
    cbv zeta in *.
  - rewrite depositTokens_unfold in H. injection Hf as <- <- <- <-.
    split_ifs H. injection H as <-. by repeat eexists.
  - rewrite depositTokens_default_eq, depositTokens_unfold in H.
    injection Hf as <- <- <- <-.
    split_ifs H. injection H as <-. by repeat eexists.
  - rewrite withdrawTokens_unfold in H. injection Hf as <- <- <- <-.
    split_ifs H. injection H as <-. by repeat eexists.
  - rewrite withdrawTokens_default_eq, withdrawTokens_unfold in H.
    injection Hf as <- <- <- <-.
    split_ifs H. injection H as <-. by repeat eexists.
  - rewrite emergencyWithdraw_unfold in H.
    destruct (0 <? balance_of w token this); [|discriminate Hf].
    injection Hf as <- <- <- <-.
    split_ifs H. injection H as <-. by repeat eexists.
  - rewrite emergencyWithdraw_default_eq, emergencyWithdraw_unfold in H.
    destruct (0 <? balance_of w (defaultToken (ledger w)) this); [|discriminate Hf].
    injection Hf as <- <- <- <-.
    split_ifs H. injection H as <-. by repeat eexists.
  - rewrite rescueTokens_unfold in H. injection Hf as <- <- <- <-.
    split_ifs H. injection H as <-. by repeat eexists.
  - rewrite rescueAllTokens_unfold in H.
    destruct (0 <? balance_of w token this); [|discriminate Hf].
    injection Hf as <- <- <- <-.
    split_ifs H. injection H as <-. by repeat eexists.
Qed.

Lemma funds_event_is_no_claim_event this sender c w e token :
  funds_event this sender c w = Some e → is_claim_event token e = false.
Proof. destruct c; cbn; intros [= <-]; done. Qed.

Lemma exec_counted_in_log this T tok sender c w w' :
  preserved_by (counted_in_log tok) T →
  exec this T sender c w = Ok ((), w') → counted_in_log tok w w'.
Proof.
  intros HT H. unfold counted_in_log.
  destruct (is_funds_call c) eqn:Hc.
  - pose proof H as H'. apply exec_funds_inv in H'; [|done].
    destruct (funds_transfer this sender c w) as [[[[tk fr] rc] am]|] eqn:Hf.
    + apply (exec_funds_logged this T sender c w w' tk fr rc am) in H; [|done].
      destruct H as (w2 & e & Hev & H2 & ->).
      apply HT in H2. unfold counted_in_log in H2.
      rewrite ledger_log, claim_events_log.
      rewrite (funds_event_is_no_claim_event _ _ _ _ _ _ Hev). lia.
    + subst. lia.
  - apply exec_Ok_inv in H.
    destruct c; try done; try discriminate Hc.
    + cbv zeta in H.
      destruct H as (_ & _ & _ & _ & _ & _ & _ & _ & w2 & H2 & ->).
      apply (HT false) in H2. unfold counted_in_log in H2.
      rewrite config_of_claim_mid in H2.
      change (claim_events tok (claim_mid sender token w))
        with (claim_events tok w) in H2.
      unfold claim_done.
      rewrite ledger_on_ledger, ledger_log, config_of_set_entered,
        claim_events_on_ledger, claim_events_log.
      cbn [is_claim_event].
      destruct (token =? tok) eqn:E; bool_to_prop.
      * subst. rewrite decide_True in H2 by done.
        cbn [totalRecipients] in H2. lia.
      * rewrite decide_False in H2 by done. lia.
    + destruct H as (_ & _ & ->).
      rewrite ledger_log, claim_events_log, ledger_on_ledger,
        claim_events_on_ledger, config_of_set_config.
      cbn [is_claim_event].
      case_decide; [subst; cbn [new_config totalRecipients]|]; lia.
    + cbv zeta in H. destruct H as (_ & _ & ->).
      rewrite ledger_log, claim_events_log, ledger_on_ledger,
        claim_events_on_ledger, config_of_set_config.
      cbn [is_claim_event].
      case_decide as Hd; [rewrite <- Hd; cbn [new_config totalRecipients]|]; lia.
    + destruct H as (_ & _ & ->).
      rewrite ledger_log, claim_events_log, ledger_on_ledger,
        claim_events_on_ledger, config_of_set_owner.
      cbn [is_claim_event]. lia.
    + destruct H as (_ & ->).
      rewrite ledger_log, claim_events_log, ledger_on_ledger,
        claim_events_on_ledger, config_of_set_owner.
      cbn [is_claim_event]. lia.
Qed.

Lemma apply_step_counted_in_log this token w st :
  counted_in_log token w (apply_step this w st).
Proof.
  change (apply_step this w st) with (run this [st] w).
  apply (run_preserves (counted_in_log token) (λ _, True) this); try apply _.
  - intros w1 w2 E1 E2. unfold counted_in_log, claim_events. rewrite E1, E2. lia.
  - intros T HT sender c w1 w2 _. by apply exec_counted_in_log.
  - apply Forall_all_calls.
Qed.

(** X11. In every state a deployed contract can be in, the log holds
    exactly [totalRecipients] events [AirdropClaimed] for each token:
    every claim that went through, from a transaction or from a token
    callback, has logged one, and nothing else has. *)
Theorem recipients_match_claim_events this w token :
  reachable this w →
  totalRecipients (config_of (ledger w) token) = claim_events token w.
Proof.
  induction 1 as [deployer d bals w Hd|w st _ IH].
  - apply deploy_Ok_inv in Hd as [_ ->].
    pose proof (recipients_counted_initial deployer d bals token) as H.
    rewrite claimed_count_empty in H by done. by rewrite H.
  - pose proof (apply_step_counted_in_log this token w st) as H.
    unfold counted_in_log in H. lia.
Qed.

Lemma recipients_match_claim_events_witness :
  reachable ex_this (run ex_this ex_steps ex_world) ∧
  totalRecipients (config_of (ledger (run ex_this ex_steps ex_world)) ex_token) =
  claim_events ex_token (run ex_this ex_steps ex_world) ∧
  claim_events ex_token (run ex_this ex_steps ex_world) = 3.
Proof.
  assert (Hw : reachable ex_this (run ex_this ex_steps ex_world))
    by (apply reachable_run, ex_world_reachable).
  split; [exact Hw|]. split; [|by vm_compute].
  exact (recipients_match_claim_events ex_this _ ex_token Hw).
Defined.

(** *** The terms of an airdrop *)

#[local] Instance same_terms_refl d token : Reflexive (same_terms d token).
Proof. by intros w Hd. Qed.

#[local] Instance same_terms_trans d token : Transitive (same_terms d token).
Proof.
  intros w1 w2 w3 H12 H23 Hd. destruct (H12 Hd) as (Hd2 & A12 & I12).
  destruct (H23 Hd2) as (Hd3 & A23 & I23). split_and!; congruence.
Qed.

Lemma same_terms_same_ledger d token w w' :
  ledger w' = ledger w → same_terms d token w w'.
Proof. intros E Hd. by rewrite E. Qed.

Lemma same_terms_other_config d token t a b w :
  t ≠ token →
  same_terms d token w
    (log (AirdropConfigUpdated t (amount (config_of (ledger w) t)) a b)
       (on_ledger (set_config t (new_config a b (config_of (ledger w) t))) w)).
Proof.
  intros Hne Hd. rewrite ledger_log, ledger_on_ledger, config_of_set_config.
  by rewrite decide_False.
Qed.

Lemma exec_same_terms this T d tok sender c w w' :
  preserved_by (same_terms d tok) T →
  may_configure d tok c = false →
  exec this T sender c w = Ok ((), w') → same_terms d tok w w'.
Proof.
  intros HT Hc H. apply exec_Ok_inv in H.
  destruct c; try done;
    try (destruct H as [_ [->|(pl & tk & fr & rc & am & w2 & ev & H2 & ->)]];
         [reflexivity|]; by apply HT in H2).
  - cbv zeta in H.
    destruct H as (_ & _ & _ & _ & _ & _ & _ & _ & w2 & H2 & ->).
    apply (HT false) in H2. intros Hd.
    destruct H2 as (Hd2 & A2 & I2); [done|].
    unfold claim_done. rewrite ledger_on_ledger, ledger_log, config_of_set_entered.
    rewrite config_of_claim_mid in A2, I2.
    split; [done|]. case_decide; subst; by cbn in *.
  - destruct H as (_ & _ & ->). cbn [may_configure] in Hc. bool_to_prop.
    by apply same_terms_other_config.
  - cbv zeta in H. destruct H as (_ & _ & ->). cbn [may_configure] in Hc.
    bool_to_prop. intros Hd. apply same_terms_other_config; congruence.
  - destruct H as (_ & _ & ->). intros Hd.
    by rewrite ledger_log, ledger_on_ledger, config_of_set_owner.
  - destruct H as (_ & ->). intros Hd.
    by rewrite ledger_log, ledger_on_ledger, config_of_set_owner.
Qed.

Lemma run_same_terms this d token steps w :
  Forall (no_configuring d token) steps →
  same_terms d token w (run this steps w).
Proof.
  apply (run_preserves (same_terms d token)
           (λ c, may_configure d token c = false) this); try apply _.
  - intros w1 w2 E _. by apply same_terms_same_ledger.
  - intros T HT sender c w1 w2 Hc. by apply exec_same_terms.
Qed.

(** X12. The amount and the active flag of a token change only when the
    token is configured: through every run in which nobody calls
    [setAirdropConfig] for the token, nor [setAirdropAmount] when the
    token is the default one, both are what they were; claims, funds
    functions, changes of owner and the configuring of other tokens do
    not touch them. *)
Theorem terms_change_only_by_configuring this token steps w :
  Forall (no_configuring (defaultToken (ledger w)) token) steps →
  amount (config_of (ledger (run this steps w)) token)
    = amount (config_of (ledger w) token) ∧
  isActive (config_of (ledger (run this steps w)) token)
    = isActive (config_of (ledger w) token).
Proof.
  intros Hsteps.
  by destruct (run_same_terms this _ token steps w Hsteps eq_refl) as (_ & ? & ?).
Qed.

Lemma terms_change_only_by_configuring_witness :
  Forall (no_configuring (defaultToken (ledger ex_world)) 5) ex_steps ∧
  isActive (config_of (ledger (run ex_this ex_steps ex_world)) 5)
    = isActive (config_of (ledger ex_world) 5).
Proof.
  assert (H : Forall (no_configuring (defaultToken (ledger ex_world)) 5) ex_steps)
    by (repeat constructor).
  split; [exact H|].
  by destruct (terms_change_only_by_configuring ex_this 5 ex_steps ex_world H).
Defined.

(** X13. A token the owner never configured cannot be claimed: from
    deployment on, through every run in which nobody calls
    [setAirdropConfig] for a token other than the default one, that token
    stays inactive with amount zero, and every claim of it reverts. *)
Theorem unconfigured_token_is_never_claimable
    this deployer d bals w0 token steps :
  deploy deployer d bals = Ok ((), w0) →
  token ≠ d →
  Forall (no_configuring d token) steps →
  isAirdropActive (run this steps w0) token = false ∧
  amount (config_of (ledger (run this steps w0)) token) = 0 ∧
  ∀ sender T, ∃ e, claimAirdropForToken this T sender token (run this steps w0) = Err e.
Proof.
  intros Hd Hne Hsteps. apply deploy_Ok_inv in Hd as [_ ->].
  destruct (run_same_terms this d token steps (initial_world deployer d bals) Hsteps)
    as (_ & Ha & Hi); [done|].
  assert (Hcfg : config_of (ledger (initial_world deployer d bals)) token = zeroConfig).
  { unfold config_of, initial_world; cbn [ledger tokenConfigs].
    rewrite lookup_insert_ne by done. by rewrite lookup_empty. }
  rewrite Hcfg in Ha, Hi. cbn [zeroConfig amount isActive] in Ha, Hi.
  split; [exact Hi|]. split; [exact Ha|].
  intros sender T. rewrite claimAirdropForToken_unfold. cbv zeta. rewrite Hi.
  destruct (entered _); [by eexists|]. destruct (token =? 0); [by eexists|].
  destruct (claimed_by _ token sender); by eexists.
Qed.

Lemma unconfigured_token_is_never_claimable_witness :
  deploy ex_owner ex_token (balances ex_world) = Ok ((), ex_world) ∧ 5 ≠ ex_token ∧
  Forall (no_configuring ex_token 5) ex_steps ∧
  isAirdropActive (run ex_this ex_steps ex_world) 5 = false.
Proof.
  assert (Hd : deploy ex_owner ex_token (balances ex_world) = Ok ((), ex_world))
    by reflexivity.
  assert (H : Forall (no_configuring ex_token 5) ex_steps) by (repeat constructor).
  split; [exact Hd|]. split; [done|]. split; [exact H|].
  by destruct (unconfigured_token_is_never_claimable ex_this ex_owner ex_token
                 (balances ex_world) ex_world 5 ex_steps Hd) as (? & _).
Defined.

(** ** What a claim pays and what it logs *)

(** X14. A claim that passes its requirements, served by a plain ERC20,
    pays the claimant exactly the configured amount out of the custody,
    sets the claimant's flag for the token, advances the token's two
    totals, logs one [AirdropClaimed] event with that amount, and changes
    nothing else: no other balance, flag or configuration. *)
Theorem claim_pays_the_configured_amount this sender token w :
  claim_ready this sender token w → sender ≠ this →
  let c := config_of (ledger w) token in
  ∃ w',
    claimAirdropForToken this (run_hook this plain_erc20) sender token w = Ok ((), w') ∧
    balance_of w' token sender = balance_of w token sender + amount c ∧
    balance_of w' token this = balance_of w token this - amount c ∧
    (∀ t h, (t, h) ≠ (token, this) → (t, h) ≠ (token, sender) →
            balance_of w' t h = balance_of w t h) ∧
    config_of (ledger w') token =
      mkConfig (amount c) (isActive c) (totalClaimed c + amount c) (totalRecipients c + 1) ∧
    (∀ t, t ≠ token → config_of (ledger w') t = config_of (ledger w) t) ∧
    hasUserClaimed w' token sender = true ∧
    (∀ t u, (t, u) ≠ (token, sender) → hasUserClaimed w' t u = hasUserClaimed w t u) ∧
    owner (ledger w') = owner (ledger w) ∧
    defaultToken (ledger w') = defaultToken (ledger w) ∧
    events w' = events w ++ [AirdropClaimed token sender (amount c)].
Proof.
  intros Hready Hne. cbv zeta.
  rewrite (claim_ready_unfold this) by done. rewrite plain_erc20_unfold.
  destruct Hready as (He & Ht & Hc & Ha & Hp & Hb & _). cbv zeta in *.
  change (balance_of (claim_mid sender token w) token this)
    with (balance_of w token this).
  pose proof Hb as Hb'. apply N.leb_le in Hb'. rewrite Hb'.
  eexists. split; [done|].
  assert (Hbal : ∀ t h,
    balance_of (claim_done sender token
                  (moved token this sender (amount (config_of (ledger w) token))
                     (claim_mid sender token w))) t h =
    if decide (t = token) then
      (if decide (h = this) then balance_of w t h - amount (config_of (ledger w) token)
       else balance_of w t h)
      + (if decide (h = sender) then amount (config_of (ledger w) token) else 0)
    else balance_of w t h).
  { intros t h. unfold claim_done.
    rewrite balance_of_on_ledger, balance_of_log, balance_of_moved by done.
    done. }
  assert (Hcfg : ∀ t,
    config_of (ledger (claim_done sender token
                  (moved token this sender (amount (config_of (ledger w) token))
                     (claim_mid sender token w)))) t =
    config_of (ledger (claim_mid sender token w)) t) by done.
  split_and!.
  - rewrite Hbal. repeat case_decide; simplify_eq; lia.
  - rewrite Hbal. repeat case_decide; simplify_eq; lia.
  - intros t h H1 H2. rewrite Hbal. repeat case_decide; simplify_eq; lia.
  - rewrite Hcfg, config_of_claim_mid. by rewrite decide_True.
  - intros t Hnt. rewrite Hcfg, config_of_claim_mid. by rewrite decide_False.
  - unfold hasUserClaimed, claim_done.
    rewrite ledger_on_ledger, ledger_log, ledger_moved, claimed_by_set_entered,
      claimed_by_claim_mid. by rewrite decide_True.
  - intros t u Hnu. unfold hasUserClaimed, claim_done.
    rewrite ledger_on_ledger, ledger_log, ledger_moved, claimed_by_set_entered,
      claimed_by_claim_mid. rewrite decide_False; [done|congruence].
  - done.
  - done.
  - unfold claim_done. cbn [events on_ledger log moved claim_mid].
    rewrite ledger_moved, config_of_claim_mid. by rewrite decide_True.
Qed.

Lemma claim_pays_the_configured_amount_witness :
  claim_ready ex_this 1 ex_token ex_world ∧ 1 ≠ ex_this ∧
  ∃ w', claimAirdropForToken ex_this (run_hook ex_this plain_erc20) 1 ex_token ex_world
        = Ok ((), w') ∧
        balance_of w' ex_token 1 =
          balance_of ex_world ex_token 1 + amount (config_of (ledger ex_world) ex_token).
Proof.
  assert (Hready : claim_ready ex_this 1 ex_token ex_world).
  { unfold claim_ready. cbv zeta. vm_compute. repeat split; congruence. }
  split; [exact Hready|]. split; [done|].
  destruct (claim_pays_the_configured_amount ex_this 1 ex_token ex_world Hready)
    as (w' & Hr & Hb & _); [done|].
  exists w'. split; [exact Hr|exact Hb].
Defined.

Lemma run_hook_same_terms this d token h :
  Forall (λ c, may_configure d token c = false) (hook_calls h) →
  preserved_by (same_terms d token) (run_hook this h).
Proof.
  apply (run_hook_preserves (same_terms d token)); try apply _.
  - intros w w' E _. by apply same_terms_same_ledger.
  - intros T HT sender c w w' Hc. by apply exec_same_terms.
Qed.

(** X15. The [AirdropClaimed] event reads the amount from storage after
    the token has been called.  As long as the token's callbacks do not
    configure the claimed token, the last event of a successful claim
    carries the amount by which [totalClaimed] has grown, the amount
    configured when the claim started. *)
Theorem claim_event_carries_the_amount_paid this h sender token w w' :
  Forall (λ c, may_configure (defaultToken (ledger w)) token c = false)
         (hook_calls h) →
  exec this (run_hook this h) sender (CallClaimAirdropForToken token) w = Ok ((), w') →
  let a := amount (config_of (ledger w) token) in
  last (events w') = Some (AirdropClaimed token sender a) ∧
  totalClaimed (config_of (ledger w') token)
    = totalClaimed (config_of (ledger w) token) + a.
Proof.
  intros Hh H. cbv zeta. pose proof H as H'.
  apply exec_Ok_inv in H. cbv zeta in H.
  destruct H as (_ & _ & _ & _ & _ & _ & _ & _ & w2 & H2 & ->).
  split.
  - apply (run_hook_same_terms this _ token h Hh false) in H2.
    destruct H2 as (_ & A2 & _); [done|].
    rewrite config_of_claim_mid, decide_True in A2 by done. cbn [amount] in A2.
    unfold claim_done. cbn [events on_ledger log].
    by rewrite last_snoc, A2.
  - destruct (run_hook_guarded_frame this token h false _ _ _ _ _ _ _ H2 eq_refl)
      as [_ E2].
    unfold claim_done.
    rewrite ledger_on_ledger, ledger_log, config_of_set_entered, E2,
      config_of_claim_mid.
    by rewrite decide_True.
Qed.

Lemma claim_event_carries_the_amount_paid_witness :
  Forall (λ c, may_configure (defaultToken (ledger ex_world)) ex_token c = false)
         (hook_calls plain_erc20) ∧
  exec ex_this (run_hook ex_this plain_erc20) 1 (CallClaimAirdropForToken ex_token)
    ex_world = Ok ((), ex_claimed) ∧
  last (events ex_claimed) = Some (AirdropClaimed ex_token 1 (10 ^ 30)).
Proof.
  assert (Hh : Forall (λ c, may_configure (defaultToken (ledger ex_world)) ex_token c
                            = false) (hook_calls plain_erc20)) by constructor.
  assert (H : exec ex_this (run_hook ex_this plain_erc20) 1
                (CallClaimAirdropForToken ex_token) ex_world = Ok ((), ex_claimed))
    by (vm_compute; reflexivity).
  split; [exact Hh|]. split; [exact H|].
  destruct (claim_event_carries_the_amount_paid ex_this plain_erc20 1 ex_token
              ex_world ex_claimed Hh H) as [E _].
  exact E.
Defined.

(** When the owner does reconfigure the token from inside the transfer,
    the event reports the new amount and not the one that was paid. *)
Example claim_event_after_a_reconfiguration :
  let w' := apply_tx ex_this ex_world
              (mkTx 1 (CallClaimAirdropForToken ex_token)
                 (reconfiguring_token ex_owner ex_token 1)) in
  last (events w') = Some (AirdropClaimed ex_token 1 1) ∧
  balance_of w' ex_token 1 = 10 ^ 30 ∧
  totalClaimed (config_of (ledger w') ex_token) = 10 ^ 30.
Proof. by vm_compute. Qed.

(** * Properties of the user interface *)

(** ** The claim button against the contract *)

Lemma fresh_status_unfold this w token :
  UI.fresh_status this w token =
    let c := config_of (ledger w) token in
    if balance_of w token this <? amount c then
      UI.mkAirdropStatus false true
        (Some (if balance_of w token this =? 0 then UI.NoTokensRemaining
               else UI.InsufficientTokens))
        (balance_of w token this)
    else UI.mkAirdropStatus (isActive c) false None (balance_of w token this).
Proof. reflexivity. Qed.

Lemma handleClaim_sends this w token user :
  UI.handleClaim true (Some (hasUserClaimed w token user))
    (UI.fresh_status this w token) = UI.SendClaim ↔
  claimed_by (ledger w) token user = false ∧
  amount (config_of (ledger w) token) <= balance_of w token this ∧
  isActive (config_of (ledger w) token) = true.
Proof.
  unfold UI.handleClaim, hasUserClaimed. rewrite fresh_status_unfold.
  cbv zeta. cbn [negb default].
  destruct (claimed_by (ledger w) token user).
  { split; [done|]. by intros (? & _). }
  destruct (balance_of w token this <? amount (config_of (ledger w) token)) eqn:Hb;
    cbn [UI.hasEnded UI.status_isActive]; bool_to_prop.
  { split; [done|]. intros (_ & ? & _). lia. }
  destruct (isActive (config_of (ledger w) token)); cbn [negb].
  - split; [|done]. intros _. split_and!; [done|lia|done].
  - split; [done|]. by intros (_ & _ & ?).
Qed.

(** X16. The claim button and the contract, when the interface shows the
    contract's current answers for a connected user: whenever
    [handleClaim] holds the claim back with a message, the contract
    would have reverted it, whatever the token does; when it sends the
    claim of a non-null token, the claim goes through with a plain ERC20
    provided the amount is set (and the totals have room); and with the
    token active at amount zero it sends a claim that the contract
    reverts with "Airdrop amount not set". *)
Theorem claim_button_agrees_with_the_contract this w token user h :
  reachable this w →
  let action := UI.handleClaim true (Some (hasUserClaimed w token user))
                  (UI.fresh_status this w token) in
  let c := config_of (ledger w) token in
  (action ≠ UI.SendClaim → ∃ e, claim_result this h user token w = Err e) ∧
  (action = UI.SendClaim → token ≠ 0 → amount c = 0 →
   claim_result this h user token w = Err AmountUnset) ∧
  (action = UI.SendClaim → token ≠ 0 → 0 < amount c →
   totalClaimed c + amount c <= MAX_UINT256 →
   totalRecipients c + 1 <= MAX_UINT256 →
   ∃ w', claim_result this plain_erc20 user token w = Ok ((), w')).
Proof.
  intros Hw. apply reachable_invariants in Hw as (He & _ & _). cbv zeta.
  pose proof (claim_outcome this (run_hook this h) user token w) as Hout.
  unfold token_fails_claim, claim_checks_pass in Hout. cbv zeta in Hout.
  unfold claim_result.
  split_and!.
  - intros Hno.
    destruct Hout
      as [(?&Hr)|[(?&?&Hr)|[(?&?&?&Hr)|[(?&?&?&?&Hr)|[(?&?&?&?&?&Hr)|
         [(Hp&?&?&Hr)|[(e&Hf&Hr)|(Hp&?&Hb&[(?&Hr)|[(?&?&Hr)|(?&?&Hr)]])]]]]]]];
      try (by eexists).
    destruct Hno. apply handleClaim_sends. by destruct Hp as (_ & _ & ? & ? & _).
  - intros Hsend Ht Hz. apply handleClaim_sends in Hsend as (Hc & Hb & Ha).
    destruct Hout
      as [(?&Hr)|[(?&?&Hr)|[(?&?&?&Hr)|[(?&?&?&?&Hr)|[(?&?&?&?&?&Hr)|
         [(Hp&?&?&Hr)|[(e&Hf&Hr)|(Hp&?&?&_)]]]]]]];
      try (destruct Hf as (Hp & _)); destruct_and?;
      try done; try congruence; lia.
  - intros Hsend Ht Hp Ho1 Ho2. apply handleClaim_sends in Hsend as (Hc & Hb & Ha).
    assert (Hready : claim_ready this user token w) by by split_and!.
    rewrite (claim_ready_unfold this) by done.
    rewrite plain_erc20_unfold.
    change (balance_of (claim_mid user token w) token this)
      with (balance_of w token this).
    apply N.leb_le in Hb. rewrite Hb. by eexists.
Qed.

Lemma claim_button_agrees_with_the_contract_witness :
  reachable ex_this ex_world ∧
  UI.handleClaim true (Some (hasUserClaimed ex_world ex_token 1))
    (UI.fresh_status ex_this ex_world ex_token) = UI.SendClaim ∧
  ∃ w', claim_result ex_this plain_erc20 1 ex_token ex_world = Ok ((), w').
Proof.
  split; [exact ex_world_reachable|]. split; [reflexivity|].
  destruct (claim_button_agrees_with_the_contract ex_this ex_world ex_token 1
              plain_erc20 ex_world_reachable) as (_ & _ & H).
  apply H; [reflexivity|done|reflexivity| |]; apply N.leb_le; vm_compute; reflexivity.
Defined.

(** X17. While a query has not answered, the interface decides on
    zeros: without the statistics it shows the airdrop as paused,
    whatever the custody; with the statistics but without the balance it
    shows it as ended for lack of tokens as soon as the amount is
    positive.  In neither case does the button send a claim. *)
Theorem interface_holds_back_until_the_queries_answer
    (isConnected : bool) (userClaimed : option bool)
    (stats : UI.Stats) (airdropBalance : option N) :
  UI.handleClaim isConnected userClaimed (UI.getAirdropStatus None airdropBalance)
    ≠ UI.SendClaim ∧
  UI.hasEnded (UI.getAirdropStatus None airdropBalance) = false ∧
  UI.status_isActive (UI.getAirdropStatus None airdropBalance) = false ∧
  (0 < UI.airdropAmount (UI.realAirdropStats (Some stats) None) →
   UI.getAirdropStatus (Some stats) None =
     UI.mkAirdropStatus false true (Some UI.NoTokensRemaining) 0 ∧
   UI.handleClaim isConnected userClaimed (UI.getAirdropStatus (Some stats) None)
     ≠ UI.SendClaim).
Proof.
  assert (H0 : UI.getAirdropStatus None airdropBalance =
               UI.mkAirdropStatus false false None (UI.balance_or_zero airdropBalance)).
  { unfold UI.getAirdropStatus. cbn [UI.realAirdropStats UI.airdropAmount UI.isActive].
    cbv zeta. by rewrite (proj2 (N.ltb_ge _ 0)) by lia. }
  rewrite H0. cbn [UI.hasEnded UI.status_isActive].
  split.
  { unfold UI.handleClaim. cbv zeta. cbn [UI.hasEnded UI.status_isActive negb].
    destruct isConnected; [|done]. by destruct (default false userClaimed). }
  split; [done|]. split; [done|].
  intros Hp.
  assert (H1 : UI.getAirdropStatus (Some stats) None =
               UI.mkAirdropStatus false true (Some UI.NoTokensRemaining) 0).
  { unfold UI.getAirdropStatus. cbv zeta. cbn [UI.balance_or_zero default].
    apply N.ltb_lt in Hp. by rewrite Hp. }
  rewrite H1. split; [done|].
  unfold UI.handleClaim. cbv zeta. cbn [UI.hasEnded UI.status_isActive negb].
  destruct isConnected; [|done]. by destruct (default false userClaimed).
Qed.

Lemma interface_holds_back_until_the_queries_answer_witness :
  0 < UI.airdropAmount (UI.realAirdropStats (Some (100, 0, 0, 250, true)) None) ∧
  UI.getAirdropStatus (Some (100, 0, 0, 250, true)) None =
    UI.mkAirdropStatus false true (Some UI.NoTokensRemaining) 0.
Proof.
  split; [reflexivity|].
  destruct (interface_holds_back_until_the_queries_answer true None
              (100, 0, 0, 250, true) None) as (_ & _ & _ & H).
  destruct H as [H _]; [reflexivity|exact H].
Defined.

(** ** The transaction log *)

Lemma addTransactionLog_snoc {A} (logs : list A) (x : A) :
  UI.addTransactionLog x (take 10 (reverse logs)) = take 10 (reverse (logs ++ [x])).
Proof.
  unfold UI.addTransactionLog. rewrite reverse_snoc.
  change (take 10 (x :: reverse logs)) with (x :: take 9 (reverse logs)).
  f_equal. rewrite take_take. f_equal.
Qed.

(** X18. The transaction log keeps the ten most recent entries, newest
    first: after any number of [addTransactionLog], starting from the
    empty log, it holds the last ten entries added, in reverse order of
    arrival, and never more than ten. *)
Theorem transaction_log_keeps_the_last_ten {A} (logs : list A) :
  foldl (λ prev newLog, UI.addTransactionLog newLog prev) [] logs
    = take 10 (reverse logs) ∧
  (length (foldl (λ prev newLog, UI.addTransactionLog newLog prev) [] logs) <= 10)%nat.
Proof.
  assert (H : foldl (λ prev newLog, UI.addTransactionLog newLog prev) [] logs
              = take 10 (reverse logs)).
  { induction logs as [|x logs IH] using rev_ind; [done|].
    rewrite foldl_app. cbn [foldl]. rewrite IH. apply addTransactionLog_snoc. }
  split; [exact H|]. rewrite H, length_take. lia.
Qed.

(** ** Amounts on display: [formatLargeNumber] *)

Lemma pow10_succ (k : nat) : 10 ^ N.of_nat (S k) = 10 * 10 ^ N.of_nat k.
Proof. by rewrite Nat2N.inj_succ, N.pow_succ_r'. Qed.

Lemma pow10_pos (k : nat) : 0 < 10 ^ N.of_nat k.
Proof. apply N.neq_0_lt_0, N.pow_nonzero. done. Qed.

Lemma div10_lt n (k : nat) : n < 10 ^ N.of_nat (S k) → n / 10 < 10 ^ N.of_nat k.
Proof.
  rewrite pow10_succ. intros H. by apply N.Div0.div_lt_upper_bound.
Qed.

Lemma div10_le n (k : nat) : 10 ^ N.of_nat (S k) <= n → 10 ^ N.of_nat k <= n / 10.
Proof.
  rewrite pow10_succ. intros H. by apply N.div_le_lower_bound.
Qed.

Lemma digits_of_S f n :
  UI.digits_of (S f) n =
  if n <? 10 then [n] else n mod 10 :: UI.digits_of f (n / 10).
Proof. done. Qed.

(** More fuel than digits changes nothing. *)
Lemma digits_of_fuel f1 f2 n :
  n < 10 ^ N.of_nat (S f1) → n < 10 ^ N.of_nat (S f2) →
  UI.digits_of (S f1) n = UI.digits_of (S f2) n.
Proof.
  revert n f2. induction f1 as [|f1 IH]; intros n f2 H1 H2.
  - rewrite !digits_of_S. change (10 ^ N.of_nat 1) with 10 in H1.
    apply N.ltb_lt in H1. by rewrite H1.
  - rewrite (digits_of_S (S f1)), (digits_of_S f2).
    destruct (n <? 10) eqn:E; [done|]. f_equal.
    apply N.ltb_ge in E. destruct f2 as [|f2].
    + change (10 ^ N.of_nat 1) with 10 in H2. lia.
    + apply IH; by apply div10_lt.
Qed.

Lemma log2_fuel n : n < 10 ^ N.of_nat (S (N.to_nat (N.log2 n))).
Proof.
  rewrite Nat2N.inj_succ, N2Nat.id.
  destruct (decide (n = 0)) as [->|Hn]; [done|].
  destruct (N.log2_spec n) as [_ H]; [lia|].
  eapply N.lt_le_trans; [exact H|].
  apply N.pow_le_mono_l. lia.
Qed.

Lemma toString_fuel f n :
  n < 10 ^ N.of_nat (S f) →
  UI.toString n = (λ d, 48 + d) <$> reverse (UI.digits_of (S f) n).
Proof.
  intros H. unfold UI.toString. f_equal. f_equal.
  apply digits_of_fuel; [apply log2_fuel|done].
Qed.

Lemma digits_of_nonempty f n : UI.digits_of (S f) n ≠ [].
Proof. rewrite digits_of_S. by destruct (n <? 10). Qed.

(** The number of digits against the powers of ten. *)
Lemma digits_of_length f m n :
  n < 10 ^ N.of_nat (S f) →
  (length (UI.digits_of (S f) n) <= S m)%nat ↔ n < 10 ^ N.of_nat (S m).
Proof.
  revert n m. induction f as [|f IH]; intros n m Hf.
  - rewrite digits_of_S. change (10 ^ N.of_nat 1) with 10 in Hf.
    pose proof (pow10_pos m). rewrite pow10_succ.
    apply N.ltb_lt in Hf as Hf'. rewrite Hf'. cbn [length]. split; lia.
  - rewrite digits_of_S. destruct (n <? 10) eqn:E.
    + apply N.ltb_lt in E.
      pose proof (pow10_pos m). rewrite pow10_succ. cbn [length]. split; lia.
    + apply N.ltb_ge in E. cbn [length]. destruct m as [|m].
      * change (10 ^ N.of_nat 1) with 10. split; [|lia].
        intros Hl. pose proof (digits_of_nonempty f (n / 10)) as Hne.
        destruct (UI.digits_of (S f) (n / 10)); [done|cbn in Hl; lia].
      * rewrite <- Nat.succ_le_mono. rewrite IH by by apply div10_lt.
        rewrite (pow10_succ (S m)). split.
        -- intros H. pose proof (N.Div0.div_mod n 10).
           pose proof (N.mod_upper_bound n 10). lia.
        -- intros H. by apply N.Div0.div_lt_upper_bound.
Qed.

Lemma div_pow10_le n k : n / 10 ^ N.of_nat k <= n.
Proof.
  pose proof (pow10_pos k). apply N.Div0.div_le_upper_bound.
  rewrite <- (N.mul_1_l n) at 1. apply N.mul_le_mono_r. lia.
Qed.

(** Dropping the [k] last digits divides by [10^k]. *)
Lemma digits_of_drop f k n :
  n < 10 ^ N.of_nat (S f) → 10 ^ N.of_nat k <= n →
  UI.digits_of (S f) (n / 10 ^ N.of_nat k) = drop k (UI.digits_of (S f) n).
Proof.
  revert n f. induction k as [|k IH]; intros n f Hf Hk.
  - change (10 ^ N.of_nat 0) with 1. by rewrite N.div_1_r.
  - assert (Hten : 10 <= n).
    { pose proof (pow10_pos k). rewrite pow10_succ in Hk. lia. }
    destruct f as [|f]; [change (10 ^ N.of_nat 1) with 10 in Hf; lia|].
    rewrite (digits_of_S (S f) n).
    assert (E : (n <? 10) = false) by (apply N.ltb_ge; lia). rewrite E.
    cbn [drop]. rewrite <- IH by (by apply div10_lt || by apply div10_le).
    rewrite pow10_succ, <- N.Div0.div_div.
    apply digits_of_fuel.
    + eapply N.le_lt_trans; [apply div_pow10_le|].
      eapply N.le_lt_trans; [|exact Hf].
      apply N.Div0.div_le_upper_bound. lia.
    + eapply N.le_lt_trans; [apply div_pow10_le|]. by apply div10_lt.
Qed.

Lemma toString_length n :
  length (UI.toString n) = length (UI.digits_of (S (N.to_nat (N.log2 n))) n).
Proof. unfold UI.toString. by rewrite length_fmap, length_reverse. Qed.

(** [n.toString().length <= m] says [n < 10^m], for [m] at least 1. *)
Lemma toString_length_leb m n :
  (length (UI.toString n) <=? S m)%nat = (n <? 10 ^ N.of_nat (S m)).
Proof.
  rewrite toString_length.
  pose proof (digits_of_length _ m n (log2_fuel n)) as H.
  destruct (n <? 10 ^ N.of_nat (S m)) eqn:E.
  - apply N.ltb_lt in E. apply Nat.leb_le. by apply H.
  - apply N.ltb_ge in E. apply Nat.leb_gt.
    destruct (decide (length (UI.digits_of (S (N.to_nat (N.log2 n))) n) <= S m)%nat)
      as [Hl|Hl]; [apply H in Hl|]; lia.
Qed.

Lemma toString_length_ltb m n :
  (S m <? length (UI.toString n))%nat = (10 ^ N.of_nat (S m) <=? n).
Proof.
  pose proof (toString_length_leb m n) as H.
  destruct (10 ^ N.of_nat (S m) <=? n) eqn:E.
  - apply N.leb_le in E. apply Nat.ltb_lt.
    assert ((n <? 10 ^ N.of_nat (S m)) = false) as E' by (apply N.ltb_ge; lia).
    rewrite E' in H. apply Nat.leb_gt in H. lia.
  - apply N.leb_gt in E. apply Nat.ltb_ge.
    apply N.ltb_lt in E. rewrite E in H. by apply Nat.leb_le in H.
Qed.

(** [n.toString().slice(0, -k)] is [(n / 10^k).toString()] once [n] has
    more than [k] digits. *)
Lemma toString_slice k n :
  10 ^ N.of_nat k <= n →
  UI.slice_off_end k (UI.toString n) = UI.toString (n / 10 ^ N.of_nat k).
Proof.
  intros Hk. unfold UI.slice_off_end. rewrite toString_length.
  rewrite (toString_fuel (N.to_nat (N.log2 n)) (n / 10 ^ N.of_nat k)).
  2:{ eapply N.le_lt_trans; [apply div_pow10_le|apply log2_fuel]. }
  unfold UI.toString. rewrite <- fmap_take. f_equal.
  rewrite <- reverse_drop. f_equal. symmetry.
  apply digits_of_drop; [apply log2_fuel|done].
Qed.

(** [toString] is the decimal notation: digits only, and read as a
    decimal number they give [n] back. *)
Lemma digits_of_value f n :
  n < 10 ^ N.of_nat (S f) →
  Forall (λ d, d < 10) (UI.digits_of (S f) n) ∧
  foldr (λ d acc, d + 10 * acc) 0 (UI.digits_of (S f) n) = n.
Proof.
  revert n. induction f as [|f IH]; intros n Hf; rewrite digits_of_S.
  - change (10 ^ N.of_nat 1) with 10 in Hf.
    apply N.ltb_lt in Hf as Hf'. rewrite Hf'. split; [by repeat constructor|].
    cbn [foldr]. lia.
  - destruct (n <? 10) eqn:E.
    + apply N.ltb_lt in E. split; [by repeat constructor|]. cbn [foldr]. lia.
    + destruct (IH (n / 10)) as [H1 H2]; [by apply div10_lt|]. split.
      * constructor; [by apply N.mod_upper_bound|done].
      * cbn [foldr]. rewrite H2.
        pose proof (N.Div0.div_mod n 10). lia.
Qed.

Lemma read_decimal_reverse ds :
  foldl (λ acc c, 10 * acc + (c - 48)) 0 ((λ d, 48 + d) <$> reverse ds)
  = foldr (λ d acc, d + 10 * acc) 0 ds.
Proof.
  induction ds as [|d ds IH]; [done|].
  rewrite reverse_cons, fmap_app, foldl_app. cbn [fmap list_fmap foldl foldr].
  rewrite IH. lia.
Qed.

Lemma toString_is_decimal n :
  Forall (λ c, 48 <= c <= 57) (UI.toString n) ∧
  foldl (λ acc c, 10 * acc + (c - 48)) 0 (UI.toString n) = n.
Proof.
  destruct (digits_of_value _ n (log2_fuel n)) as [H1 H2].
  unfold UI.toString. split.
  - apply Forall_fmap, Forall_reverse.
    eapply Forall_impl; [exact H1|]. cbn. intros d Hd. lia.
  - by rewrite read_decimal_reverse.
Qed.

Example toString_1234 : UI.toString 1234 = [49; 50; 51; 52].
Proof. reflexivity. Qed.

Example formatLargeNumber_of_the_default_amount :
  UI.formatLargeNumber (Some (10 ^ 30)) = [49; 84].
Proof. vm_compute. reflexivity. Qed.

(** X19. [formatLargeNumber] shows the whole tokens of an amount of
    token units (18 decimals) cut down, never rounded up: nothing but
    "0" below one whole token, and from there the whole tokens divided
    by the largest of 10^15, 10^12, 10^9, 10^6, 10^3 they reach, with
    the letter Q, T, B, M or K of that unit; the remainder of each
    division is dropped. *)
Theorem formatLargeNumber_cuts_to_the_unit (n : N) :
  UI.formatLargeNumber (Some n) =
    let tokens := n / 10 ^ 18 in
    if tokens =? 0 then [48]
    else if 10 ^ 15 <=? tokens then UI.toString (tokens / 10 ^ 15) ++ [81]
    else if 10 ^ 12 <=? tokens then UI.toString (tokens / 10 ^ 12) ++ [84]
    else if 10 ^ 9 <=? tokens then UI.toString (tokens / 10 ^ 9) ++ [66]
    else if 10 ^ 6 <=? tokens then UI.toString (tokens / 10 ^ 6) ++ [77]
    else if 10 ^ 3 <=? tokens then UI.toString (tokens / 10 ^ 3) ++ [75]
    else UI.toString tokens.
Proof.
  cbv zeta. unfold UI.formatLargeNumber. cbv zeta.
  assert (Hsmall : (n / 10 ^ 18 =? 0) = (n <? 10 ^ 18)).
  { destruct (n <? 10 ^ 18) eqn:E.
    - apply N.ltb_lt in E. apply N.eqb_eq. by apply N.div_small.
    - apply N.ltb_ge in E. apply N.eqb_neq. intros H0.
      apply N.div_small_iff in H0; [lia|done]. }
  rewrite Hsmall. destruct (n =? 0) eqn:E0.
  { apply N.eqb_eq in E0. by subst n. }
  rewrite (toString_length_leb 17 n).
  change (10 ^ N.of_nat 18) with (10 ^ 18).
  destruct (n <? 10 ^ 18) eqn:E18; [done|]. apply N.ltb_ge in E18.
  rewrite (toString_slice 18 n) by exact E18.
  change (10 ^ N.of_nat 18) with (10 ^ 18).
  generalize (n / 10 ^ 18). intros t.
  rewrite (toString_length_ltb 14 t), (toString_length_ltb 11 t),
    (toString_length_ltb 8 t), (toString_length_ltb 5 t),
    (toString_length_ltb 2 t).
  change (N.of_nat 15) with 15. change (N.of_nat 12) with 12.
  change (N.of_nat 9) with 9. change (N.of_nat 6) with 6.
  change (N.of_nat 3) with 3.
  destruct (10 ^ 15 <=? t) eqn:E15.
  { apply N.leb_le in E15. by rewrite (toString_slice 15 t). }
  destruct (10 ^ 12 <=? t) eqn:E12.
  { apply N.leb_le in E12. by rewrite (toString_slice 12 t). }
  destruct (10 ^ 9 <=? t) eqn:E9.
  { apply N.leb_le in E9. by rewrite (toString_slice 9 t). }
  destruct (10 ^ 6 <=? t) eqn:E6.
  { apply N.leb_le in E6. by rewrite (toString_slice 6 t). }
  destruct (10 ^ 3 <=? t) eqn:E3.
  { apply N.leb_le in E3. by rewrite (toString_slice 3 t). }
  done.
Qed.

(** * Properties of the funding script

    [loadEnv]: splitting, trimming, and what ends up in the environment. *)

Lemma trimStart_suffix s : Env.trimStart s `suffix_of` s.
Proof.
  induction s as [|c s IH]; [done|]. cbn [Env.trimStart].
  destruct (Env.is_white_space c); [by apply suffix_cons_r|done].
Qed.

Lemma trimStart_head s c s' :
  Env.trimStart s = c :: s' → Env.is_white_space c = false.
Proof.
  induction s as [|d s IH]; [done|]. cbn [Env.trimStart].
  destruct (Env.is_white_space d) eqn:E; [done|]. by intros [= <- <-].
Qed.

Lemma trimStart_clean s c s' :
  s = c :: s' → Env.is_white_space c = false → Env.trimStart s = s.
Proof. intros -> H. cbn [Env.trimStart]. by rewrite H. Qed.

Lemma elem_of_trim c s : c ∈ Env.trim s → c ∈ s.
Proof.
  unfold Env.trim. rewrite elem_of_reverse. intros H.
  destruct (trimStart_suffix (reverse (Env.trimStart s))) as [p1 E1].
  assert (c ∈ reverse (Env.trimStart s)) as H1.
  { rewrite E1. apply elem_of_app. by right. }
  rewrite elem_of_reverse in H1.
  destruct (trimStart_suffix s) as [p2 E2].
  rewrite E2. apply elem_of_app. by right.
Qed.

(** A trimmed string neither starts nor ends with white space. *)
Lemma trim_head s c : head (Env.trim s) = Some c → Env.is_white_space c = false.
Proof.
  unfold Env.trim. intros H.
  destruct (trimStart_suffix (reverse (Env.trimStart s))) as [p E].
  destruct (Env.trimStart (reverse (Env.trimStart s))) as [|d t] eqn:Et; [done|].
  rewrite head_reverse in H.
  assert (last (reverse (Env.trimStart s)) = Some c) as Hl.
  { rewrite E. rewrite last_app. by rewrite H. }
  rewrite last_reverse in Hl.
  destruct (Env.trimStart s) as [|e u] eqn:Es; [done|].
  cbn in Hl. injection Hl as ->. by eapply trimStart_head.
Qed.

Lemma trim_last s c : last (Env.trim s) = Some c → Env.is_white_space c = false.
Proof.
  unfold Env.trim. rewrite last_reverse. intros H.
  destruct (Env.trimStart (reverse (Env.trimStart s))) as [|d t] eqn:Et; [done|].
  cbn in H. injection H as ->. by eapply trimStart_head.
Qed.

Lemma split_nonempty sep s : Env.split sep s ≠ [].
Proof.
  destruct s as [|c s]; [done|]. cbn [Env.split].
  destruct (c =? sep); [done|]. by destruct (Env.split sep s).
Qed.

Lemma split_pieces sep s p :
  p ∈ Env.split sep s → (sep ∉ p) ∧ (∀ c, c ∈ p → c ∈ s).
Proof.
  revert p. induction s as [|c s IH]; intros p; cbn [Env.split].
  - intros ->%list_elem_of_singleton. split; [apply not_elem_of_nil|done].
  - destruct (c =? sep) eqn:E.
    + intros [->|H]%elem_of_cons.
      * split; [apply not_elem_of_nil|]. by intros ? ?%elem_of_nil.
      * destruct (IH _ H) as [? Hs]. split; [done|].
        intros d Hd. apply elem_of_cons. right. by apply Hs.
    + apply N.eqb_neq in E.
      destruct (Env.split sep s) as [|q qs] eqn:Eq.
      { by destruct (split_nonempty sep s). }
      intros [->|H]%elem_of_cons.
      * destruct (IH q) as [Hq Hs]; [by left|]. split.
        -- intros [?|?]%elem_of_cons; [congruence|done].
        -- intros d [->|Hd]%elem_of_cons; [by left|]. right. by apply Hs.
      * destruct (IH p) as [Hq Hs]; [by right|]. split; [done|].
        intros d Hd. right. by apply Hs.
Qed.

Lemma split_plain sep s : sep ∉ s → Env.split sep s = [s].
Proof.
  induction s as [|c s IH]; [done|]. intros H.
  apply not_elem_of_cons in H as [Hc Hs]. cbn [Env.split].
  assert ((c =? sep) = false) as -> by (apply N.eqb_neq; congruence).
  by rewrite IH.
Qed.

Lemma split_app sep a b :
  sep ∉ a → Env.split sep (a ++ sep :: b) = a :: Env.split sep b.
Proof.
  induction a as [|c a IH]; intros H.
  - cbn [app Env.split]. by rewrite N.eqb_refl.
  - apply not_elem_of_cons in H as [Hc Ha]. cbn [app Env.split].
    assert ((c =? sep) = false) as -> by (apply N.eqb_neq; congruence).
    by rewrite IH.
Qed.

(** Splitting what was joined gives the lines back. *)
Lemma split_join sep ls :
  ls ≠ [] → Forall (λ l, sep ∉ l) ls → Env.split sep (Env.join sep ls) = ls.
Proof.
  induction ls as [|l ls IH]; [done|]. intros _ H.
  apply Forall_cons in H as [Hl Hls]. cbn [Env.join].
  destruct ls as [|l' ls]; [by apply split_plain|].
  rewrite split_app by done. f_equal. by apply IH.
Qed.

Lemma elem_of_join c sep ls :
  c ∈ Env.join sep ls → c = sep ∨ ∃ l, l ∈ ls ∧ c ∈ l.
Proof.
  induction ls as [|l ls IH]; cbn [Env.join]; [by intros ?%elem_of_nil|].
  destruct ls as [|l' ls].
  - intros H. right. exists l. split; [by left|done].
  - intros [H|[->|H]%elem_of_cons]%elem_of_app.
    + right. exists l. split; [by left|done].
    + by left.
    + destruct (IH H) as [->|(l0 & ? & ?)]; [by left|].
      right. exists l0. split; [by right|done].
Qed.

Lemma trim_trimmed s : Env.trimmed (Env.trim s).
Proof. intros c [H|H]; [by eapply trim_head|by eapply trim_last]. Qed.

Lemma trim_stored_field s :
  Env.equals_sign ∉ s → Env.newline ∉ s → Env.stored_field (Env.trim s).
Proof.
  intros H1 H2. split_and!.
  - intros H. by apply H1, elem_of_trim.
  - intros H. by apply H2, elem_of_trim.
  - apply trim_trimmed.
Qed.

(** What one line may add to the environment. *)
Lemma loadEnv_line_inv env line :
  Env.loadEnv_line env line = env ∨
  ∃ key value more,
    Env.split Env.equals_sign line = key :: value :: more ∧
    key ≠ [] ∧ value ≠ [] ∧ Env.trim key ≠ Env.proto ∧
    Env.loadEnv_line env line = <[Env.trim key := Env.trim value]> env.
Proof.
  unfold Env.loadEnv_line.
  destruct (Env.split Env.equals_sign line) as [|key [|value more]];
    [by left..|].
  destruct (bool_decide (key ≠ [])) eqn:Ek; [|by left].
  destruct (bool_decide (value ≠ [])) eqn:Ev; [|by left].
  apply bool_decide_eq_true in Ek, Ev. cbn [andb]. unfold Env.assign.
  case_decide; [by left|]. right. by exists key, value, more.
Qed.

Lemma loadEnv_line_other env line key :
  Env.trim (Env.key_field line) ≠ key →
  Env.loadEnv_line env line !! key = env !! key.
Proof.
  intros Hk.
  destruct (loadEnv_line_inv env line)
    as [->|(k0 & v0 & more & Es & _ & _ & _ & ->)]; [done|].
  unfold Env.key_field in Hk. rewrite Es in Hk. cbn in Hk.
  by rewrite lookup_insert_ne.
Qed.

Lemma loadEnv_lines_stored lines env :
  Forall (λ l, Env.newline ∉ l) lines →
  (∀ k v, env !! k = Some v →
     Env.stored_field k ∧ Env.stored_field v ∧ k ≠ Env.proto) →
  ∀ k v, foldl Env.loadEnv_line env lines !! k = Some v →
    Env.stored_field k ∧ Env.stored_field v ∧ k ≠ Env.proto.
Proof.
  revert env. induction lines as [|l lines IH]; intros env Hl Henv; [done|].
  apply Forall_cons in Hl as [Hl Hls]. cbn [foldl]. apply IH; [done|].
  destruct (loadEnv_line_inv env l)
    as [->|(k0 & v0 & more & Es & _ & _ & Hp & ->)]; [done|].
  assert (k0 ∈ Env.split Env.equals_sign l) as Hk0 by (rewrite Es; by left).
  assert (v0 ∈ Env.split Env.equals_sign l) as Hv0
    by (rewrite Es; right; by left).
  apply split_pieces in Hk0 as [Hk1 Hk2], Hv0 as [Hv1 Hv2].
  intros k v. destruct (decide (Env.trim k0 = k)) as [<-|Hne].
  - rewrite lookup_insert_eq. intros [= <-]. split_and!; [| |done].
    + apply trim_stored_field; [done|]. intros ?. by apply Hl, Hk2.
    + apply trim_stored_field; [done|]. intros ?. by apply Hl, Hv2.
  - rewrite lookup_insert_ne by done. apply Henv.
Qed.

(** X20. Every key and every value that [loadEnv] reads from the file is
    free of '=' and of line breaks and neither starts nor ends with
    white space, and the key is never "__proto__": a value is cut at
    its first '=', whatever follows on the line is dropped. *)
Theorem loadEnv_stores_cut_and_trimmed_fields
    (envContent : Env.str) (process_env : gmap Env.str Env.str) (k v : Env.str) :
  Env.loadEnv (Some envContent) process_env !! k = Some v →
  Env.stored_field k ∧ Env.stored_field v ∧ k ≠ Env.proto.
Proof.
  cbn [Env.loadEnv]. apply loadEnv_lines_stored; [|done].
  apply Forall_forall. intros l Hl. by apply split_pieces in Hl as [? _].
Qed.

Lemma loadEnv_stores_cut_and_trimmed_fields_witness :
  Env.loadEnv (Some [32; 65; 61; 98; 32; 61; 99; 10; 66; 61; 100]) ∅ !! [65]
    = Some [98]
  ∧ Env.stored_field [65] ∧ Env.stored_field [98] ∧ [65] ≠ Env.proto.
Proof.
  assert (H : Env.loadEnv (Some [32; 65; 61; 98; 32; 61; 99; 10; 66; 61; 100]) ∅
                !! [65] = Some [98]) by (vm_compute; reflexivity).
  split; [exact H|].
  exact (loadEnv_stores_cut_and_trimmed_fields _ _ _ _ H).
Defined.

Lemma loadEnv_lines_keep lines env key :
  Forall (λ l, Env.trim (Env.key_field l) ≠ key) lines →
  foldl Env.loadEnv_line env lines !! key = env !! key.
Proof.
  revert env. induction lines as [|l lines IH]; intros env H; [done|].
  apply Forall_cons in H as [Hl Hls]. cbn [foldl].
  rewrite IH by done. by apply loadEnv_line_other.
Qed.

(** X21. A line [key=value] is read back: when the file is made of
    lines, one of them is [key=value] (possibly followed by [=...]),
    [key] and [value] are not empty and hold no '=', and no later line
    has the same trimmed key before its first '=', then the environment
    maps the trimmed key to the trimmed value (unless the key is
    "__proto__"). *)
Theorem loadEnv_reads_the_last_assignment
    (before after : list Env.str) (key value : Env.str) (more : list Env.str)
    (process_env : gmap Env.str Env.str) :
  key ≠ [] → value ≠ [] →
  Forall (λ p, (Env.equals_sign ∉ p) ∧ (Env.newline ∉ p)) (key :: value :: more) →
  Forall (λ l, Env.newline ∉ l) before →
  Forall (λ l, (Env.newline ∉ l) ∧ Env.trim (Env.key_field l) ≠ Env.trim key) after →
  Env.trim key ≠ Env.proto →
  Env.loadEnv
    (Some (Env.file_of (before ++ Env.line_of key value more :: after)))
    process_env !! Env.trim key
  = Some (Env.trim value).
Proof.
  intros Hk Hv Hf Hb Ha Hp. cbn [Env.loadEnv]. unfold Env.file_of.
  assert (Hsplit : Env.split Env.equals_sign (Env.line_of key value more)
                   = key :: value :: more).
  { unfold Env.line_of. apply split_join; [done|].
    eapply Forall_impl; [exact Hf|]. by intros ? [? _]. }
  assert (Hline : Env.newline ∉ Env.line_of key value more).
  { unfold Env.line_of. intros [E|(p & Hin & Hc)]%elem_of_join; [done|].
    rewrite Forall_forall in Hf. by destruct (Hf p Hin) as [_ ?]. }
  rewrite split_join.
  2:{ by destruct before. }
  2:{ apply Forall_app. split; [done|]. apply Forall_cons. split; [done|].
      eapply Forall_impl; [exact Ha|]. by intros ? [? _]. }
  rewrite foldl_app. cbn [foldl]. rewrite loadEnv_lines_keep.
  2:{ eapply Forall_impl; [exact Ha|]. by intros ? [_ ?]. }
  unfold Env.loadEnv_line. rewrite Hsplit.
  rewrite !bool_decide_eq_true_2 by done. cbn [andb]. unfold Env.assign.
  rewrite decide_False by done. by rewrite lookup_insert_eq.
Qed.

Lemma loadEnv_reads_the_last_assignment_witness :
  Env.loadEnv (Some [35; 10; 65; 32; 61; 32; 98; 61; 99; 10; 66; 61; 100]) ∅
    !! [65] = Some [98].
Proof.
  apply (loadEnv_reads_the_last_assignment
           [[35]] [[66; 61; 100]] [65; 32] [32; 98] [[99]] ∅).
  - done.
  - done.
  - apply (bool_decide_unpack _). vm_compute. exact I.
  - apply (bool_decide_unpack _). vm_compute. exact I.
  - apply (bool_decide_unpack _). vm_compute. exact I.
  - vm_compute. discriminate.
Defined.
